(** * A WebSocket-to-TCP tunnelling relay: model and properties

    The relay (index.js) accepts one WebSocket per client, reads a small
    text protocol from it (CONNECT:, DATA:, CLOSE, raw binary) and splices
    the stream onto a TCP socket it dials with a list of fallback hosts.
    The repository holds two variants of the file: they have the same
    session code, and the second one resolves host names itself (DNS over
    HTTPS with a cache) before it dials.

    The model comes first:
    - [JS]: the string primitives of the language the code relies on;
    - [Utf8]: the text of a Buffer ([toString]);
    - [parseAddress], [isCFError]: two closures of [handleSession] that
      depend on nothing else;
    - [Resolver]: [queryDoH], [resolveDoH] and the cache, as a state monad
      over the cache, the clock and the list of lookups sent out;
    - [Session]: [handleSession] as an event loop: a state (the closure's
      variables, the sockets, the suspended [connectToRemote] calls, the
      actions performed so far), the listeners as code that runs on the
      state and may throw, and one transition per event of the runtime;
    - [Scenario]: configurations and a few sequences of events;
    - [Server]: the settings read from the environment, the token check
      and the HTTP listener;
    - [Trace]: what the properties observe of a session and of the
      resolver.

    The properties follow: [JSFacts], [Utf8Facts] and
    [parseAddress_spec], [ResolverFacts], [SessionFacts] and
    [ScenarioFacts]; then [ServerFacts], [AddressFacts] (addresses that
    are not well formed, the errors that are retried), [ResolverLaws]
    (order of the lookups, failures, what the cache keeps), [Invariants]
    (properties of every sequence of events), [StreamFacts] (streaming,
    and requests that cannot be dialled), [BoundFacts] (how many
    connections a session opens), [DialFacts] (the order of the attempts
    of a dial, a Connect-request in any state) and [ScenarioChecks].

    An [async] function is cut at its awaits.  What runs between two
    awaits is one turn of the event loop and is modelled by a function on
    the state; the variables a suspended call needs when it goes on are
    kept in a [frame], with the socket or the resolution it awaits. *)

From Stdlib Require Import ZArith String Ascii List Bool Lia.
From stdpp Require Import base option list gmap strings.
Import ListNotations.

Local Open Scope Z_scope.
Local Open Scope string_scope.
Local Open Scope list_scope.

(** ** JavaScript strings

    A string is modelled by [string]: a sequence of 8-bit characters.  The
    model is exact on ASCII text, which is what the control protocol, the
    addresses and the error messages of the runtime are made of.  Text
    that is not ASCII is kept by its UTF-8 bytes (see [Utf8]). *)
Module JS.

Fixpoint drop (n : nat) (s : string) : string :=
  match n, s with
  | O, _ => s
  | S _, EmptyString => EmptyString
  | S n', String _ s' => drop n' s'
  end.

Fixpoint take (n : nat) (s : string) : string :=
  match n, s with
  | O, _ => EmptyString
  | S _, EmptyString => EmptyString
  | S n', String c s' => String c (take n' s')
  end.

(** An index argument is clamped to [0, length]. *)
Definition clamp (len : nat) (z : Z) : nat :=
  Z.to_nat (Z.min (Z.max z 0) (Z.of_nat len)).

(** [s.substring(start, stop)]: both indices are clamped, and swapped
    when [start] is the larger one. *)
Definition substring (s : string) (start stop : Z) : string :=
  let a := clamp (String.length s) start in
  let b := clamp (String.length s) stop in
  take (Nat.max a b - Nat.min a b) (drop (Nat.min a b) s).

(** [s.substring(start)] *)
Definition substring_from (s : string) (start : Z) : string :=
  substring s start (Z.of_nat (String.length s)).

Fixpoint first_index (c : ascii) (s : string) : option nat :=
  match s with
  | EmptyString => None
  | String a s' =>
      if Ascii.eqb a c then Some O else S <$> first_index c s'
  end.

Fixpoint last_index (c : ascii) (s : string) : option nat :=
  match s with
  | EmptyString => None
  | String a s' =>
      match last_index c s' with
      | Some i => Some (S i)
      | None => if Ascii.eqb a c then Some O else None
      end
  end.

(** [s.indexOf(c, from)] for a one-character needle; -1 when absent. *)
Definition indexOf (s : string) (c : ascii) (from : Z) : Z :=
  let k := clamp (String.length s) from in
  match first_index c (drop k s) with
  | Some i => Z.of_nat (k + i)
  | None => -1
  end.

(** [s.lastIndexOf(c)] *)
Definition lastIndexOf (s : string) (c : ascii) : Z :=
  match last_index c s with
  | Some i => Z.of_nat i
  | None => -1
  end.

(** [s[0] === c]; [s[0]] is undefined on the empty string. *)
Definition head_is (s : string) (c : ascii) : bool :=
  match s with
  | EmptyString => false
  | String a _ => Ascii.eqb a c
  end.

(** [s.startsWith(p)] *)
Definition startsWith (s p : string) : bool := String.prefix p s.

(** [s.includes(needle)] *)
Fixpoint includes (s needle : string) : bool :=
  String.prefix needle s ||
  match s with
  | EmptyString => false
  | String _ s' => includes s' needle
  end.

Definition lower (c : ascii) : ascii :=
  let n := nat_of_ascii c in
  if (65 <=? n)%nat && (n <=? 90)%nat then ascii_of_nat (n + 32) else c.

(** [s.toLowerCase()] *)
Fixpoint toLowerCase (s : string) : string :=
  match s with
  | EmptyString => EmptyString
  | String c s' => String (lower c) (toLowerCase s')
  end.

(** A string is truthy when it is not empty. *)
Definition truthy (s : string) : bool :=
  match s with EmptyString => false | _ => true end.

Definition is_space (c : ascii) : bool :=
  let n := nat_of_ascii c in
  ((9 <=? n)%nat && (n <=? 13)%nat) || (n =? 32)%nat.

Fixpoint skip_space (s : string) : string :=
  match s with
  | String c s' => if is_space c then skip_space s' else s
  | EmptyString => s
  end.

Definition digit (c : ascii) : option Z :=
  let n := Z.of_nat (nat_of_ascii c) in
  if (48 <=? n)%Z && (n <=? 57)%Z then Some (n - 48) else None.

(** The longest prefix of decimal digits, as a number; [acc] is [None]
    until a digit has been read. *)
Fixpoint digits (acc : option Z) (s : string) : option Z :=
  match s with
  | EmptyString => acc
  | String c s' =>
      match digit c with
      | Some d => digits (Some (10 * default 0 acc + d)) s'
      | None => acc
      end
  end.

(** [parseInt(s, 10)]; [None] is NaN.  The result is the exact integer
    (a JavaScript number rounds it above 2^53). *)
Definition parseInt10 (s : string) : option Z :=
  match skip_space s with
  | String "-" s' => Z.opp <$> digits None s'
  | String "+" s' => digits None s'
  | s' => digits None s'
  end.

(** Whether the character [c] occurs in [s]. *)
Definition occurs (c : ascii) (s : string) : bool :=
  match first_index c s with Some _ => true | None => false end.

End JS.

(** ** Buffers read as text

    [buffer.toString()] decodes the bytes of a Buffer as UTF-8.  A
    well-formed sequence gives its character; every maximal part of a
    sequence that is not well formed (a byte that can start nothing, a
    sequence cut short by a byte that cannot go on with it or by the end
    of the Buffer) gives one replacement character U+FFFD.

    A string that comes from a Buffer is kept by its UTF-8 bytes, which
    are the bytes [socket.write(string)] puts on the wire: decoding leaves
    a well-formed sequence as it is and puts the three bytes of U+FFFD
    (0xEF 0xBF 0xBD) where the bytes are not well formed. *)
Module Utf8.

(** U+FFFD in UTF-8. *)
Definition replacement : string := String "239" (String "191" (String "189" "")).

Definition between (lo hi n : nat) : bool := (lo <=? n)%nat && (n <=? hi)%nat.

(** The range of the second byte after the lead byte [n] of a sequence of
    three or four bytes: it is narrower after 0xE0 and 0xF0 (no overlong
    form), after 0xED (no surrogate) and after 0xF4 (nothing above
    U+10FFFF). *)
Definition second (n : nat) : nat * nat :=
  if (n =? 224)%nat then (160, 191)%nat
  else if (n =? 237)%nat then (128, 159)%nat
  else if (n =? 240)%nat then (144, 191)%nat
  else if (n =? 244)%nat then (128, 143)%nat
  else (128, 191)%nat.

(** An open sequence: the bytes read so far, how many are still to come
    and the range of the next one. *)
Record partial := {
  seen : string;
  needed : nat;
  lower : nat;
  upper : nat }.

(** A byte read with no sequence open: a character of its own, the lead
    byte of a sequence of two, three or four bytes, or a byte that starts
    nothing (0x80..0xC1 and 0xF5..0xFF). *)
Inductive start :=
| Single
| Lead (p : partial)
| Invalid.

Definition lead (c : ascii) : start :=
  let n := nat_of_ascii c in
  if (n <? 128)%nat then Single
  else if between 194 223 n then
    Lead {| seen := String c ""; needed := 1; lower := 128; upper := 191 |}
  else if between 224 239 n then
    Lead {| seen := String c ""; needed := 2;
            lower := (second n).1; upper := (second n).2 |}
  else if between 240 244 n then
    Lead {| seen := String c ""; needed := 3;
            lower := (second n).1; upper := (second n).2 |}
  else Invalid.

(** The decoder, with the sequence that is open.  A byte that cannot go
    on with the open sequence ends it with a replacement character and
    is read again with no sequence open. *)
Fixpoint decode_from (p : option partial) (s : string) : string :=
  match s with
  | EmptyString =>
      match p with Some _ => replacement | None => EmptyString end
  | String c s' =>
      match p with
      | Some q =>
          if between (lower q) (upper q) (nat_of_ascii c) then
            match needed q with
            | S (S k) =>
                decode_from
                  (Some {| seen := seen q +:+ String c ""; needed := S k;
                           lower := 128; upper := 191 |}) s'
            | _ => seen q +:+ String c (decode_from None s')
            end
          else
            replacement +:+
            match lead c with
            | Single => String c (decode_from None s')
            | Lead q' => decode_from (Some q') s'
            | Invalid => replacement +:+ decode_from None s'
            end
      | None =>
          match lead c with
          | Single => String c (decode_from None s')
          | Lead q' => decode_from (Some q') s'
          | Invalid => replacement +:+ decode_from None s'
          end
      end
  end.

(** The text of a Buffer, as the UTF-8 bytes of the decoded string. *)
Definition decode (bytes : string) : string := decode_from None bytes.

(** A byte that goes on with a sequence: 0x80..0xBF. *)
Definition tail (c : ascii) : bool := between 128 191 (nat_of_ascii c).

(** Well-formed UTF-8: characters of one byte, and sequences of two
    bytes (lead byte 0xC2..0xDF), three bytes (0xE0..0xEF) and four bytes
    (0xF0..0xF4) whose second byte is in the range of the lead byte and
    whose other bytes are in 0x80..0xBF. *)
Fixpoint well_formed (s : string) : bool :=
  match s with
  | EmptyString => true
  | String a s1 =>
      let n := nat_of_ascii a in
      if (n <? 128)%nat then well_formed s1
      else
        match s1 with
        | EmptyString => false
        | String b s2 =>
            if between 194 223 n then tail b && well_formed s2
            else
              match s2 with
              | EmptyString => false
              | String c s3 =>
                  let in_range :=
                    between (second n).1 (second n).2 (nat_of_ascii b) in
                  if between 224 239 n then in_range && tail c && well_formed s3
                  else
                    match s3 with
                    | EmptyString => false
                    | String d s4 =>
                        between 240 244 n && in_range && tail c && tail d
                        && well_formed s4
                    end
              end
        end
  end.

End Utf8.

(** ** Addresses and error classes (closures of [handleSession]) *)

Record address := { host : string; port : option Z }.

(** [parseAddress]: [[host]:port] or [host:port]. *)
Definition parseAddress (addr : string) : address :=
  if JS.head_is addr "[" then
    let end_ := JS.indexOf addr "]" 0 in
    {| host := JS.substring addr 1 end_;
       port := JS.parseInt10 (JS.substring_from addr (end_ + 2)) |}
  else
    let sep := JS.lastIndexOf addr ":" in
    {| host := JS.substring addr 0 sep;
       port := JS.parseInt10 (JS.substring_from addr (sep + 1)) |}.

(** An error value: what the code reads of it is its [message], which may
    be missing. *)
Record jserror := { message : option string }.

Definition Error (msg : string) : jserror := {| message := Some msg |}.

(** [isCFError]: the failures that let the dial go on to the next host. *)
Definition isCFError (err : jserror) : bool :=
  let msg := default "" (JS.toLowerCase <$> message err) in
  JS.includes msg "proxy request" ||
  JS.includes msg "cannot connect" ||
  JS.includes msg "econnrefused" ||
  JS.includes msg "etimedout".

(** What an awaited promise settles with. *)
Inductive settled (A : Type) : Type :=
| Fulfilled (v : A)
| Rejected (err : jserror).
Arguments Fulfilled {A} v.
Arguments Rejected {A} err.

(** [net.isIPv4] of the runtime: four decimal numbers from 0 to 255 with no
    leading zero, separated by dots. *)
Module Net.

Fixpoint split_on (c : ascii) (cur : string) (s : string) : list string :=
  match s with
  | EmptyString => [cur]
  | String a s' =>
      if Ascii.eqb a c then cur :: split_on c EmptyString s'
      else split_on c (cur +:+ String a EmptyString) s'
  end.

Fixpoint all_digits (s : string) : bool :=
  match s with
  | EmptyString => true
  | String c s' => bool_decide (is_Some (JS.digit c)) && all_digits s'
  end.

Definition octet (s : string) : bool :=
  match s with
  | EmptyString => false
  | String "0" EmptyString => true
  | String "0" _ => false
  | _ =>
      all_digits s && (String.length s <=? 3)%nat &&
      match JS.digits None s with
      | Some n => (n <=? 255)%Z
      | None => false
      end
  end.

Definition isIPv4 (s : string) : bool :=
  match split_on "." EmptyString s with
  | [a; b; c; d] => octet a && octet b && octet c && octet d
  | _ => false
  end.

(** An [isIP] that knows dotted quads only: 4 or 0. *)
Definition isIP_v4 (s : string) : nat := if isIPv4 s then 4%nat else 0%nat.

End Net.

(** ** The name resolver (second variant of index.js) *)
Module Resolver.

Definition DOH_SERVERS : list string :=
  [ "https://dns.google/dns-query";
    "https://cloudflare-dns.com/dns-query";
    "https://1.1.1.1/dns-query" ].

Definition DNS_CACHE_TTL : Z := 300000.

(** A value of [dnsCache]: [{ ip, timestamp }]. *)
Record entry := { ip : string; timestamp : Z }.

(** The lookups that leave the process. *)
Inductive lookup :=
| HttpsGet (url : string)            (* https.get(url, ..), in queryDoH *)
| SystemQuery (hostname : string).   (* dns.resolve4(hostname) *)

(** An answer record of a DNS reply in JSON: its [type] and its [data]
    (an empty string stands for data that is not truthy). *)
Record answer := { a_type : Z; a_data : string }.

(** How an HTTPS request ends: a body that parses, with [json.Answer]
    when it has one; a body [JSON.parse] throws on; the request's 'error';
    its 'timeout'. *)
Inductive https_reply :=
| Json (Answer : option (list answer))
| Garbage (err : jserror)
| Failed (err : jserror)
| TimedOut.

(** The outside world: how a lookup sent at a given time ends, and the
    milliseconds it takes.  [dns.resolve4] fulfils with a list of
    addresses. *)
Record network := {
  https_get : string -> Z -> https_reply * Z;
  resolve4 : string -> Z -> settled (list string) * Z }.

(** The module's state: the cache, the clock read by [Date.now()], and
    the lookups sent so far. *)
Record rstate := {
  dnsCache : gmap string entry;
  now : Z;
  lookups : list lookup }.

Definition M (A : Type) : Type := rstate -> A * rstate.

#[global] Instance M_ret : MRet M := fun A a st => (a, st).
#[global] Instance M_bind : MBind M :=
  fun A B f m st => let '(a, st') := m st in f a st'.

Definition cache_get (hostname : string) : M (option entry) :=
  fun st => (dnsCache st !! hostname, st).

Definition cache_set (hostname : string) (e : entry) : M unit :=
  fun st => (tt, {| dnsCache := <[hostname := e]> (dnsCache st);
                    now := now st; lookups := lookups st |}).

Definition date_now : M Z := fun st => (now st, st).

Section WithRuntime.

(** [net.isIP]: 0 when the string is no IP address, 4 or 6 otherwise. *)
Variable isIP : string -> nat.
Variable world : network.

(** The URL of a query: [`${dohServer}?name=${hostname}&type=A`]. *)
Definition doh_url (dohServer hostname : string) : string :=
  dohServer +:+ "?name=" +:+ hostname +:+ "&type=A".

(** What the promise of [queryDoH] settles with: the data of the first
    answer of type 1 (an A record), or a rejection. *)
Definition settle (r : https_reply) : settled string :=
  match r with
  | Json (Some answers) =>
      match find (fun a => (a_type a =? 1)%Z) answers with
      | Some a => Fulfilled (a_data a)
      | None => Rejected (Error "No A record found")
      end
  | Json None => Rejected (Error "No A record found")
  | Garbage err => Rejected err
  | Failed err => Rejected err
  | TimedOut => Rejected (Error "DoH query timeout")
  end.

(** [await queryDoH(dohServer, hostname)] *)
Definition queryDoH (dohServer hostname : string) : M (settled string) :=
  fun st =>
    let url := doh_url dohServer hostname in
    let '(r, d) := https_get world url (now st) in
    (settle r, {| dnsCache := dnsCache st; now := now st + d;
                  lookups := lookups st ++ [HttpsGet url] |}).

Definition await_resolve4 (hostname : string) : M (settled (list string)) :=
  fun st =>
    let '(r, d) := resolve4 world hostname (now st) in
    (r, {| dnsCache := dnsCache st; now := now st + d;
           lookups := lookups st ++ [SystemQuery hostname] |}).

(** The loop over [DOH_SERVERS]: the first truthy answer is cached and
    returned; a rejection or a falsy answer moves on. *)
Fixpoint try_servers (servers : list string) (hostname : string)
  : M (option string) :=
  match servers with
  | [] => mret None
  | dohServer :: rest =>
      r ← queryDoH dohServer hostname;
      match r with
      | Fulfilled ip_ =>
          if JS.truthy ip_ then
            t ← date_now;
            cache_set hostname {| ip := ip_; timestamp := t |};;
            mret (Some ip_)
          else try_servers rest hostname
      | Rejected _ => try_servers rest hostname
      end
  end.

(** The fallback on the system resolver. *)
Definition system_dns (hostname : string) : M (settled string) :=
  r ← await_resolve4 hostname;
  match r with
  | Fulfilled (ip_ :: _) =>
      t ← date_now;
      cache_set hostname {| ip := ip_; timestamp := t |};;
      mret (Fulfilled ip_)
  | _ => mret (Rejected (Error ("Failed to resolve " +:+ hostname)))
  end.

(** After a miss: the DoH servers in order, then the system resolver,
    then the failure. *)
Definition lookup_chain (hostname : string) : M (settled string) :=
  r ← try_servers DOH_SERVERS hostname;
  match r with
  | Some ip_ => mret (Fulfilled ip_)
  | None => system_dns hostname
  end.

(** [cached && Date.now() - cached.timestamp < DNS_CACHE_TTL] *)
Definition hit (cached : option entry) (t : Z) : option string :=
  match cached with
  | Some c => if (t - timestamp c <? DNS_CACHE_TTL)%Z then Some (ip c) else None
  | None => None
  end.

Definition resolveDoH (hostname : string) : M (settled string) :=
  cached ← cache_get hostname;
  t ← date_now;
  match hit cached t with
  | Some ip_ => mret (Fulfilled ip_)
  | None =>
      if negb (isIP hostname =? 0)%nat then mret (Fulfilled hostname)
      else lookup_chain hostname
  end.

End WithRuntime.

(** The states of the module: it starts with an empty cache, time
    passes, and calls of [resolveDoH] (in any world) update the cache. *)
Inductive reachable (isIP : string -> nat) : rstate -> Prop :=
| reach_start (t : Z) :
    reachable isIP {| dnsCache := ∅; now := t; lookups := [] |}
| reach_tick (st : rstate) (t : Z) :
    reachable isIP st ->
    reachable isIP {| dnsCache := dnsCache st; now := t; lookups := lookups st |}
| reach_resolve (st : rstate) (world : network) (hostname : string) :
    reachable isIP st ->
    reachable isIP (resolveDoH isIP world hostname st).2.

(** No key of the cache is an IP address. *)
Definition names_only (isIP : string -> nat) (st : rstate) : Prop :=
  forall h e, dnsCache st !! h = Some e -> isIP h = 0%nat.

(** The state without the entry of [hostname]. *)
Definition forget (hostname : string) (st : rstate) : rstate :=
  {| dnsCache := delete hostname (dnsCache st); now := now st;
     lookups := lookups st |}.

(** Two states with the same clock and the same lookups sent. *)
Definition same_io (st st' : rstate) : Prop :=
  now st = now st' /\ lookups st = lookups st'.

(** A world where nothing answers. *)
Definition dead_world : network :=
  {| https_get := fun _ _ => (TimedOut, 5000%Z);
     resolve4 := fun _ _ => (Rejected (Error "queryA ENOTFOUND"), 20%Z) |}.

(** A world where every DoH server answers with a CNAME record and the A
    record 93.184.216.34. *)
Definition live_world : network :=
  {| https_get := fun _ _ =>
       (Json (Some [ {| a_type := 5; a_data := "edge.example.net." |};
                     {| a_type := 1; a_data := "93.184.216.34" |} ]), 30%Z);
     resolve4 := fun _ _ => (Fulfilled ["93.184.216.34"], 20%Z) |}.

End Resolver.

(** ** The session ([handleSession]) *)
Module Session.

(** The configuration: the fallback hosts read from the environment, the
    variant of the file ([with_doh] for the one that resolves names
    itself), and two facts of the runtime the code does not fix:
    [net.isIP], and whether [webSocket.send] throws or discards when the
    WebSocket is not open (releases of the ws package differ on it). *)
Record config := {
  CF_FALLBACK_IPS : list string;
  with_doh : bool;
  isIP : string -> nat;
  send_throws : bool }.

(** Sockets are named by the order in which [net.connect] returned
    them. *)
Abbreviation sock := nat (only parsing).

(** What a WebSocket message or a socket chunk carries: a string or a
    Buffer.  A string is kept by its UTF-8 bytes, which are what a write
    of the string puts on the wire; a Buffer holds any bytes. *)
Inductive payload :=
| Str (s : string)
| Buf (bytes : string).

(** [data.toString()]: a string is itself, a Buffer is decoded as
    UTF-8. *)
Definition toString (d : payload) : string :=
  match d with Str s => s | Buf b => Utf8.decode b end.

(** [data instanceof Buffer] *)
Definition is_buffer (d : payload) : bool :=
  match d with Buf _ => true | Str _ => false end.

(** [webSocket.readyState] of an accepted WebSocket. *)
Inductive ready := OPEN | CLOSING | CLOSED.

(** What the session does to the outside, in order. *)
Inductive action :=
| NetConnect (s : sock) (h : string) (p : Z)  (* s = net.connect({host, port}) *)
| SockWrite (s : sock) (d : payload)          (* s.write(d) *)
| SockDestroy (s : sock)                      (* s.destroy() *)
| WsSend (d : payload)                        (* webSocket.send(d), sent *)
| WsDiscard (d : payload)                     (* webSocket.send(d), not open *)
| WsClose                                     (* webSocket.close(1000, ..) *)
| ResolveCall (rid : nat) (hostname : string) (* resolveDoH(hostname) *).

(** The variables of a suspended [connectToRemote] call: the loop index,
    the parsed address and the first frame. *)
Record frame := {
  fr_i : nat;
  fr_host : string;
  fr_port : option Z;
  fr_first : string }.

Inductive phase := Connecting | Connected | Destroyed.

(** A socket: its phase ([destroyed] is the last one), whether the peer
    has ended the stream, the call that awaits its 'connect' or 'error'
    (the two [once] listeners of the promise), and how many times
    [pumpRemoteToWebSocket] has registered its listeners on it. *)
Record socket := {
  sk_phase : phase;
  sk_ended : bool;
  sk_waiter : option frame;
  sk_pumps : nat }.

Record state := {
  remoteSocket : option sock;
  isClosed : bool;
  readyState : ready;
  sockets : list socket;
  resolving : list (option (frame * string)); (* the awaited resolveDoH calls *)
  log : list action }.

Definition init : state :=
  {| remoteSocket := None; isClosed := false; readyState := OPEN;
     sockets := []; resolving := []; log := [] |}.

Definition set_remoteSocket (r : option sock) (st : state) : state :=
  {| remoteSocket := r; isClosed := isClosed st; readyState := readyState st;
     sockets := sockets st; resolving := resolving st; log := log st |}.

Definition set_isClosed (b : bool) (st : state) : state :=
  {| remoteSocket := remoteSocket st; isClosed := b; readyState := readyState st;
     sockets := sockets st; resolving := resolving st; log := log st |}.

Definition set_readyState (r : ready) (st : state) : state :=
  {| remoteSocket := remoteSocket st; isClosed := isClosed st; readyState := r;
     sockets := sockets st; resolving := resolving st; log := log st |}.

Definition set_sockets (l : list socket) (st : state) : state :=
  {| remoteSocket := remoteSocket st; isClosed := isClosed st;
     readyState := readyState st;
     sockets := l; resolving := resolving st; log := log st |}.

Definition set_resolving (l : list (option (frame * string))) (st : state) : state :=
  {| remoteSocket := remoteSocket st; isClosed := isClosed st;
     readyState := readyState st;
     sockets := sockets st; resolving := l; log := log st |}.

Definition emit (a : action) (st : state) : state :=
  {| remoteSocket := remoteSocket st; isClosed := isClosed st;
     readyState := readyState st;
     sockets := sockets st; resolving := resolving st; log := log st ++ [a] |}.

Definition set_phase (p : phase) (k : socket) : socket :=
  {| sk_phase := p; sk_ended := sk_ended k; sk_waiter := sk_waiter k;
     sk_pumps := sk_pumps k |}.

Definition set_ended (k : socket) : socket :=
  {| sk_phase := sk_phase k; sk_ended := true; sk_waiter := sk_waiter k;
     sk_pumps := sk_pumps k |}.

Definition set_waiter (w : option frame) (k : socket) : socket :=
  {| sk_phase := sk_phase k; sk_ended := sk_ended k; sk_waiter := w;
     sk_pumps := sk_pumps k |}.

Definition add_pump (k : socket) : socket :=
  {| sk_phase := sk_phase k; sk_ended := sk_ended k; sk_waiter := sk_waiter k;
     sk_pumps := S (sk_pumps k) |}.

(** [s.destroyed] *)
Definition destroyed (s : sock) (st : state) : bool :=
  match sockets st !! s with
  | Some k => match sk_phase k with Destroyed => true | _ => false end
  | None => false
  end.

(** *** Code that may throw

    A piece of the session's code runs on the state and either returns a
    value or throws. *)
Definition code (A : Type) : Type := state -> settled A * state.

#[global] Instance code_ret : MRet code := fun A a st => (Fulfilled a, st).
#[global] Instance code_bind : MBind code :=
  fun A B f m st =>
    match m st with
    | (Fulfilled a, st') => f a st'
    | (Rejected e, st') => (Rejected e, st')
    end.

Definition get {A} (f : state -> A) : code A := fun st => (Fulfilled (f st), st).
Definition modify (f : state -> state) : code unit := fun st => (Fulfilled tt, f st).
Definition throw {A} (e : jserror) : code A := fun st => (Rejected e, st).

(** [try { m } catch (err) { h err }] *)
Definition try_catch {A} (m : code A) (h : jserror -> code A) : code A :=
  fun st =>
    match m st with
    | (Rejected e, st') => h e st'
    | r => r
    end.

(** [try { m } catch {}] *)
Definition swallow (m : code unit) : code unit := try_catch m (fun _ => mret tt).

(** The state a handler leaves; handlers catch what they throw. *)
Definition exec {A} (m : code A) (st : state) : state := (m st).2.

Section Handlers.

Context (cfg : config).

Definition not_open (r : ready) : jserror :=
  match r with
  | CLOSED => Error "WebSocket is not open: readyState 3 (CLOSED)"
  | _ => Error "WebSocket is not open: readyState 2 (CLOSING)"
  end.

(** [webSocket.send(d)] *)
Definition ws_send (d : payload) : code unit :=
  r ← get readyState;
  match r with
  | OPEN => modify (emit (WsSend d))
  | _ => if send_throws cfg then throw (not_open r)
         else modify (emit (WsDiscard d))
  end.

(** [s.write(d)] *)
Definition sock_write (s : sock) (d : payload) : code unit :=
  modify (emit (SockWrite s d)).

(** [s.destroy()] *)
Definition sock_destroy (s : sock) : code unit :=
  modify (emit (SockDestroy s));;
  modify (fun st => set_sockets (alter (set_phase Destroyed) s (sockets st)) st).

Definition null_has_no (member : string) : jserror :=
  Error ("Cannot read properties of null (reading '" +:+ member +:+ "')").

(** [remoteSocket.write(d)] *)
Definition remote_write (d : payload) : code unit :=
  r ← get remoteSocket;
  match r with
  | Some s => sock_write s d
  | None => throw (null_has_no "write")
  end.

(** [safeCloseWebSocket(webSocket)] *)
Definition safeCloseWebSocket : code unit :=
  swallow (
    r ← get readyState;
    match r with
    | OPEN | CLOSING =>
        modify (emit WsClose);; modify (set_readyState CLOSING)
    | CLOSED => mret tt
    end).

(** [if (remoteSocket) { try { remoteSocket.destroy(); } catch {}
    remoteSocket = null; }], in [cleanup] and in the catch block of
    [connectToRemote]. *)
Definition release_remote : code unit :=
  r ← get remoteSocket;
  match r with
  | Some s => swallow (sock_destroy s);; modify (set_remoteSocket None)
  | None => mret tt
  end.

Definition cleanup : code unit :=
  closed ← get isClosed;
  if (closed : bool) then mret tt else
  modify (set_isClosed true);;
  release_remote;;
  safeCloseWebSocket.

(** *** [pumpRemoteToWebSocket]: the three listeners *)

Definition on_data (data : payload) : code unit :=
  closed ← get isClosed;
  r ← get readyState;
  match closed, r with
  | false, OPEN => try_catch (ws_send data) (fun _ => cleanup)
  | _, _ => mret tt
  end.

Definition on_end : code unit :=
  closed ← get isClosed;
  if (closed : bool) then mret tt else
  swallow (ws_send (Str "CLOSE"));;
  cleanup.

Definition on_error : code unit := cleanup.

(** [pumpRemoteToWebSocket(socket)]: one more set of listeners on
    [socket]; [socket.on] throws when [socket] is null. *)
Definition pumpRemoteToWebSocket (socket : option sock) : code unit :=
  match socket with
  | Some s =>
      modify (fun st => set_sockets (alter add_pump s (sockets st)) st)
  | None => throw (null_has_no "on")
  end.

(** *** [connectToRemote] *)

(** [connectToRemote] runs until it returns, throws, or awaits. *)
Inductive wait := Done | Pending.

(** [[null, ...CF_FALLBACK_IPS]] *)
Definition attempts : list (option string) :=
  None :: (Some <$> CF_FALLBACK_IPS cfg).

(** [attempts[i] || host] *)
Definition targetHost (fr : frame) : string :=
  match attempts !! fr_i fr with
  | Some (Some a) => if JS.truthy a then a else fr_host fr
  | _ => fr_host fr
  end.

Definition next_frame (fr : frame) : frame :=
  {| fr_i := S (fr_i fr); fr_host := fr_host fr; fr_port := fr_port fr;
     fr_first := fr_first fr |}.

Definition valid_port (p : Z) : bool := (0 <=? p)%Z && (p <=? 65535)%Z.

(** The runtime throws on a port that is NaN or out of range (the
    message ends with the value it received). *)
Definition bad_port : jserror := Error "Port should be >= 0 and < 65536.".

(** [net.connect({ host, port, timeout })]: a new socket that is
    connecting. *)
Definition net_connect (h : string) (p : option Z) : code sock :=
  match p with
  | Some n =>
      if valid_port n then
        s ← get (fun st => length (sockets st));
        modify (fun st => set_sockets (sockets st ++
          [{| sk_phase := Connecting; sk_ended := false;
              sk_waiter := None; sk_pumps := 0 |}]) st);;
        modify (emit (NetConnect s h n));;
        mret s
      else throw bad_port
  | None => throw bad_port
  end.

(** [await new Promise(..)]: the two [once] listeners go on the socket
    [remoteSocket] holds, and the call is suspended. *)
Definition await_connect (fr : frame) : code wait :=
  r ← get remoteSocket;
  match r with
  | Some s =>
      modify (fun st =>
        set_sockets (alter (set_waiter (Some fr)) s (sockets st)) st);;
      mret Pending
  | None => throw (null_has_no "once")
  end.

(** [await resolveDoH(targetHost)]: the call is suspended. *)
Definition await_resolveDoH (fr : frame) (hostname : string) : code wait :=
  rid ← get (fun st => length (resolving st));
  modify (fun st => set_resolving (resolving st ++ [Some (fr, hostname)]) st);;
  modify (emit (ResolveCall rid hostname));;
  mret Pending.

(** The try block from [net.connect] to its await. *)
Definition dial (fr : frame) (resolvedHost : string) : code wait :=
  s ← net_connect resolvedHost (fr_port fr);
  modify (set_remoteSocket (Some s));;
  await_connect fr.

(** The try block from its start to its first await. *)
Definition attempt (fr : frame) : code wait :=
  let targetHost := targetHost fr in
  if with_doh cfg && (isIP cfg targetHost =? 0)%nat
  then await_resolveDoH fr targetHost
  else dial fr targetHost.

(** The try block after the socket has connected. *)
Definition connected (fr : frame) : code wait :=
  (if JS.truthy (fr_first fr)
   then remote_write (Str (fr_first fr)) else mret tt);;
  ws_send (Str "CONNECTED");;
  r ← get remoteSocket;
  pumpRemoteToWebSocket r;;
  mret Done.

(** The catch block; [next] is the loop from the next index on. *)
Definition catch_block (next : frame -> code wait) (fr : frame)
    (err : jserror) : code wait :=
  release_remote;;
  if negb (isCFError err) || (fr_i fr =? length attempts - 1)%nat
  then throw err
  else next (next_frame fr).

(** The for loop, with [n] iterations left. *)
Fixpoint loop (n : nat) (fr : frame) : code wait :=
  match n with
  | O => mret Done
  | S n' => try_catch (attempt fr) (catch_block (loop n') fr)
  end.

(** The iterations left after the one of [fr]. *)
Definition rest (fr : frame) : frame -> code wait :=
  loop (length attempts - S (fr_i fr)).

Definition connectToRemote (targetAddr firstFrameData : string) : code wait :=
  let a := parseAddress targetAddr in
  loop (length attempts)
    {| fr_i := 0; fr_host := host a; fr_port := port a;
       fr_first := firstFrameData |}.

(** How a suspended call goes on: the name has been resolved or not,
    the socket has connected, or it has failed. *)
Definition resume_resolved (fr : frame) (hostname : string)
    (r : settled string) : code wait :=
  let resolvedHost :=
    match r with Fulfilled ip_ => ip_ | Rejected _ => hostname end in
  try_catch (dial fr resolvedHost) (catch_block (rest fr) fr).

Definition resume_connected (fr : frame) : code wait :=
  try_catch (connected fr) (catch_block (rest fr) fr).

Definition resume_failed (fr : frame) (err : jserror) : code wait :=
  catch_block (rest fr) fr err.

(** *** The 'message' listener *)

(** ['ERROR:' + err.message] *)
Definition error_notice (err : jserror) : string :=
  "ERROR:" +:+ default "undefined" (message err).

(** The try/catch of the listener around what runs inside it, now or
    after an await. *)
Definition guarded (m : code wait) : code unit :=
  try_catch (_ ← m; mret tt)
    (fun err => swallow (ws_send (Str (error_notice err)));; cleanup).

(** [if (remoteSocket && !remoteSocket.destroyed) remoteSocket.write(d)] *)
Definition forward (d : payload) : code unit :=
  r ← get remoteSocket;
  match r with
  | Some s =>
      gone ← get (destroyed s);
      if (gone : bool) then mret tt else sock_write s d
  | None => mret tt
  end.

Definition onMessage (data : payload) : code unit :=
  closed ← get isClosed;
  if (closed : bool) then mret tt else
  guarded (
    let message := toString data in
    if JS.startsWith message "CONNECT:" then
      let sep := JS.indexOf message "|" 8 in
      connectToRemote (JS.substring message 8 sep)
                      (JS.substring_from message (sep + 1))
    else if JS.startsWith message "DATA:" then
      forward (Str (JS.substring_from message 5));; mret Done
    else if String.eqb message "CLOSE" then
      cleanup;; mret Done
    else if is_buffer data then
      forward data;; mret Done
    else mret Done).

(** *** The event loop *)

Inductive event :=
| WsMessage (data : payload)      (* 'message' *)
| WsPeerClosing                   (* the client's close frame: no listener *)
| WsError                         (* 'error' *)
| WsClosed                        (* 'close' *)
| Resolved (rid : nat) (r : settled string) (* resolveDoH settles *)
| SockConnect (s : sock)          (* 'connect' *)
| SockError (s : sock) (err : jserror) (* 'error' *)
| SockData (s : sock) (chunk : string) (* 'data' *)
| SockEnd (s : sock).             (* 'end' *)

Definition update_socket (s : sock) (f : socket -> socket) (st : state) : state :=
  set_sockets (alter f s (sockets st)) st.

(** Every set of pump listeners runs. *)
Definition pumps (n : nat) (h : code unit) (st : state) : state :=
  Nat.iter n (exec h) st.

(** One turn of the event loop: the listeners of the event, then the
    call the event wakes up.  [None]: the runtime does not raise this
    event in this state (a destroyed socket raises nothing, a socket
    connects once, a closed WebSocket is silent). *)
Definition step (ev : event) (st : state) : option state :=
  match ev with
  | WsMessage data =>
      match readyState st with
      | CLOSED => None
      | _ => Some (exec (onMessage data) st)
      end
  | WsPeerClosing =>
      match readyState st with
      | OPEN => Some (set_readyState CLOSING st)
      | _ => None
      end
  | WsError =>
      match readyState st with
      | CLOSED => None
      | _ => Some (exec cleanup (set_readyState CLOSING st))
      end
  | WsClosed =>
      match readyState st with
      | CLOSED => None
      | _ => Some (exec cleanup (set_readyState CLOSED st))
      end
  | Resolved rid r =>
      match resolving st !! rid with
      | Some (Some (fr, hostname)) =>
          Some (exec (guarded (resume_resolved fr hostname r))
                  (set_resolving (<[rid := None]> (resolving st)) st))
      | _ => None
      end
  | SockConnect s =>
      match sockets st !! s with
      | Some k =>
          match sk_phase k with
          | Connecting =>
              let st1 := update_socket s
                (fun k => set_waiter None (set_phase Connected k)) st in
              match sk_waiter k with
              | Some fr => Some (exec (guarded (resume_connected fr)) st1)
              | None => Some st1
              end
          | _ => None
          end
      | None => None
      end
  | SockError s err =>
      match sockets st !! s with
      | Some k =>
          match sk_phase k with
          | Destroyed => None
          | _ =>
              let st1 := update_socket s
                (fun k => set_waiter None (set_phase Destroyed k)) st in
              let st2 := pumps (sk_pumps k) on_error st1 in
              match sk_waiter k with
              | Some fr => Some (exec (guarded (resume_failed fr err)) st2)
              | None => Some st2
              end
          end
      | None => None
      end
  | SockData s chunk =>
      match sockets st !! s with
      | Some k =>
          match sk_phase k, sk_ended k with
          | Connected, false =>
              Some (pumps (sk_pumps k) (on_data (Buf chunk)) st)
          | _, _ => None
          end
      | None => None
      end
  | SockEnd s =>
      match sockets st !! s with
      | Some k =>
          match sk_phase k, sk_ended k with
          | Connected, false =>
              Some (pumps (sk_pumps k) on_end (update_socket s set_ended st))
          | _, _ => None
          end
      | None => None
      end
  end.

Fixpoint run (evs : list event) (st : state) : option state :=
  match evs with
  | [] => Some st
  | ev :: evs' =>
      match step ev st with
      | Some st' => run evs' st'
      | None => None
      end
  end.

(** *** A dial seen from outside *)

(** The connections opened, in order: host and port of each
    [net.connect]. *)
Definition dials (l : list action) : list (string * Z) :=
  flat_map (fun a => match a with NetConnect _ h p => [(h, p)] | _ => [] end) l.

(** The sockets destroyed by the session, in order. *)
Definition destroys (l : list action) : list sock :=
  flat_map (fun a => match a with SockDestroy s => [s] | _ => [] end) l.

(** What the session has sent to the client, in order. *)
Definition sends (l : list action) : list payload :=
  flat_map (fun a => match a with WsSend d => [d] | _ => [] end) l.

(** Whether the candidate is resolved before it is dialled. *)
Definition resolves (c : string) : bool :=
  with_doh cfg && (isIP cfg c =? 0)%nat.

(** The host given to [net.connect] for the candidate [c] when its
    resolution settles with [r]. *)
Definition dialled (c : string) (r : settled string) : string :=
  if resolves c then
    match r with Fulfilled ip_ => ip_ | Rejected _ => c end
  else c.

(** How one attempt ends: the resolution of the candidate settles with
    the first component (when the candidate is resolved at all), then
    the socket fails with an error or connects. *)
Definition outcome : Type := settled string * option jserror.

Definition ending (s : sock) (o : option jserror) : event :=
  match o with Some e => SockError s e | None => SockConnect s end.

Definition attempt_events (c : string) (rid : nat) (s : sock)
    (o : outcome) : list event :=
  if resolves c then [Resolved rid o.1; ending s o.2] else [ending s o.2].

(** The events of a dial that runs alone and goes from one attempt to
    the next: the attempt of [fr] awaits the resolution [rid] and the
    socket [s]. *)
Fixpoint script (fr : frame) (rid : nat) (s : sock) (outs : list outcome)
  : list event :=
  match outs with
  | [] => []
  | o :: outs' =>
      attempt_events (targetHost fr) rid s o ++
      script (next_frame fr)
        (if resolves (targetHost fr) then S rid else rid) (S s) outs'
  end.

(** *** States a dial goes through *)

(** [net.connect] has returned a socket and the call [fr] awaits it. *)
Definition opened (fr : frame) (h : string) (p : Z) (st : state) : state :=
  {| remoteSocket := Some (length (sockets st));
     isClosed := isClosed st; readyState := readyState st;
     sockets := sockets st ++
       [{| sk_phase := Connecting; sk_ended := false;
           sk_waiter := Some fr; sk_pumps := 0 |}];
     resolving := resolving st;
     log := log st ++ [NetConnect (length (sockets st)) h p] |}.

(** The call [fr] awaits the resolution of [c]. *)
Definition asked (fr : frame) (c : string) (st : state) : state :=
  {| remoteSocket := remoteSocket st;
     isClosed := isClosed st; readyState := readyState st;
     sockets := sockets st;
     resolving := resolving st ++ [Some (fr, c)];
     log := log st ++ [ResolveCall (length (resolving st)) c] |}.

(** The resolution of [c] has settled. *)
Definition answered (c : string) (st : state) : state :=
  {| remoteSocket := remoteSocket st;
     isClosed := isClosed st; readyState := readyState st;
     sockets := sockets st;
     resolving := resolving st ++ [None];
     log := log st ++ [ResolveCall (length (resolving st)) c] |}.

(** The attempt on a new socket has failed and the socket has been
    destroyed and dropped. *)
Definition dropped (h : string) (p : Z) (st : state) : state :=
  {| remoteSocket := None;
     isClosed := isClosed st; readyState := readyState st;
     sockets := sockets st ++
       [{| sk_phase := Destroyed; sk_ended := false;
           sk_waiter := None; sk_pumps := 0 |}];
     resolving := resolving st;
     log := log st ++ [NetConnect (length (sockets st)) h p;
                       SockDestroy (length (sockets st))] |}.

(** The socket of the attempt has connected: the first frame is
    written when there is one, the client is told, the pump is on. *)
Definition streaming (fr : frame) (h : string) (p : Z) (st : state) : state :=
  {| remoteSocket := Some (length (sockets st));
     isClosed := isClosed st; readyState := readyState st;
     sockets := sockets st ++
       [{| sk_phase := Connected; sk_ended := false;
           sk_waiter := None; sk_pumps := 1 |}];
     resolving := resolving st;
     log := log st ++ [NetConnect (length (sockets st)) h p] ++
            (if JS.truthy (fr_first fr)
             then [SockWrite (length (sockets st)) (Str (fr_first fr))]
             else []) ++
            [WsSend (Str "CONNECTED")] |}.

(** The dial has thrown [err] after the attempt on a new socket: the
    client is told and the session is closed. *)
Definition failed (err : jserror) (h : string) (p : Z) (st : state) : state :=
  {| remoteSocket := None;
     isClosed := true; readyState := CLOSING;
     sockets := sockets st ++
       [{| sk_phase := Destroyed; sk_ended := false;
           sk_waiter := None; sk_pumps := 0 |}];
     resolving := resolving st;
     log := log st ++ [NetConnect (length (sockets st)) h p;
                       SockDestroy (length (sockets st));
                       WsSend (Str (error_notice err)); WsClose] |}.

(** The state in which the attempt of [fr] dials, and the state after
    it has failed and the loop goes on. *)
Definition before_dial (fr : frame) (st : state) : state :=
  if resolves (targetHost fr) then answered (targetHost fr) st else st.

Fixpoint after_failures (p : Z) (fr : frame) (outs : list outcome)
    (st : state) : state :=
  match outs with
  | [] => st
  | o :: outs' =>
      after_failures p (next_frame fr) outs'
        (dropped (dialled (targetHost fr) o.1) p (before_dial fr st))
  end.

(** The connections a dial opens when its attempts settle their
    resolutions with [rs], from the candidate of [fr] on. *)
Fixpoint plan (p : Z) (fr : frame) (rs : list (settled string))
  : list (string * Z) :=
  match rs with
  | [] => []
  | r :: rs' =>
      (dialled (targetHost fr) r, p) :: plan p (next_frame fr) rs'
  end.

(** The hosts a dial for the host [h] tries, in order: [h], then the
    fallback hosts, with [h] again in the place of a fallback host that is
    the empty string ([attempts[i] || host]). *)
Definition candidates (h : string) : list string :=
  h :: ((fun f => if JS.truthy f then f else h) <$> CF_FALLBACK_IPS cfg).

(** What the 'message' listener passes on to the socket: the text
    after DATA:, or the Buffer of a frame that is none of the three
    commands. *)
Definition forwarded (data : payload) : option payload :=
  let message := toString data in
  if JS.startsWith message "CONNECT:" then None
  else if JS.startsWith message "DATA:"
       then Some (Str (JS.substring_from message 5))
  else if String.eqb message "CLOSE" then None
  else if is_buffer data then Some data
  else None.

(** A socket that has been destroyed and awaits nothing. *)
Definition dead : socket :=
  {| sk_phase := Destroyed; sk_ended := false; sk_waiter := None;
     sk_pumps := 0 |}.

(** The frame a call of [connectToRemote] starts with. *)
Definition first_frame (a : address) (firstFrameData : string) : frame :=
  {| fr_i := 0; fr_host := host a; fr_port := port a;
     fr_first := firstFrameData |}.

(** No call is suspended. *)
Definition calm (st : state) : Prop :=
  Forall (fun k => sk_waiter k = None) (sockets st) /\
  Forall (fun r => r = None) (resolving st).

(** The frame [n] iterations later. *)
Definition frame_at (n : nat) (fr : frame) : frame :=
  {| fr_i := n + fr_i fr; fr_host := fr_host fr; fr_port := fr_port fr;
     fr_first := fr_first fr |}.

(** The bookkeeping of sockets is sound: the session has destroyed no
    socket twice, it has destroyed only sockets it has opened, and the
    socket it holds is one it has opened and not destroyed. *)
Definition tidy (st : state) : Prop :=
  NoDup (destroys (log st)) /\
  Forall (fun s => s < length (sockets st))%nat (destroys (log st)) /\
  (forall s, remoteSocket st = Some s ->
             (s < length (sockets st))%nat /\ s ∉ destroys (log st)).

(** The code [m] keeps the property [I] of the state, whether it returns
    or throws. *)
Definition keeps (I : state -> Prop) {A} (m : code A) : Prop :=
  forall st, I st -> I (m st).2.

(** Nothing can wake the session up: it is closed and no call is
    suspended. *)
Definition quiescent (st : state) : Prop :=
  isClosed st = true /\
  Forall (fun k => sk_waiter k = None) (sockets st) /\
  Forall (fun r => r = None) (resolving st).

End Handlers.

(** Running a piece of code on a state given field by field. *)
Ltac code :=
  unfold mbind, mret, code_bind, code_ret, get, modify, throw, try_catch,
    swallow, exec; cbn.

Ltac setters :=
  unfold update_socket, set_remoteSocket, set_isClosed, set_readyState,
    set_sockets, set_resolving, emit, set_phase, set_waiter, set_ended,
    add_pump, opened, asked, answered, dropped, streaming, failed; cbn.

End Session.

Import Session.

(** ** Scenarios

    Two configurations with the fallback hosts f1.example and f2.example,
    one for each variant of the file, and the states and event sequences
    the examples below run. *)
Module Scenario.

Local Open Scope nat_scope.

(** The first variant: no resolver. *)
Definition plain : config :=
  {| CF_FALLBACK_IPS := ["f1.example"; "f2.example"]; with_doh := false;
     isIP := Net.isIP_v4; send_throws := false |}.

(** The second variant: names are resolved before they are dialled. *)
Definition resolving_names : config :=
  {| CF_FALLBACK_IPS := ["f1.example"; "f2.example"]; with_doh := true;
     isIP := Net.isIP_v4; send_throws := false |}.

(** The second variant with a ws release whose [send] throws on a
    WebSocket that is not open. *)
Definition strict : config :=
  {| CF_FALLBACK_IPS := ["f1.example"; "f2.example"]; with_doh := true;
     isIP := Net.isIP_v4; send_throws := true |}.

(** The first variant with PRIP set to f1.example followed by a comma:
    the last fallback host is the empty string. *)
Definition trailing_comma : config :=
  {| CF_FALLBACK_IPS := ["f1.example"; ""]; with_doh := false;
     isIP := Net.isIP_v4; send_throws := false |}.

(** The state of a session after the events [evs] ([init] when the
    runtime cannot raise them). *)
Definition after (cfg : config) (evs : list event) : state :=
  default init (run cfg evs init).

Definition connect_frame : payload := Str "CONNECT:h.example:80|hello".

Definition refused : jserror := Error "connect ECONNREFUSED 192.0.2.1:80".
Definition timed_out : jserror := Error "connect ETIMEDOUT 192.0.2.2:80".
Definition not_found : jserror := Error "getaddrinfo ENOTFOUND h.example".

(** A session of the first variant that streams on the socket 0. *)
Definition streaming_session : state :=
  after plain [WsMessage connect_frame; SockConnect 0].

(** A session of the second variant whose dial awaits the resolution of
    h.example. *)
Definition resolving_session : state :=
  after resolving_names [WsMessage connect_frame].

(** The client leaves while the name is resolved; the name resolves and
    the socket connects. *)
Definition late_connect : list event :=
  [WsMessage connect_frame; WsClosed;
   Resolved 0 (Fulfilled "93.184.216.34"); SockConnect 0].

(** Two Connect-requests, the second one before the first socket has
    connected; the client sends CLOSE; the first socket is refused and the
    fallback host connects. *)
Definition overlapping : list event :=
  [WsMessage connect_frame; WsMessage (Str "CONNECT:g.example:81|world");
   WsMessage (Str "CLOSE"); SockError 0 refused; SockConnect 2].

(** Two Connect-requests one after the other; the second host is
    refused, then the first one. *)
Definition crossing : list event :=
  [WsMessage connect_frame; WsMessage (Str "CONNECT:g.example:81|world");
   SockError 1 refused; SockError 0 refused].

(** A second Connect-request while the session streams. *)
Definition second_connect : list event :=
  [WsMessage connect_frame; SockConnect 0;
   WsMessage (Str "CONNECT:g.example:81|world"); SockConnect 1].

(** Data sent while the name is resolved. *)
Definition early_data : list event :=
  [WsMessage connect_frame; WsMessage (Str "DATA:abc");
   Resolved 0 (Fulfilled "93.184.216.34"); SockConnect 0].

(** Data sent while the first socket connects; the socket is refused and
    the fallback host connects. *)
Definition early_data_plain : list event :=
  [WsMessage connect_frame; WsMessage (Str "DATA:abc");
   SockError 0 refused; SockConnect 1].

(** What is observed of a state. *)
Definition observe (st : state)
  : list phase * option sock * bool * list action :=
  (sk_phase <$> sockets st, remoteSocket st, isClosed st, log st).

End Scenario.

(** ** The server around the sessions

    What the file sets up before any client connects: the settings read
    from the environment, the HTTP listener and the token check of the
    WebSocket server. *)
Module Server.

(** [process.env]: a variable holds a string or is not set. *)
Definition env : Type := string -> option string.

(** [process.env.NAME || fallback] *)
Definition or_default (v : option string) (fallback : string) : string :=
  match v with
  | Some s => if JS.truthy s then s else fallback
  | None => fallback
  end.

(** The token each file falls back on; [doh] is true for the second
    variant. *)
Definition default_token (doh : bool) : string :=
  if doh then "ech123456" else "23cd62df-4bc6-4623-82a3-a90e8e9cd244".

Definition TOKEN (doh : bool) (e : env) : string :=
  or_default (e "TOKEN") (default_token doh).

(** [s.split(sep)] for a separator of one character. *)
Definition split (s : string) (sep : ascii) : list string :=
  Net.split_on sep "" s.

(** [l.join(sep)] *)
Fixpoint join (sep : string) (l : list string) : string :=
  match l with
  | [] => ""
  | [a] => a
  | a :: rest => a +:+ sep +:+ join sep rest
  end.

(** [process.env.PRIP ? process.env.PRIP.split(',') : [..]] *)
Definition CF_FALLBACK_IPS (e : env) : list string :=
  match e "PRIP" with
  | Some s => if JS.truthy s then split s "," else ["ProxyIP.JP.CMLiussss.net"]
  | None => ["ProxyIP.JP.CMLiussss.net"]
  end.

(** [verifyClient]: [protocol] is the request's sec-websocket-protocol
    header, undefined ([None]) when the request has none. *)
Definition verifyClient (TOKEN : string) (protocol : option string) : bool :=
  if JS.truthy TOKEN && negb (bool_decide (protocol = Some TOKEN))
  then false else true.

(** *** JSON.stringify, for the values the file prints *)

#[local] Unset Elimination Schemes.
Inductive json :=
| JNumber (n : nat)
| JString (s : string)
| JArray (items : list json)
| JObject (fields : list (string * json)).
#[local] Set Elimination Schemes.

(** The decimal digits of [n], in front of [acc]. *)
Fixpoint decimal_go (fuel n : nat) (acc : string) : string :=
  let acc' := String (ascii_of_nat (48 + n mod 10)) acc in
  match fuel with
  | O => acc'
  | S fuel' => if (n / 10 =? 0)%nat then acc' else decimal_go fuel' (n / 10) acc'
  end.

Definition decimal (n : nat) : string := decimal_go n n "".

Definition hex_digit (n : nat) : ascii :=
  ascii_of_nat (if (n <? 10)%nat then 48 + n else 87 + n).

(** A character inside a JSON string: the quote, the backslash and the
    control characters are escaped. *)
Definition escape (c : ascii) : string :=
  let n := nat_of_ascii c in
  if (n =? 34)%nat then String "\" (String c "")
  else if (n =? 92)%nat then String "\" (String c "")
  else if (n =? 8)%nat then "\b"
  else if (n =? 9)%nat then "\t"
  else if (n =? 10)%nat then "\n"
  else if (n =? 12)%nat then "\f"
  else if (n =? 13)%nat then "\r"
  else if (n <? 32)%nat
       then "\u00" +:+ String (hex_digit (n / 16)) (String (hex_digit (n mod 16)) "")
  else String c "".

Fixpoint escape_all (s : string) : string :=
  match s with
  | EmptyString => ""
  | String c s' => escape c +:+ escape_all s'
  end.

Definition quote (s : string) : string :=
  String "034" (escape_all s +:+ String "034" "").

Fixpoint stringify (j : json) : string :=
  match j with
  | JNumber n => decimal n
  | JString s => quote s
  | JArray items => "[" +:+ join "," (map stringify items) +:+ "]"
  | JObject fields =>
      "{" +:+ join "," (map (fun kv => quote kv.1 +:+ ":" +:+ stringify kv.2) fields)
      +:+ "}"
  end.

(** *** The HTTP listener *)

(** What the listener answers: [res.writeHead(statusCode, headers)] and
    [res.end(body)]. *)
Record response := {
  statusCode : Z;
  headers : list (string * string);
  body : string }.

(** The value the second variant prints at /stats. *)
Definition stats (cache : gmap string Resolver.entry) : json :=
  JObject [ ("cacheSize", JNumber (size cache));
            ("dohServers", JArray (JString <$> Resolver.DOH_SERVERS)) ].

(** The request listener of [http.createServer], on [req.url]; [cache]
    is [dnsCache]. *)
Definition requestListener (doh : bool) (cache : gmap string Resolver.entry)
    (url : string) : response :=
  if String.eqb url "/" then
    {| statusCode := 200;
       headers := [("Content-Type", "text/plain")];
       body := if doh then "Hello-world" else "WebSocket Proxy Server" |}
  else if doh && String.eqb url "/stats" then
    {| statusCode := 200;
       headers := [("Content-Type", "application/json")];
       body := stringify (stats cache) |}
  else
    {| statusCode := 404; headers := []; body := "Not Found" |}.

End Server.

(** ** What is observed of a session *)
Module Trace.

(** How many times the session has called [webSocket.close]. *)
Definition closes (l : list action) : nat :=
  length (flat_map (fun a => match a with WsClose => [tt] | _ => [] end) l).

(** The state after the actions [l], in this order, and no other
    change. *)
Definition emit_all (l : list action) (st : state) : state :=
  {| remoteSocket := remoteSocket st; isClosed := isClosed st;
     readyState := readyState st; sockets := sockets st;
     resolving := resolving st; log := log st ++ l |}.

(** The frames the session's code passes to [webSocket.send]: the three
    notices, as text, and the chunks read from a socket, as Buffers. *)
Definition notice (d : payload) : Prop :=
  d = Str "CONNECTED" \/ d = Str "CLOSE" \/
  (exists err, d = Str (error_notice err)) \/
  (exists chunk, d = Buf chunk).

(** No socket is written to after the session has destroyed it. *)
Definition writes_before_destroy (l : list action) : Prop :=
  forall l1 l2 s d, l = l1 ++ SockWrite s d :: l2 -> s ∉ destroys l1.

(** [webSocket.close] has been called at most once, and not at all
    while the session is open. *)
Definition closed_once (st : state) : Prop :=
  (closes (log st) <= 1)%nat /\
  (isClosed st = false -> closes (log st) = 0%nat).

(** The WebSocket of a closed session is closing or closed. *)
Definition shut (st : state) : Prop :=
  isClosed st = true -> readyState st <> OPEN.

(** A closed session that has sent the frames [l] to the client. *)
Definition silent (l : list payload) (st : state) : Prop :=
  isClosed st = true /\ readyState st <> OPEN /\ sends (log st) = l.

(** The bookkeeping of sockets is sound and no destroyed socket has been
    written to. *)
Definition careful (st : state) : Prop :=
  tidy st /\ writes_before_destroy (log st).

(** *** The connections a session may still open

    [n] is the number of attempts of a dial.  A suspended call of
    [connectToRemote] whose attempt [i] awaits the resolver may still
    open [n - i] connections; one that awaits the socket of its attempt
    [i] has opened that one and may open [n - i - 1] more.  A socket that
    is destroyed wakes no call. *)
Definition owed_resolving (n : nat) (r : option (frame * string)) : nat :=
  match r with Some (fr, _) => n - fr_i fr | None => 0 end.

Definition owed_socket (n : nat) (k : socket) : nat :=
  match sk_phase k, sk_waiter k with
  | Destroyed, _ => 0
  | _, Some fr => n - S (fr_i fr)
  | _, None => 0
  end.

Definition owed (n : nat) (st : state) : nat :=
  sum_list_with (owed_resolving n) (resolving st)
  + sum_list_with (owed_socket n) (sockets st).

(** Every suspended call is inside its loop. *)
Definition in_loop (n : nat) (st : state) : Prop :=
  Forall (fun r => match r with
                   | Some (fr, _) => (fr_i fr < n)%nat
                   | None => True
                   end) (resolving st) /\
  Forall (fun k => match sk_waiter k with
                   | Some fr => (fr_i fr < n)%nat
                   | None => True
                   end) (sockets st).

(** The connections opened so far and those that may still be opened
    are [b] at most. *)
Definition within (n b : nat) (st : state) : Prop :=
  in_loop n st /\ (length (dials (log st)) + owed n st <= b)%nat.

(** The sockets that are not destroyed, and the resolutions that are
    awaited. *)
Definition alive (k : socket) : nat :=
  match sk_phase k with Destroyed => 0 | _ => 1 end.

Definition awaited (r : option (frame * string)) : nat :=
  match r with Some _ => 1 | None => 0 end.

Definition live (st : state) : nat := sum_list_with alive (sockets st).

Definition waiting (st : state) : nat := sum_list_with awaited (resolving st).

(** The live sockets and the awaited resolutions are [b] at most. *)
Definition holds (b : nat) (st : state) : Prop :=
  (live st + waiting st <= b)%nat.

(** For a bound [W b] on the state: the code [m] raises the bound by [c]
    at most when it returns and by [e] at most when it throws. *)
Definition costs (W : nat -> state -> Prop) (c e : nat) {A} (m : code A)
  : Prop :=
  forall b st,
    W b st ->
    match m st with
    | (Fulfilled _, st') => W (b + c)%nat st'
    | (Rejected _, st') => W (b + e)%nat st'
    end.

(** Whether an event is a Connect-request, and how many of the events
    are. *)
Definition is_connect (ev : event) : bool :=
  match ev with
  | WsMessage d => JS.startsWith (toString d) "CONNECT:"
  | _ => false
  end.

Definition connects (evs : list event) : nat :=
  sum_list_with (fun ev => if is_connect ev then 1%nat else 0%nat) evs.

(** The lookups of a resolution that gets no answer, in the order in
    which they are sent. *)
Definition chain (hostname : string) : list Resolver.lookup :=
  ((fun srv => Resolver.HttpsGet (Resolver.doh_url srv hostname))
     <$> Resolver.DOH_SERVERS) ++ [Resolver.SystemQuery hostname].

(** What a lookup sent at the time [t] brings back that [resolveDoH]
    returns: the truthy address a DoH server answers with, or the first
    address the system resolver gives; [None] when the lookup fails or
    brings nothing of the kind. *)
Definition reply (world : Resolver.network) (l : Resolver.lookup) (t : Z)
  : option string :=
  match l with
  | Resolver.HttpsGet url =>
      match Resolver.settle (Resolver.https_get world url t).1 with
      | Fulfilled ip_ => if JS.truthy ip_ then Some ip_ else None
      | Rejected _ => None
      end
  | Resolver.SystemQuery hostname =>
      match (Resolver.resolve4 world hostname t).1 with
      | Fulfilled (ip_ :: _) => Some ip_
      | _ => None
      end
  end.

(** The time a lookup sent at the time [t] takes. *)
Definition duration (world : Resolver.network) (l : Resolver.lookup) (t : Z)
  : Z :=
  match l with
  | Resolver.HttpsGet url => (Resolver.https_get world url t).2
  | Resolver.SystemQuery hostname => (Resolver.resolve4 world hostname t).2
  end.

(** The time at which the lookup [i] of [ls] is sent, when the lookups
    are sent one after the other from the time [t] on, each one when the
    one before it has ended. *)
Fixpoint sent_at (world : Resolver.network) (ls : list Resolver.lookup)
    (t : Z) (i : nat) : Z :=
  match i, ls with
  | S i', l :: ls' => sent_at world ls' (t + duration world l t) i'
  | _, _ => t
  end.


End Trace.

(** ** Properties of the string primitives *)
Module JSFacts.
Import JS.

Lemma app_nil (b : string) : "" +:+ b = b.
Proof. reflexivity. Qed.

Lemma app_cons (x : ascii) (a b : string) :
  String x a +:+ b = String x (a +:+ b).
Proof. reflexivity. Qed.

Lemma length_app (a b : string) :
  String.length (a +:+ b) = (String.length a + String.length b)%nat.
Proof.
  induction a as [|c a IH]; [reflexivity|].
  rewrite app_cons. simpl. now rewrite IH.
Qed.

Lemma app_assoc (a b c : string) : (a +:+ b) +:+ c = a +:+ (b +:+ c).
Proof.
  induction a as [|x a IH]; [reflexivity|].
  rewrite !app_cons. now rewrite IH.
Qed.

Lemma drop_app (a b : string) : drop (String.length a) (a +:+ b) = b.
Proof.
  induction a as [|c a IH]; [now destruct b|].
  rewrite app_cons. simpl. exact IH.
Qed.

Lemma take_app (a b : string) : take (String.length a) (a +:+ b) = a.
Proof.
  induction a as [|c a IH]; [now destruct b|].
  rewrite app_cons. simpl. now rewrite IH.
Qed.

Lemma take_all (n : nat) (s : string) :
  (String.length s <= n)%nat -> take n s = s.
Proof.
  revert n; induction s as [|c s IH]; intros [|n] H; simpl in *;
    try reflexivity; try lia.
  rewrite IH by lia. reflexivity.
Qed.

Lemma clamp_nat (len k : nat) : clamp len (Z.of_nat k) = Nat.min k len.
Proof. unfold clamp. lia. Qed.

Lemma clamp_neg (len : nat) (z : Z) : (z <= 0)%Z -> clamp len z = O.
Proof. unfold clamp. lia. Qed.

(** The substring between two indices in range and in order. *)
Lemma substring_nat (s : string) (a b : nat) :
  (a <= b)%nat -> (b <= String.length s)%nat ->
  substring s (Z.of_nat a) (Z.of_nat b) = take (b - a) (drop a s).
Proof.
  intros Hab Hb. unfold substring. rewrite !clamp_nat.
  replace (Nat.min a (String.length s)) with a by lia.
  replace (Nat.min b (String.length s)) with b by lia.
  replace (Nat.max a b) with b by lia.
  replace (Nat.min a b) with a by lia. reflexivity.
Qed.

Lemma first_index_none_last (c : ascii) (s : string) :
  first_index c s = None -> last_index c s = None.
Proof.
  induction s as [|a s IH]; simpl; [reflexivity|].
  destruct (Ascii.eqb a c); [discriminate|].
  destruct (first_index c s); [discriminate|].
  intros _. now rewrite IH.
Qed.

Lemma occurs_false (c : ascii) (s : string) :
  occurs c s = false -> first_index c s = None.
Proof. unfold occurs. now destruct (first_index c s). Qed.

(** The first [c] of [h c rest] is right after [h] when [h] has none. *)
Lemma first_index_app (c : ascii) (h rest : string) :
  occurs c h = false ->
  first_index c (h +:+ String c rest) = Some (String.length h).
Proof.
  intros H. apply occurs_false in H. induction h as [|a h IH].
  - rewrite app_nil. simpl. now rewrite Ascii.eqb_refl.
  - rewrite app_cons. simpl in *.
    destruct (Ascii.eqb a c); [discriminate|].
    destruct (first_index c h); [discriminate|].
    now rewrite IH.
Qed.

(** The last [c] of [h c p] is right after [h] when [p] has none. *)
Lemma last_index_app (c : ascii) (h p : string) :
  occurs c p = false ->
  last_index c (h +:+ String c p) = Some (String.length h).
Proof.
  intros H. apply occurs_false, first_index_none_last in H.
  induction h as [|a h IH].
  - rewrite app_nil. simpl. now rewrite H, Ascii.eqb_refl.
  - rewrite app_cons. simpl. now rewrite IH.
Qed.

End JSFacts.

(** ** Properties of the decoder *)
Module Utf8Facts.
Import Utf8.

Local Open Scope nat_scope.

Lemma decode_from_idle (c : ascii) (s : string) :
  decode_from None (String c s)
  = match lead c with
    | Single => String c (decode_from None s)
    | Lead q => decode_from (Some q) s
    | Invalid => replacement +:+ decode_from None s
    end.
Proof. reflexivity. Qed.

Lemma decode_from_open (q : partial) (c : ascii) (s : string) :
  between (lower q) (upper q) (nat_of_ascii c) = true ->
  decode_from (Some q) (String c s)
  = match needed q with
    | S (S k) =>
        decode_from
          (Some {| seen := seen q +:+ String c ""; needed := S k;
                   lower := 128; upper := 191 |}) s
    | _ => seen q +:+ String c (decode_from None s)
    end.
Proof. intros H. cbn [decode_from]. now rewrite H. Qed.

(** The text DATA: of a Buffer that starts with these five bytes. *)
Lemma decode_data (bytes : string) :
  decode ("DATA:" +:+ bytes) = "DATA:" +:+ decode bytes.
Proof. reflexivity. Qed.

Lemma well_formed_length (n : nat) :
  forall s, String.length s <= n -> well_formed s = true -> decode s = s.
Proof.
  unfold decode.
  induction n as [|n IH]; intros s Hlen Hwf.
  - destruct s; [reflexivity | cbn in Hlen; lia].
  - destruct s as [|a s1]; [reflexivity|].
    cbn [String.length] in Hlen.
    rewrite decode_from_idle. cbn [well_formed] in Hwf. cbv zeta in Hwf.
    unfold lead. cbv zeta.
    destruct (nat_of_ascii a <? 128) eqn:H1.
    { f_equal. apply IH; [lia | exact Hwf]. }
    destruct s1 as [|b s2]; [discriminate|]. cbn [String.length] in Hlen.
    destruct (between 194 223 (nat_of_ascii a)) eqn:H2.
    { apply andb_true_iff in Hwf as [Hb Hwf].
      rewrite decode_from_open by exact Hb. cbn [needed seen].
      change (String a "" +:+ String b (decode_from None s2))
        with (String a (String b (decode_from None s2))).
      do 2 f_equal. apply IH; [lia | exact Hwf]. }
    destruct s2 as [|c s3]; [discriminate|]. cbn [String.length] in Hlen.
    destruct (between 224 239 (nat_of_ascii a)) eqn:H3.
    { apply andb_true_iff in Hwf as [Hwf Hs3].
      apply andb_true_iff in Hwf as [Hb Hc].
      rewrite decode_from_open by exact Hb. cbn [needed seen].
      rewrite decode_from_open by exact Hc. cbn [needed seen].
      change ((String a "" +:+ String b "") +:+ String c (decode_from None s3))
        with (String a (String b (String c (decode_from None s3)))).
      do 3 f_equal. apply IH; [lia | exact Hs3]. }
    destruct s3 as [|d s4]; [discriminate|]. cbn [String.length] in Hlen.
    apply andb_true_iff in Hwf as [Hwf Hs4].
    apply andb_true_iff in Hwf as [Hwf Hd].
    apply andb_true_iff in Hwf as [Hwf Hc].
    apply andb_true_iff in Hwf as [H4 Hb].
    rewrite H4.
    rewrite decode_from_open by exact Hb. cbn [needed seen].
    rewrite decode_from_open by exact Hc. cbn [needed seen].
    rewrite decode_from_open by exact Hd. cbn [needed seen].
    change (((String a "" +:+ String b "") +:+ String c "")
              +:+ String d (decode_from None s4))
      with (String a (String b (String c (String d (decode_from None s4))))).
    do 4 f_equal. apply IH; [lia | exact Hs4].
Qed.

(** Decoding leaves well-formed UTF-8 as it is. *)
Lemma decode_well_formed (s : string) : well_formed s = true -> decode s = s.
Proof. apply (well_formed_length (String.length s)). lia. Qed.

(** Bytes that are not well formed: FF and FE start nothing; E2 82 is
    cut short by A; ED A0 80 would be a surrogate and C0 80 an overlong
    form; F0 9F 92 is cut short by the end.  E2 82 AC is the euro sign. *)
Example decode_ill_formed :
  decode (String "255" (String "254" "")) = replacement +:+ replacement /\
  decode (String "226" (String "130" "A")) = replacement +:+ "A" /\
  decode (String "226" (String "130" (String "172" ""))) = String "226" (String "130" (String "172" "")) /\
  decode (String "237" (String "160" (String "128" ""))) = replacement +:+ replacement +:+ replacement /\
  decode (String "192" (String "128" "")) = replacement +:+ replacement /\
  decode (String "240" (String "159" (String "146" ""))) = replacement /\
  well_formed (String "255" (String "254" "")) = false.
Proof. repeat split; vm_compute; reflexivity. Qed.

End Utf8Facts.

(** ** Address parsing *)

(** C10: [parseAddress] maps "example.com:443" to example.com and 443 and
    "[::1]:8443" to ::1 and 8443.  In general an address [[h]:p] (no closing
    bracket inside [h]) gives the host [h] and the port parsed from [p], and
    an address [h:p] that does not begin with a bracket (no colon inside [p],
    so that the colon is the last one) gives the host [h] and the port
    parsed from [p]. *)
Theorem parseAddress_spec :
  parseAddress "example.com:443" = {| host := "example.com"; port := Some 443%Z |} /\
  parseAddress "[::1]:8443" = {| host := "::1"; port := Some 8443%Z |} /\
  (forall h p : string,
      JS.occurs "]" h = false ->
      parseAddress ("[" +:+ h +:+ "]:" +:+ p)
      = {| host := h; port := JS.parseInt10 p |}) /\
  (forall h p : string,
      JS.head_is h "[" = false ->
      JS.occurs ":" p = false ->
      parseAddress (h +:+ ":" +:+ p)
      = {| host := h; port := JS.parseInt10 p |}).
Proof.
  split; [reflexivity|]. split; [reflexivity|]. split.
  - intros h p Hh. unfold parseAddress.
    change ("[" +:+ h +:+ "]:" +:+ p)
      with (String "[" (h +:+ String "]" (String ":" p))).
    set (tl := h +:+ String "]" (String ":" p)).
    assert (Hlen : String.length tl = (String.length h + 2 + String.length p)%nat).
    { unfold tl. rewrite JSFacts.length_app. simpl. lia. }
    assert (Hend : JS.indexOf (String "[" tl) "]" 0 = Z.of_nat (S (String.length h))).
    { unfold JS.indexOf. rewrite JSFacts.clamp_neg by lia. simpl.
      unfold tl. rewrite JSFacts.first_index_app by assumption. reflexivity. }
    simpl JS.head_is. cbv iota. rewrite Hend. f_equal.
    + change 1%Z with (Z.of_nat 1).
      rewrite JSFacts.substring_nat by (simpl; lia).
      simpl. replace (String.length h - 0)%nat with (String.length h) by lia.
      unfold tl. apply JSFacts.take_app.
    + f_equal. unfold JS.substring_from.
      replace (Z.of_nat (S (String.length h)) + 2)%Z
        with (Z.of_nat (S (String.length h + 2))) by lia.
      rewrite JSFacts.substring_nat by (simpl; lia).
      simpl JS.drop. unfold tl.
      change (h +:+ String "]" (String ":" p)) with (h +:+ ("]:" +:+ p)).
      rewrite <- JSFacts.app_assoc.
      replace (String.length h + 2)%nat with (String.length (h +:+ "]:")).
      2:{ rewrite JSFacts.length_app. reflexivity. }
      rewrite JSFacts.drop_app. apply JSFacts.take_all.
      simpl. rewrite !JSFacts.length_app. simpl. lia.
  - intros h p Hh Hp. unfold parseAddress.
    change (h +:+ ":" +:+ p) with (h +:+ String ":" p).
    assert (Hhead : JS.head_is (h +:+ String ":" p) "[" = false).
    { destruct h; [reflexivity | exact Hh]. }
    rewrite Hhead.
    assert (Hsep : JS.lastIndexOf (h +:+ String ":" p) ":" = Z.of_nat (String.length h)).
    { unfold JS.lastIndexOf. now rewrite JSFacts.last_index_app. }
    rewrite Hsep.
    assert (Hlen : String.length (h +:+ String ":" p)
                   = (String.length h + S (String.length p))%nat).
    { rewrite JSFacts.length_app. reflexivity. }
    f_equal.
    + change 0%Z with (Z.of_nat 0).
      rewrite JSFacts.substring_nat by lia.
      simpl JS.drop. replace (String.length h - 0)%nat with (String.length h) by lia.
      apply JSFacts.take_app.
    + f_equal. unfold JS.substring_from.
      replace (Z.of_nat (String.length h) + 1)%Z
        with (Z.of_nat (S (String.length h))) by lia.
      rewrite JSFacts.substring_nat by lia.
      change (h +:+ String ":" p) with (h +:+ (":" +:+ p)).
      rewrite <- JSFacts.app_assoc.
      replace (S (String.length h)) with (String.length (h +:+ ":")).
      2:{ rewrite JSFacts.length_app. simpl. lia. }
      rewrite JSFacts.drop_app. apply JSFacts.take_all.
      rewrite !JSFacts.length_app. simpl. lia.
Qed.

Lemma parseAddress_spec_witness :
  parseAddress ("[" +:+ "2001:db8::1" +:+ "]:" +:+ "8443")
  = {| host := "2001:db8::1"; port := JS.parseInt10 "8443" |} /\
  parseAddress ("proxy.example.org" +:+ ":" +:+ "8080")
  = {| host := "proxy.example.org"; port := JS.parseInt10 "8080" |}.
Proof.
  destruct parseAddress_spec as (_ & _ & Hb & Hc). split.
  - apply Hb. reflexivity.
  - apply Hc; reflexivity.
Defined.

(** ** The name resolver *)
Module ResolverFacts.
Import Resolver.

Section Facts.

Variable isIP : string -> nat.
Variable world : network.

Lemma try_servers_names (servers : list string) (h : string) (st : rstate) :
  isIP h = 0%nat -> names_only isIP st ->
  names_only isIP (try_servers world servers h st).2.
Proof.
  intros Hh. revert st. induction servers as [|srv servers IH]; intros st Hst.
  - exact Hst.
  - cbn [try_servers]. unfold mbind, M_bind, queryDoH. cbv zeta.
    destruct (https_get world (doh_url srv h) (now st)) as [reply d].
    destruct (settle reply) as [v|err].
    + destruct (JS.truthy v).
      * intros k e. cbn. intros Hk.
        destruct (decide (h = k)) as [->|Hne]; [exact Hh|].
        rewrite lookup_insert_ne in Hk by assumption. eapply Hst, Hk.
      * apply IH. exact Hst.
    + apply IH. exact Hst.
Qed.

Lemma system_dns_names (h : string) (st : rstate) :
  isIP h = 0%nat -> names_only isIP st ->
  names_only isIP (system_dns world h st).2.
Proof.
  intros Hh Hst. unfold system_dns, mbind, M_bind, await_resolve4.
  destruct (resolve4 world h (now st)) as [[[|a l]|err] d]; try exact Hst.
  intros k e. cbn. intros Hk.
  destruct (decide (h = k)) as [->|Hne]; [exact Hh|].
  rewrite lookup_insert_ne in Hk by assumption. eapply Hst, Hk.
Qed.

Lemma resolveDoH_names (h : string) (st : rstate) :
  names_only isIP st -> names_only isIP (resolveDoH isIP world h st).2.
Proof.
  intros Hst. unfold resolveDoH, mbind, M_bind, cache_get, date_now.
  destruct (hit (dnsCache st !! h) (now st)); [exact Hst|].
  destruct (isIP h) as [|n] eqn:Hh; [|exact Hst].
  cbn [Nat.eqb negb]. unfold lookup_chain, mbind, M_bind.
  pose proof (try_servers_names DOH_SERVERS h st Hh Hst) as H1.
  destruct (try_servers world DOH_SERVERS h st) as [[v|] st1]; [exact H1|].
  apply system_dns_names; assumption.
Qed.

(** The lookups go by the clock and the world, not by the cache. *)
Lemma try_servers_io (servers : list string) (h : string) (st st' : rstate) :
  same_io st st' ->
  (try_servers world servers h st).1 = (try_servers world servers h st').1 /\
  same_io (try_servers world servers h st).2 (try_servers world servers h st').2.
Proof.
  revert st st'. induction servers as [|srv servers IH]; intros st st' [Hn Hl].
  - split; [reflexivity | now split].
  - cbn [try_servers]. unfold mbind, M_bind, queryDoH. cbv zeta.
    rewrite Hn, Hl.
    destruct (https_get world (doh_url srv h) (now st')) as [reply d].
    destruct (settle reply) as [v|err].
    + destruct (JS.truthy v).
      * cbn. split; [reflexivity | now split].
      * apply IH. now split.
    + apply IH. now split.
Qed.

Lemma system_dns_io (h : string) (st st' : rstate) :
  same_io st st' ->
  (system_dns world h st).1 = (system_dns world h st').1 /\
  same_io (system_dns world h st).2 (system_dns world h st').2.
Proof.
  intros [Hn Hl]. unfold system_dns, mbind, M_bind, await_resolve4.
  rewrite Hn, Hl.
  destruct (resolve4 world h (now st')) as [[[|a l]|err] d];
    cbn; (split; [reflexivity | now split]).
Qed.

Lemma lookup_chain_io (h : string) (st st' : rstate) :
  same_io st st' ->
  (lookup_chain world h st).1 = (lookup_chain world h st').1 /\
  same_io (lookup_chain world h st).2 (lookup_chain world h st').2.
Proof.
  intros H. unfold lookup_chain, mbind, M_bind.
  destruct (try_servers_io DOH_SERVERS h st st' H) as [H1 H2].
  destruct (try_servers world DOH_SERVERS h st) as [r1 st1],
           (try_servers world DOH_SERVERS h st') as [r2 st2].
  cbn in H1, H2. subst r2. destruct r1 as [v|].
  - cbn. split; [reflexivity | exact H2].
  - apply system_dns_io, H2.
Qed.

Lemma try_servers_appends (servers : list string) (h : string) (st : rstate) :
  exists more, lookups (try_servers world servers h st).2 = lookups st ++ more.
Proof.
  revert st. induction servers as [|srv servers IH]; intros st.
  - exists []. cbn. now rewrite app_nil_r.
  - cbn [try_servers]. unfold mbind, M_bind, queryDoH. cbv zeta.
    destruct (https_get world (doh_url srv h) (now st)) as [reply d].
    destruct (settle reply) as [v|err].
    + destruct (JS.truthy v).
      * eexists. cbn. reflexivity.
      * destruct (IH {| dnsCache := dnsCache st; now := (now st + d)%Z;
                        lookups := lookups st ++ [HttpsGet (doh_url srv h)] |})
          as [m Hm].
        exists (HttpsGet (doh_url srv h) :: m). rewrite Hm. cbn.
        now rewrite <- app_assoc.
    + destruct (IH {| dnsCache := dnsCache st; now := (now st + d)%Z;
                      lookups := lookups st ++ [HttpsGet (doh_url srv h)] |})
        as [m Hm].
      exists (HttpsGet (doh_url srv h) :: m). rewrite Hm. cbn.
      now rewrite <- app_assoc.
Qed.

Lemma system_dns_appends (h : string) (st : rstate) :
  exists more, lookups (system_dns world h st).2 = lookups st ++ more.
Proof.
  unfold system_dns, mbind, M_bind, await_resolve4.
  destruct (resolve4 world h (now st)) as [[[|a l]|err] d];
    eexists; cbn; reflexivity.
Qed.

Lemma try_servers_first (srv : string) (servers : list string) (h : string)
    (st : rstate) :
  exists more,
    lookups (try_servers world (srv :: servers) h st).2
    = lookups st ++ HttpsGet (doh_url srv h) :: more.
Proof.
  cbn [try_servers]. unfold mbind, M_bind, queryDoH. cbv zeta.
  destruct (https_get world (doh_url srv h) (now st)) as [reply d].
  destruct (settle reply) as [v|err].
  - destruct (JS.truthy v).
    + exists []. reflexivity.
    + match goal with |- context [try_servers world servers h ?s] =>
        destruct (try_servers_appends servers h s) as [m Hm] end.
      exists m. rewrite Hm. cbn. now rewrite <- app_assoc.
  - match goal with |- context [try_servers world servers h ?s] =>
      destruct (try_servers_appends servers h s) as [m Hm] end.
    exists m. rewrite Hm. cbn. now rewrite <- app_assoc.
Qed.

(** After a miss the first lookup sent is a query to the first DoH
    server. *)
Lemma lookup_chain_first (h : string) (st : rstate) :
  exists more,
    lookups (lookup_chain world h st).2
    = lookups st ++ HttpsGet (doh_url "https://dns.google/dns-query" h) :: more.
Proof.
  unfold lookup_chain, mbind, M_bind, DOH_SERVERS.
  match goal with |- context [try_servers world (?a :: ?l) h st] =>
    destruct (try_servers_first a l h st) as [m Hm];
    destruct (try_servers world (a :: l) h st) as [[w|] st2] end.
  - exists m. exact Hm.
  - destruct (system_dns_appends h st2) as [m2 Hm2].
    exists (m ++ m2). rewrite Hm2. cbn in Hm. rewrite Hm.
    now rewrite <- app_assoc.
Qed.

(** C5: a name cached at time T is answered from the cache, with no
    lookup sent and no change of state, when the resolver is called at
    T + TTL - eps; at T + TTL + eps the entry is bypassed: the call
    sends a fresh lookup, first to the first DoH server, and its result
    and its lookups are those of a call with no entry for the name. *)
Theorem cache_ttl (st : rstate) (hostname : string) (e : entry) (eps : Z) :
  isIP hostname = 0%nat ->
  dnsCache st !! hostname = Some e ->
  (0 < eps)%Z ->
  (now st = (timestamp e + DNS_CACHE_TTL - eps)%Z ->
   resolveDoH isIP world hostname st = (Fulfilled (ip e), st)) /\
  (now st = (timestamp e + DNS_CACHE_TTL + eps)%Z ->
   (exists more,
       lookups (resolveDoH isIP world hostname st).2
       = lookups st ++ HttpsGet (doh_url "https://dns.google/dns-query" hostname) :: more) /\
   (resolveDoH isIP world hostname st).1
   = (resolveDoH isIP world hostname (forget hostname st)).1 /\
   lookups (resolveDoH isIP world hostname st).2
   = lookups (resolveDoH isIP world hostname (forget hostname st)).2).
Proof.
  intros Hname He Heps. split; intros Hnow.
  - unfold resolveDoH, mbind, M_bind, cache_get, date_now.
    rewrite He. cbn [hit].
    replace (now st - timestamp e <? DNS_CACHE_TTL)%Z with true; [reflexivity|].
    symmetry. apply Z.ltb_lt. lia.
  - assert (Hst : resolveDoH isIP world hostname st
                  = lookup_chain world hostname st).
    { unfold resolveDoH, mbind, M_bind, cache_get, date_now.
      rewrite He. cbn [hit].
      replace (now st - timestamp e <? DNS_CACHE_TTL)%Z with false.
      2:{ symmetry. apply Z.ltb_ge. lia. }
      now rewrite Hname. }
    assert (Hfg : resolveDoH isIP world hostname (forget hostname st)
                  = lookup_chain world hostname (forget hostname st)).
    { unfold resolveDoH, mbind, M_bind, cache_get, date_now.
      cbn [forget dnsCache]. rewrite lookup_delete_eq. cbn [hit].
      now rewrite Hname. }
    rewrite Hst, Hfg.
    destruct (lookup_chain_io hostname st (forget hostname st)) as [H1 [_ H2]];
      [now split|].
    split; [apply lookup_chain_first|]. split; assumption.
Qed.

End Facts.

Lemma reachable_names (isIP : string -> nat) (st : rstate) :
  reachable isIP st -> names_only isIP st.
Proof.
  induction 1 as [t|st t _ IH|st world h _ IH].
  - intros h e. cbn. rewrite lookup_empty. discriminate.
  - exact IH.
  - apply resolveDoH_names. exact IH.
Qed.

(** C9: in every reachable state of the cache, [resolveDoH] returns a
    literal IP address unchanged, sends no lookup (DoH or system) and
    leaves the state as it is. *)
Theorem literal_ip_bypass (isIP : string -> nat) (world : network)
    (st : rstate) (hostname : string) :
  reachable isIP st ->
  isIP hostname <> 0%nat ->
  resolveDoH isIP world hostname st = (Fulfilled hostname, st).
Proof.
  intros Hreach Hip. apply reachable_names in Hreach.
  unfold resolveDoH, mbind, M_bind, cache_get, date_now.
  destruct (dnsCache st !! hostname) as [e|] eqn:He.
  - exfalso. apply Hip. eapply Hreach, He.
  - cbn [hit]. destruct (isIP hostname); [contradiction|]. reflexivity.
Qed.

Lemma literal_ip_bypass_witness :
  let st := (resolveDoH Net.isIP_v4 live_world "example.com"
               {| dnsCache := ∅; now := 1000%Z; lookups := [] |}).2 in
  resolveDoH Net.isIP_v4 dead_world "203.0.113.5" st
  = (Fulfilled "203.0.113.5", st).
Proof.
  intros st. apply literal_ip_bypass.
  - apply reach_resolve, reach_start.
  - vm_compute. discriminate.
Defined.

Lemma cache_ttl_witness :
  let e := {| ip := "93.184.216.34"; timestamp := 1000%Z |} in
  let at_ (t : Z) :=
    {| dnsCache := {[ "example.com" := e ]}; now := t; lookups := [] |} in
  resolveDoH Net.isIP_v4 dead_world "example.com" (at_ 300999%Z)
  = (Fulfilled "93.184.216.34", at_ 300999%Z) /\
  exists more,
    lookups (resolveDoH Net.isIP_v4 dead_world "example.com" (at_ 301001%Z)).2
    = [] ++ HttpsGet "https://dns.google/dns-query?name=example.com&type=A"
            :: more.
Proof.
  intros e at_. split.
  - refine (proj1 (cache_ttl Net.isIP_v4 dead_world (at_ 300999%Z)
                     "example.com" e 1%Z _ _ _) _).
    + vm_compute. reflexivity.
    + apply lookup_singleton_eq.
    + lia.
    + reflexivity.
  - refine (proj1 (proj2 (cache_ttl Net.isIP_v4 dead_world (at_ 301001%Z)
                            "example.com" e 1%Z _ _ _) _)).
    + vm_compute. reflexivity.
    + apply lookup_singleton_eq.
    + lia.
    + reflexivity.
Defined.

End ResolverFacts.

(** ** The session *)
Module SessionFacts.

Local Open Scope nat_scope.

Section Facts.

Context (cfg : config).

Lemma lookup_new {A} (l : list A) (x : A) : (l ++ [x]) !! length l = Some x.
Proof. rewrite lookup_app_r by lia. now rewrite Nat.sub_diag. Qed.

Lemma alter_new {A} (f : A -> A) (l : list A) (x : A) :
  alter f (length l) (l ++ [x]) = l ++ [f x].
Proof.
  induction l as [|a l IH]; [reflexivity|]. cbn. f_equal. exact IH.
Qed.

Lemma insert_new {A} (l : list A) (x y : A) :
  <[length l := y]> (l ++ [x]) = l ++ [y].
Proof.
  induction l as [|a l IH]; [reflexivity|]. cbn. f_equal. exact IH.
Qed.

Lemma attempt_opens (fr : frame) (p : Z) (st : state) :
  resolves cfg (targetHost cfg fr) = false ->
  fr_port fr = Some p -> valid_port p = true ->
  attempt cfg fr st = (Fulfilled Pending, opened fr (targetHost cfg fr) p st).
Proof.
  intros Hr Hp Hv. unfold attempt. fold (resolves cfg (targetHost cfg fr)).
  rewrite Hr. unfold dial, net_connect, await_connect. rewrite Hp, Hv.
  destruct st. code. now rewrite alter_new.
Qed.

Lemma attempt_asks (fr : frame) (st : state) :
  resolves cfg (targetHost cfg fr) = true ->
  attempt cfg fr st = (Fulfilled Pending, asked fr (targetHost cfg fr) st).
Proof.
  intros Hr. unfold attempt. fold (resolves cfg (targetHost cfg fr)).
  rewrite Hr. unfold await_resolveDoH. destruct st. code. reflexivity.
Qed.

(** The loop with an iteration left starts its attempt and awaits. *)
Lemma loop_starts (n : nat) (fr : frame) (p : Z) (st : state) :
  fr_port fr = Some p -> valid_port p = true ->
  exec (guarded cfg (loop cfg (S n) fr)) st
  = if resolves cfg (targetHost cfg fr)
    then asked fr (targetHost cfg fr) st
    else opened fr (targetHost cfg fr) p st.
Proof.
  intros Hp Hv. cbn [loop]. unfold guarded.
  destruct (resolves cfg (targetHost cfg fr)) eqn:Hr.
  - unfold exec, try_catch, mbind, code_bind at 1.
    unfold try_catch. now rewrite attempt_asks.
  - unfold exec, try_catch, mbind, code_bind at 1.
    unfold try_catch. now rewrite (attempt_opens fr p).
Qed.

Lemma dial_opens (fr : frame) (h : string) (p : Z) (st : state) :
  fr_port fr = Some p -> valid_port p = true ->
  dial fr h st = (Fulfilled Pending, opened fr h p st).
Proof.
  intros Hp Hv. unfold dial, net_connect, await_connect. rewrite Hp, Hv.
  destruct st. code. now rewrite alter_new.
Qed.

(** The resolution settles: the call dials the address it got, or the
    name itself. *)
Lemma step_resolved (fr : frame) (c : string) (r : settled string) (p : Z)
    (st : state) :
  fr_port fr = Some p -> valid_port p = true ->
  step cfg (Resolved (length (resolving st)) r) (asked fr c st)
  = Some (opened fr (match r with Fulfilled a => a | Rejected _ => c end) p
            (answered c st)).
Proof.
  intros Hp Hv. unfold step. cbn [asked resolving]. rewrite lookup_new.
  rewrite insert_new. f_equal. unfold guarded, resume_resolved.
  unfold exec, try_catch, mbind, code_bind at 1. unfold try_catch.
  rewrite (dial_opens fr _ p) by assumption. reflexivity.
Qed.

Lemma guarded_seq (m : code unit) (k : code wait) (st st' : state) :
  m st = (Fulfilled tt, st') ->
  exec (guarded cfg (m ;; k)) st = exec (guarded cfg k) st'.
Proof.
  intros H. unfold guarded, exec, try_catch, mbind, code_bind.
  now rewrite H.
Qed.

(** The runtime has marked the failed socket; the catch block destroys
    it and drops it. *)
Lemma release_failed (fr : frame) (h : string) (p : Z) (st : state) :
  release_remote
    (update_socket (length (sockets st))
       (fun k => set_waiter None (set_phase Destroyed k)) (opened fr h p st))
  = (Fulfilled tt, dropped h p st).
Proof.
  destruct st. unfold release_remote, sock_destroy, update_socket. code.
  rewrite !alter_new. setters. now rewrite <- !app_assoc.
Qed.

(** A retryable failure before the last candidate: the socket is
    destroyed and dropped and the loop goes on with the next one. *)
Lemma step_error_next (fr : frame) (h : string) (p : Z) (err : jserror)
    (st : state) :
  isCFError err = true ->
  (fr_i fr =? length (attempts cfg) - 1)%nat = false ->
  step cfg (SockError (length (sockets st)) err) (opened fr h p st)
  = Some (exec (guarded cfg (rest cfg fr (next_frame fr))) (dropped h p st)).
Proof.
  intros Hcf Hlast. unfold step.
  replace (sockets (opened fr h p st) !! length (sockets st))
    with (Some {| sk_phase := Connecting; sk_ended := false;
                  sk_waiter := Some fr; sk_pumps := 0 |})
    by (symmetry; apply lookup_new).
  cbn [sk_phase sk_waiter sk_pumps pumps Nat.iter]. f_equal.
  unfold resume_failed, catch_block.
  rewrite (guarded_seq _ _ _ _ (release_failed fr h p st)).
  now rewrite Hcf, Hlast.
Qed.

(** A failure that is not retryable, or the failure of the last
    candidate: the dial throws it, the client is told, the session is
    closed. *)
Lemma step_error_throw (fr : frame) (h : string) (p : Z) (err : jserror)
    (st : state) :
  negb (isCFError err) || (fr_i fr =? length (attempts cfg) - 1)%nat = true ->
  isClosed st = false -> readyState st = OPEN ->
  step cfg (SockError (length (sockets st)) err) (opened fr h p st)
  = Some (failed err h p st).
Proof.
  intros Hthrow Hopen Hready. unfold step.
  replace (sockets (opened fr h p st) !! length (sockets st))
    with (Some {| sk_phase := Connecting; sk_ended := false;
                  sk_waiter := Some fr; sk_pumps := 0 |})
    by (symmetry; apply lookup_new).
  cbn [sk_phase sk_waiter sk_pumps pumps Nat.iter]. f_equal.
  unfold resume_failed, catch_block.
  rewrite (guarded_seq _ _ _ _ (release_failed fr h p st)).
  rewrite Hthrow.
  destruct st. cbn in Hopen, Hready. subst.
  unfold guarded, cleanup, safeCloseWebSocket, ws_send, release_remote. code.
  setters. now rewrite <- !app_assoc.
Qed.

(** The socket connects. *)
Lemma step_connect (fr : frame) (h : string) (p : Z) (st : state) :
  readyState st = OPEN ->
  step cfg (SockConnect (length (sockets st))) (opened fr h p st)
  = Some (streaming fr h p st).
Proof.
  intros Hready. unfold step.
  replace (sockets (opened fr h p st) !! length (sockets st))
    with (Some {| sk_phase := Connecting; sk_ended := false;
                  sk_waiter := Some fr; sk_pumps := 0 |})
    by (symmetry; apply lookup_new).
  cbn [sk_phase sk_waiter]. f_equal.
  unfold guarded, resume_connected, connected, remote_write, sock_write,
    ws_send, pumpRemoteToWebSocket, update_socket.
  destruct st. cbn in Hready. subst. unfold streaming.
  destruct (JS.truthy (fr_first fr)); code; setters;
    rewrite !alter_new; setters; rewrite <- ?app_assoc; reflexivity.
Qed.

(** *** A dial that runs alone *)

Lemma run_step (ev : event) (evs : list event) (st : state) :
  run cfg (ev :: evs) st
  = match step cfg ev st with Some st' => run cfg evs st' | None => None end.
Proof. reflexivity. Qed.

Lemma sockets_before_dial (fr : frame) (st : state) :
  sockets (before_dial cfg fr st) = sockets st.
Proof. unfold before_dial. now destruct (resolves cfg (targetHost cfg fr)). Qed.

Lemma resolving_before_dial (fr : frame) (st : state) :
  length (resolving (before_dial cfg fr st))
  = if resolves cfg (targetHost cfg fr)
    then S (length (resolving st)) else length (resolving st).
Proof.
  unfold before_dial. destruct (resolves cfg (targetHost cfg fr)); cbn;
    [|reflexivity].
  rewrite length_app. cbn. lia.
Qed.

(** The events of one attempt take the loop to the end of the attempt:
    the socket of the attempt connects or fails. *)
Lemma attempt_reaches (n : nat) (fr : frame) (p : Z) (o : outcome)
    (tail : list event) (st : state) :
  fr_port fr = Some p -> valid_port p = true ->
  run cfg (attempt_events cfg (targetHost cfg fr) (length (resolving st))
             (length (sockets st)) o ++ tail)
    (exec (guarded cfg (loop cfg (S n) fr)) st)
  = match step cfg (ending (length (sockets st)) o.2)
            (opened fr (dialled cfg (targetHost cfg fr) o.1) p
               (before_dial cfg fr st)) with
    | Some st' => run cfg tail st'
    | None => None
    end.
Proof.
  intros Hp Hv. rewrite (loop_starts n fr p) by assumption.
  unfold attempt_events, dialled, before_dial.
  destruct (resolves cfg (targetHost cfg fr)).
  - cbn [app]. rewrite run_step, (step_resolved fr _ _ p) by assumption.
    rewrite run_step. reflexivity.
  - cbn [app]. rewrite run_step. reflexivity.
Qed.

Lemma frame_at_0 (fr : frame) : frame_at 0 fr = fr.
Proof. now destruct fr. Qed.

Lemma frame_at_next (n : nat) (fr : frame) :
  frame_at n (next_frame fr) = frame_at (S n) fr.
Proof. unfold frame_at, next_frame. cbn. f_equal. lia. Qed.

(** Retryable failures, none of them on the last candidate, take the
    loop from one attempt to the next. *)
Lemma run_failures (p : Z) (outs : list outcome) :
  Forall (fun o => exists e, o.2 = Some e /\ isCFError e = true) outs ->
  forall (fr : frame) (tail : list outcome) (st : state),
    fr_port fr = Some p -> valid_port p = true ->
    (length outs + fr_i fr < length (attempts cfg))%nat ->
    run cfg (script cfg fr (length (resolving st)) (length (sockets st))
               (outs ++ tail))
      (exec (guarded cfg (loop cfg (length (attempts cfg) - fr_i fr) fr)) st)
    = let st' := after_failures cfg p fr outs st in
      let fr' := frame_at (length outs) fr in
      run cfg (script cfg fr' (length (resolving st')) (length (sockets st'))
                 tail)
        (exec (guarded cfg (loop cfg (length (attempts cfg) - fr_i fr') fr'))
           st').
Proof.
  induction 1 as [|o outs (e & Ho & He) _ IH]; intros fr tail st Hp Hv Hlen.
  - cbn. now rewrite frame_at_0.
  - cbn [length] in Hlen.
    destruct (length (attempts cfg) - fr_i fr)%nat as [|n] eqn:Hn; [lia|].
    cbn [app script].
    rewrite (attempt_reaches n fr p) by assumption.
    rewrite Ho. cbn [ending].
    rewrite <- (sockets_before_dial fr st) at 1.
    rewrite step_error_next.
    2: exact He.
    2: apply Nat.eqb_neq; lia.
    unfold rest.
    specialize (IH (next_frame fr) tail
                  (dropped (dialled cfg (targetHost cfg fr) o.1) p
                     (before_dial cfg fr st))).
    cbn [next_frame fr_i fr_port dropped resolving sockets] in IH.
    rewrite length_app, sockets_before_dial, resolving_before_dial in IH.
    cbn [length] in IH.
    replace (length (sockets st) + 1)%nat with (S (length (sockets st))) in IH
      by lia.
    rewrite IH by (assumption || lia).
    cbn [after_failures length]. cbv zeta.
    rewrite frame_at_next. reflexivity.
Qed.

Lemma dials_app (l l' : list action) : dials (l ++ l') = dials l ++ dials l'.
Proof. apply flat_map_app. Qed.

Lemma dials_before_dial (fr : frame) (st : state) :
  dials (log (before_dial cfg fr st)) = dials (log st).
Proof.
  unfold before_dial. destruct (resolves cfg (targetHost cfg fr));
    [|reflexivity].
  cbn. rewrite dials_app. cbn. now rewrite app_nil_r.
Qed.

Lemma after_failures_flags (p : Z) (outs : list outcome) :
  forall (fr : frame) (st : state),
    isClosed (after_failures cfg p fr outs st) = isClosed st /\
    readyState (after_failures cfg p fr outs st) = readyState st.
Proof.
  induction outs as [|o outs IH]; intros fr st; [now split|].
  cbn [after_failures].
  destruct (IH (next_frame fr)
              (dropped (dialled cfg (targetHost cfg fr) o.1) p
                 (before_dial cfg fr st))) as [H1 H2].
  rewrite H1, H2. unfold before_dial.
  now destruct (resolves cfg (targetHost cfg fr)).
Qed.

Lemma after_failures_dials (p : Z) (outs : list outcome) :
  forall (fr : frame) (st : state),
    dials (log (after_failures cfg p fr outs st))
    = dials (log st) ++ plan cfg p fr (fst <$> outs).
Proof.
  induction outs as [|o outs IH]; intros fr st.
  - cbn. now rewrite app_nil_r.
  - cbn [after_failures fmap list_fmap plan]. rewrite IH.
    cbn [dropped log]. rewrite dials_app, dials_before_dial. cbn.
    now rewrite <- app_assoc.
Qed.

Lemma after_failures_sockets (p : Z) (outs : list outcome) :
  forall (fr : frame) (st : state),
    sockets (after_failures cfg p fr outs st)
    = sockets st ++ replicate (length outs) dead.
Proof.
  induction outs as [|o outs IH]; intros fr st.
  - cbn. now rewrite app_nil_r.
  - cbn [after_failures]. rewrite IH. cbn [dropped sockets].
    rewrite sockets_before_dial, <- app_assoc. reflexivity.
Qed.

Lemma after_failures_destroys (p : Z) (outs : list outcome) :
  forall (fr : frame) (st : state),
    destroys (log (after_failures cfg p fr outs st))
    = destroys (log st) ++ seq (length (sockets st)) (length outs).
Proof.
  induction outs as [|o outs IH]; intros fr st.
  - cbn. now rewrite app_nil_r.
  - cbn [after_failures]. rewrite IH. cbn [dropped log sockets length seq].
    rewrite sockets_before_dial, length_app. cbn [length].
    replace (length (sockets st) + 1) with (S (length (sockets st))) by lia.
    unfold destroys at 1. rewrite flat_map_app.
    fold (destroys (log (before_dial cfg fr st))).
    replace (destroys (log (before_dial cfg fr st))) with (destroys (log st)).
    2:{ unfold before_dial. destruct (resolves cfg (targetHost cfg fr));
          [|reflexivity].
        cbn. unfold destroys. rewrite flat_map_app. cbn.
        now rewrite app_nil_r. }
    cbn. now rewrite <- app_assoc.
Qed.

Lemma calm_before_dial (fr : frame) (st : state) :
  calm st -> calm (before_dial cfg fr st).
Proof.
  intros [H1 H2]. unfold before_dial.
  destruct (resolves cfg (targetHost cfg fr)); [|now split].
  split; [exact H1|]. cbn. apply Forall_app. split; [exact H2|].
  now constructor.
Qed.

Lemma after_failures_calm (p : Z) (outs : list outcome) :
  forall (fr : frame) (st : state),
    calm st -> calm (after_failures cfg p fr outs st).
Proof.
  induction outs as [|o outs IH]; intros fr st Hst; [exact Hst|].
  cbn [after_failures]. apply IH.
  destruct (calm_before_dial fr st Hst) as [H1 H2].
  split; [|exact H2]. cbn. apply Forall_app. split; [exact H1|].
  now constructor.
Qed.

(** The candidate of the attempt [i] is the host [i] of [candidates]. *)
Lemma targetHost_candidate (fr : frame) (c : string) :
  candidates cfg (fr_host fr) !! fr_i fr = Some c ->
  targetHost cfg fr = c.
Proof.
  unfold targetHost, attempts, candidates.
  destruct (fr_i fr) as [|j].
  - cbn. congruence.
  - intros Hc.
    change ((fr_host fr :: ((fun f => if JS.truthy f then f else fr_host fr)
                              <$> CF_FALLBACK_IPS cfg)) !! S j)
      with (((fun f => if JS.truthy f then f else fr_host fr)
               <$> CF_FALLBACK_IPS cfg) !! j) in Hc.
    change ((None :: (Some <$> CF_FALLBACK_IPS cfg)) !! S j)
      with ((Some <$> CF_FALLBACK_IPS cfg) !! j).
    rewrite list_lookup_fmap in Hc. rewrite list_lookup_fmap.
    destruct (CF_FALLBACK_IPS cfg !! j) as [f|]; cbn in *; [|discriminate].
    destruct (JS.truthy f); congruence.
Qed.

(** With fallback hosts that are not empty, the candidates are the
    requested host and the fallback hosts. *)
Lemma candidates_truthy (h : string) :
  Forall (fun f => JS.truthy f = true) (CF_FALLBACK_IPS cfg) ->
  candidates cfg h = h :: CF_FALLBACK_IPS cfg.
Proof.
  intros Hall. unfold candidates. f_equal.
  induction Hall as [|f fs Hf _ IH]; [reflexivity|].
  cbn. now rewrite Hf, IH.
Qed.

Lemma candidates_length (h : string) :
  length (candidates cfg h) = length (attempts cfg).
Proof. unfold candidates, attempts. cbn. now rewrite !length_fmap. Qed.

Lemma plan_candidates (p : Z) (rs : list (settled string)) :
  forall fr : frame,
    (length rs + fr_i fr <= length (attempts cfg))%nat ->
    plan cfg p fr rs
    = zip_with (fun c r => (dialled cfg c r, p))
        (drop (fr_i fr) (candidates cfg (fr_host fr))) rs.
Proof.
  induction rs as [|r rs IH]; intros fr Hlen.
  - now destruct (drop _ _).
  - cbn [plan length] in *.
    assert (Hlt : (fr_i fr < length (candidates cfg (fr_host fr)))%nat).
    { rewrite candidates_length. lia. }
    destruct (lookup_lt_is_Some_2 _ _ Hlt) as [c Hc].
    rewrite (drop_S _ _ _ Hc). cbn [zip_with].
    rewrite (targetHost_candidate fr c Hc). f_equal.
    rewrite IH by (cbn [next_frame fr_i]; lia). reflexivity.
Qed.

(** *** After the session is closed *)

Lemma cleanup_closed (st : state) :
  isClosed st = true -> cleanup st = (Fulfilled tt, st).
Proof. intros H. unfold cleanup. code. now rewrite H. Qed.

Lemma on_data_closed (d : payload) (st : state) :
  isClosed st = true -> on_data cfg d st = (Fulfilled tt, st).
Proof. intros H. unfold on_data. code. now rewrite H. Qed.

Lemma on_end_closed (st : state) :
  isClosed st = true -> on_end cfg st = (Fulfilled tt, st).
Proof. intros H. unfold on_end. code. now rewrite H. Qed.

Lemma onMessage_closed (d : payload) (st : state) :
  isClosed st = true -> onMessage cfg d st = (Fulfilled tt, st).
Proof. intros H. unfold onMessage. code. now rewrite H. Qed.

Lemma pumps_fixed (n : nat) (h : code unit) (st : state) :
  h st = (Fulfilled tt, st) -> pumps n h st = st.
Proof.
  intros H. unfold pumps. induction n as [|n IH]; [reflexivity|].
  change (Nat.iter (S n) (exec h) st) with (exec h (Nat.iter n (exec h) st)).
  rewrite IH. unfold exec. now rewrite H.
Qed.

Lemma quiescent_update (s : sock) (f : socket -> socket) (st : state) :
  (forall k, sk_waiter k = None -> sk_waiter (f k) = None) ->
  quiescent st -> quiescent (update_socket s f st).
Proof.
  intros Hf (H1 & H2 & H3). repeat split; try assumption.
  cbn. apply Forall_alter; [exact H2|]. intros k _. apply Hf.
Qed.

(** Once the session is closed and no call is suspended, no event makes
    it act again. *)
Lemma quiescent_step (ev : event) (st st' : state) :
  quiescent st -> step cfg ev st = Some st' ->
  quiescent st' /\ log st' = log st /\ remoteSocket st' = remoteSocket st.
Proof.
  intros Hq Hstep. pose proof Hq as (Hc & Hw & Hr).
  destruct ev as [d| | | |rid r|s|s err|s chunk|s]; cbn [step] in Hstep.
  - destruct (readyState st); try discriminate;
      unfold exec in Hstep; rewrite onMessage_closed in Hstep by assumption;
      injection Hstep as <-; auto.
  - destruct (readyState st); try discriminate.
    injection Hstep as <-. repeat split; assumption.
  - destruct (readyState st); try discriminate;
      unfold exec in Hstep; rewrite cleanup_closed in Hstep by assumption;
      injection Hstep as <-; repeat split; assumption.
  - destruct (readyState st); try discriminate;
      unfold exec in Hstep; rewrite cleanup_closed in Hstep by assumption;
      injection Hstep as <-; repeat split; assumption.
  - destruct (resolving st !! rid) as [[[fr h]|]|] eqn:Hrid; try discriminate.
    rewrite Forall_lookup in Hr. specialize (Hr _ _ Hrid). discriminate.
  - destruct (sockets st !! s) as [k|] eqn:Hs; [|discriminate].
    assert (Hk : sk_waiter k = None).
    { rewrite Forall_lookup in Hw. eauto. }
    rewrite Hk in Hstep. destruct (sk_phase k); try discriminate.
    injection Hstep as <-. split; [|split; reflexivity].
    apply quiescent_update; [reflexivity | exact Hq].
  - destruct (sockets st !! s) as [k|] eqn:Hs; [|discriminate].
    assert (Hk : sk_waiter k = None).
    { rewrite Forall_lookup in Hw. eauto. }
    rewrite Hk in Hstep.
    assert (Hq1 : quiescent (update_socket s
                    (fun k => set_waiter None (set_phase Destroyed k)) st)).
    { apply quiescent_update; [reflexivity | exact Hq]. }
    rewrite pumps_fixed in Hstep
      by (apply cleanup_closed; apply Hq1).
    destruct (sk_phase k); try discriminate;
      injection Hstep as <-; (split; [exact Hq1 | split; reflexivity]).
  - destruct (sockets st !! s) as [k|] eqn:Hs; [|discriminate].
    rewrite pumps_fixed in Hstep by (apply on_data_closed; exact Hc).
    destruct (sk_phase k), (sk_ended k); try discriminate.
    injection Hstep as <-. auto.
  - destruct (sockets st !! s) as [k|] eqn:Hs; [|discriminate].
    assert (Hq1 : quiescent (update_socket s set_ended st)).
    { apply quiescent_update; [now intros [] | exact Hq]. }
    rewrite pumps_fixed in Hstep by (apply on_end_closed; apply Hq1).
    destruct (sk_phase k), (sk_ended k); try discriminate.
    injection Hstep as <-. split; [exact Hq1 | split; reflexivity].
Qed.

Lemma quiescent_run (evs : list event) :
  forall st st' : state,
    quiescent st -> run cfg evs st = Some st' ->
    quiescent st' /\ log st' = log st /\ remoteSocket st' = remoteSocket st.
Proof.
  induction evs as [|ev evs IH]; intros st st' Hq Hrun.
  - injection Hrun as <-. auto.
  - rewrite run_step in Hrun.
    destruct (step cfg ev st) as [st1|] eqn:Hstep; [|discriminate].
    destruct (quiescent_step ev st st1 Hq Hstep) as (Hq1 & Hl1 & Hr1).
    destruct (IH st1 st' Hq1 Hrun) as (Hq2 & Hl2 & Hr2).
    split; [exact Hq2|]. split; congruence.
Qed.

Lemma sends_app (l l' : list action) : sends (l ++ l') = sends l ++ sends l'.
Proof. apply flat_map_app. Qed.

Lemma after_failures_sends (p : Z) (outs : list outcome) :
  forall (fr : frame) (st : state),
    sends (log (after_failures cfg p fr outs st)) = sends (log st).
Proof.
  induction outs as [|o outs IH]; intros fr st; [reflexivity|].
  cbn [after_failures]. rewrite IH. cbn [dropped log].
  rewrite sends_app. cbn. rewrite app_nil_r. unfold before_dial.
  destruct (resolves cfg (targetHost cfg fr)); [|reflexivity].
  cbn. rewrite sends_app. cbn. now rewrite app_nil_r.
Qed.

Lemma plan_app (p : Z) (rs rs' : list (settled string)) :
  forall fr : frame,
    plan cfg p fr (rs ++ rs')
    = plan cfg p fr rs ++ plan cfg p (frame_at (length rs) fr) rs'.
Proof.
  induction rs as [|r rs IH]; intros fr.
  - cbn. now rewrite frame_at_0.
  - cbn [app plan length]. rewrite IH, frame_at_next. reflexivity.
Qed.

(** A dial that runs alone, with retryable failures on the first
    candidates, gets to the end of the attempt that follows them. *)
Lemma dial_alone (addr payload : string) (p : Z) (fails : list outcome)
    (last : outcome) (st0 : state) :
  port (parseAddress addr) = Some p -> valid_port p = true ->
  Forall (fun o => exists e, o.2 = Some e /\ isCFError e = true) fails ->
  (length fails <= length (CF_FALLBACK_IPS cfg))%nat ->
  let fr0 := first_frame (parseAddress addr) payload in
  let fr := frame_at (length fails) fr0 in
  let st := after_failures cfg p fr0 fails st0 in
  run cfg (script cfg fr0 (length (resolving st0)) (length (sockets st0))
             (fails ++ [last]))
    (exec (guarded cfg (connectToRemote cfg addr payload)) st0)
  = step cfg (ending (length (sockets st0) + length fails) last.2)
      (opened fr (dialled cfg (targetHost cfg fr) last.1) p
         (before_dial cfg fr st)).
Proof.
  intros Hp Hv Hfails Hlen fr0 fr st.
  assert (Hattempts : length (attempts cfg) = S (length (CF_FALLBACK_IPS cfg))).
  { unfold attempts. cbn. now rewrite length_fmap. }
  unfold connectToRemote. fold (first_frame (parseAddress addr) payload).
  fold fr0.
  replace (length (attempts cfg)) with (length (attempts cfg) - fr_i fr0)%nat
    at 1 by (cbn; lia).
  rewrite (run_failures p fails Hfails fr0 [last] st0 Hp Hv)
    by (cbn [fr0 first_frame fr_i]; lia).
  cbv zeta. fold st. fold fr.
  destruct (length (attempts cfg) - fr_i fr)%nat as [|n] eqn:Hn;
    [cbn [fr frame_at fr0 first_frame fr_i] in Hn; lia|].
  cbn [script].
  rewrite (attempt_reaches n fr p) by assumption.
  assert (Hs : length (sockets st) = length (sockets st0) + length fails).
  { unfold st. rewrite after_failures_sockets, length_app.
    now rewrite length_replicate. }
  rewrite Hs. now destruct (step cfg _ _).
Qed.

Lemma dials_streaming (fr : frame) (h : string) (p : Z) (st : state) :
  dials (log (streaming fr h p st)) = dials (log st) ++ [(h, p)].
Proof.
  cbn [streaming log]. rewrite !dials_app.
  destruct (JS.truthy (fr_first fr)); reflexivity.
Qed.

Lemma dials_failed (err : jserror) (h : string) (p : Z) (st : state) :
  dials (log (failed err h p st)) = dials (log st) ++ [(h, p)].
Proof. cbn [failed log]. now rewrite dials_app. Qed.

(** The connections of a dial that runs alone are those of the plan. *)
Lemma dials_alone (addr payload H : string) (P : Z) (fails : list outcome)
    (last : outcome) (st0 : state) :
  parseAddress addr = {| host := H; port := Some P |} ->
  length fails <= length (CF_FALLBACK_IPS cfg) ->
  let fr0 := first_frame (parseAddress addr) payload in
  let fr := frame_at (length fails) fr0 in
  let st := after_failures cfg P fr0 fails st0 in
  dials (log (before_dial cfg fr st)) ++
    [(dialled cfg (targetHost cfg fr) last.1, P)]
  = dials (log st0) ++
    zip_with (fun c o => (dialled cfg c o.1, P))
      (candidates cfg H) (fails ++ [last]).
Proof.
  intros Hparse Hlen fr0 fr st.
  rewrite dials_before_dial. unfold st. rewrite after_failures_dials.
  rewrite <- app_assoc. f_equal.
  transitivity (plan cfg P fr0 (fst <$> fails ++ [last])).
  - rewrite fmap_app, plan_app, length_fmap. reflexivity.
  - rewrite plan_candidates.
    + unfold fr0. rewrite Hparse. cbn [first_frame fr_i fr_host host drop].
      apply zip_with_fmap_r.
    + unfold attempts. cbn [fr0 first_frame fr_i length].
      rewrite !length_fmap, length_app. cbn. lia.
Qed.

(** A dial that runs alone on a session whose WebSocket is open, with
    retryable failures on the first candidates and a candidate that
    connects. *)
Lemma dial_in_order (addr payload H : string) (P : Z) (fails : list outcome)
    (r : settled string) (st0 : state) :
  parseAddress addr = {| host := H; port := Some P |} ->
  valid_port P = true ->
  readyState st0 = OPEN ->
  Forall (fun o => exists e, o.2 = Some e /\ isCFError e = true) fails ->
  length fails <= length (CF_FALLBACK_IPS cfg) ->
  let n0 := length (sockets st0) in
  exists st,
    run cfg (script cfg (first_frame (parseAddress addr) payload)
               (length (resolving st0)) n0 (fails ++ [(r, None)]))
      (exec (guarded cfg (connectToRemote cfg addr payload)) st0) = Some st /\
    dials (log st)
    = dials (log st0) ++
      zip_with (fun c o => (dialled cfg c o.1, P))
        (candidates cfg H) (fails ++ [(r, None)]) /\
    length (sockets st) = n0 + S (length fails) /\
    remoteSocket st = Some (n0 + length fails) /\
    sockets st !! (n0 + length fails)
    = Some {| sk_phase := Connected; sk_ended := false;
              sk_waiter := None; sk_pumps := 1 |} /\
    (forall c, candidates cfg H !! length fails = Some c ->
               NetConnect (n0 + length fails) (dialled cfg c r) P ∈ log st) /\
    (forall j, j < length fails -> destroyed (n0 + j) st = true) /\
    (forall j k, sockets st0 !! j = Some k -> sockets st !! j = Some k) /\
    destroys (log st)
    = destroys (log st0) ++ seq n0 (length fails) /\
    isClosed st = isClosed st0.
Proof.
  intros Hparse Hv Hready Hfails Hlen n0.
  assert (Hp : port (parseAddress addr) = Some P) by now rewrite Hparse.
  pose proof (dial_alone addr payload P fails (r, None) st0 Hp Hv Hfails Hlen)
    as Hrun.
  pose proof (dials_alone addr payload H P fails (r, None) st0 Hparse Hlen)
    as Hdials.
  cbv zeta in Hrun, Hdials.
  set (fr0 := first_frame (parseAddress addr) payload) in *.
  set (fr := frame_at (length fails) fr0) in *.
  set (stk := after_failures cfg P fr0 fails st0) in *.
  assert (Hsk : sockets stk = sockets st0 ++ replicate (length fails) dead).
  { unfold stk. now rewrite after_failures_sockets. }
  assert (Hs : length (sockets (before_dial cfg fr stk)) = n0 + length fails).
  { rewrite sockets_before_dial, Hsk, length_app. unfold n0.
    now rewrite length_replicate. }
  destruct (after_failures_flags P fails fr0 st0) as [Hclosed Hready'].
  fold stk in Hclosed, Hready'.
  cbn [ending snd fst] in Hrun, Hdials. fold n0 in Hrun. rewrite <- Hs in Hrun at 1.
  rewrite step_connect in Hrun.
  2:{ unfold before_dial. destruct (resolves cfg (targetHost cfg fr)); cbn;
        congruence. }
  eexists. split; [exact Hrun|].
  split; [now rewrite dials_streaming|].
  cbn [streaming remoteSocket sockets isClosed log].
  rewrite Hs, sockets_before_dial, Hsk.
  split; [rewrite !length_app, length_replicate; cbn; unfold n0; lia|].
  split; [reflexivity|].
  split.
  { apply list_lookup_middle. rewrite length_app, length_replicate.
    reflexivity. }
  split.
  { intros c Hc.
    assert (Hth : targetHost cfg fr = c).
    { apply targetHost_candidate.
      unfold fr, fr0. rewrite Hparse.
      cbn [frame_at first_frame fr_host fr_i host].
      now rewrite Nat.add_0_r. }
    rewrite Hth. apply elem_of_app. right. apply elem_of_app. left.
    apply list_elem_of_singleton. reflexivity. }
  split.
  { intros j Hj. unfold destroyed. cbn [streaming sockets].
    rewrite sockets_before_dial, Hsk.
    rewrite lookup_app_l by (rewrite length_app, length_replicate; unfold n0; lia).
    rewrite lookup_app_r by (unfold n0; lia).
    replace (n0 + j - length (sockets st0)) with j by (unfold n0; lia).
    rewrite lookup_replicate_2 by lia. reflexivity. }
  split.
  { intros j k Hj. rewrite <- app_assoc. apply lookup_app_l_Some. exact Hj. }
  split.
  { unfold destroys. rewrite !flat_map_app.
    fold (destroys (log (before_dial cfg fr stk))).
    replace (destroys (log (before_dial cfg fr stk))) with (destroys (log stk)).
    2:{ unfold before_dial. destruct (resolves cfg (targetHost cfg fr));
          [|reflexivity].
        cbn. unfold destroys. rewrite flat_map_app. cbn.
        now rewrite app_nil_r. }
    unfold stk. rewrite after_failures_destroys. fold n0.
    destruct (JS.truthy (fr_first fr)); cbn; now rewrite !app_nil_r. }
  unfold before_dial. destruct (resolves cfg (targetHost cfg fr)); cbn;
    congruence.
Qed.

Lemma resume_failed_throws (fr : frame) (err : jserror) (st : state) :
  negb (isCFError err) || (fr_i fr =? length (attempts cfg) - 1) = true ->
  (resume_failed cfg fr err st).1 = Rejected err /\
  dials (log (resume_failed cfg fr err st).2) = dials (log st).
Proof.
  intros H. unfold resume_failed, catch_block. rewrite H.
  unfold release_remote, sock_destroy.
  destruct st as [[s|] c r sk rs l]; code.
  - split; [reflexivity|]. setters. rewrite dials_app. cbn.
    now rewrite app_nil_r.
  - now split.
Qed.

Lemma dial_gives_up (addr payload H : string) (P : Z) (fails : list outcome)
    (r : settled string) (err : jserror) :
  parseAddress addr = {| host := H; port := Some P |} ->
  valid_port P = true ->
  Forall (fun f => JS.truthy f = true) (CF_FALLBACK_IPS cfg) ->
  Forall (fun o => exists e, o.2 = Some e /\ isCFError e = true) fails ->
  length fails <= length (CF_FALLBACK_IPS cfg) ->
  isCFError err = false \/ length fails = length (CF_FALLBACK_IPS cfg) ->
  exists st,
    run cfg (script cfg (first_frame (parseAddress addr) payload) 0 0
               (fails ++ [(r, Some err)]))
      (exec (guarded cfg (connectToRemote cfg addr payload)) init) = Some st /\
    dials (log st)
    = zip_with (fun c o => (dialled cfg c o.1, P))
        (H :: CF_FALLBACK_IPS cfg) (fails ++ [(r, Some err)]) /\
    length (dials (log st)) = S (length fails) /\
    sends (log st) = [Str (error_notice err)] /\
    isClosed st = true /\
    remoteSocket st = None /\
    (forall evs st', run cfg evs st = Some st' -> log st' = log st).
Proof.
  intros Hparse Hv Htruthy Hfails Hlen Hwhy.
  assert (Hp : port (parseAddress addr) = Some P) by now rewrite Hparse.
  pose proof (dial_alone addr payload P fails (r, Some err) init Hp Hv Hfails
                Hlen) as Hrun.
  pose proof (dials_alone addr payload H P fails (r, Some err) init Hparse
                Hlen) as Hdials.
  rewrite (candidates_truthy H Htruthy) in Hdials.
  cbv zeta in Hrun, Hdials. cbn [init sockets resolving log length dials
                                 flat_map app Nat.add] in Hrun, Hdials.
  set (fr0 := first_frame (parseAddress addr) payload) in *.
  set (fr := frame_at (length fails) fr0) in *.
  set (stk := after_failures cfg P fr0 fails init) in *.
  assert (Hs : length (sockets (before_dial cfg fr stk)) = length fails).
  { rewrite sockets_before_dial. unfold stk.
    rewrite after_failures_sockets. apply length_replicate. }
  destruct (after_failures_flags P fails fr0 init) as [Hclosed Hready].
  fold stk in Hclosed, Hready. cbn [init isClosed readyState] in Hclosed, Hready.
  assert (Hcalm : calm (before_dial cfg fr stk)).
  { apply calm_before_dial, after_failures_calm. split; constructor. }
  cbn [ending snd fst] in Hrun, Hdials. rewrite <- Hs in Hrun at 1.
  rewrite step_error_throw in Hrun.
  2:{ apply orb_true_iff. destruct Hwhy as [Hfatal|Hend].
      - left. now rewrite Hfatal.
      - right. apply Nat.eqb_eq. unfold attempts.
        cbn [fr frame_at fr0 first_frame fr_i length].
        rewrite length_fmap. lia. }
  2,3: unfold before_dial; now destruct (resolves cfg (targetHost cfg fr)).
  eexists. split; [exact Hrun|].
  split; [now rewrite dials_failed|].
  split.
  { rewrite dials_failed, Hdials, length_zip_with, length_app.
    cbn [length]. lia. }
  split.
  { cbn [failed log]. rewrite sends_app. cbn.
    replace (sends (log (before_dial cfg fr stk))) with (sends (log stk)).
    - unfold stk. now rewrite after_failures_sends.
    - unfold before_dial. destruct (resolves cfg (targetHost cfg fr));
        [|reflexivity].
      cbn. rewrite sends_app. cbn. now rewrite app_nil_r. }
  split; [reflexivity|]. split; [reflexivity|].
  intros evs st' Hevs.
  eapply (quiescent_run evs _ st'); [|exact Hevs].
  destruct Hcalm as [Hc1 Hc2]. split; [reflexivity|]. split; [|exact Hc2].
  cbn. apply Forall_app. split; [exact Hc1|]. now constructor.
Qed.

(** *** The Connect-request *)

(** The frame CONNECT:addr|payload, with no bar inside [addr], starts
    [connectToRemote addr payload] under the listener's try/catch. *)
Lemma connect_request (d : payload) (addr payload : string) (st : state) :
  toString d = "CONNECT:" +:+ addr +:+ "|" +:+ payload ->
  JS.occurs "|" addr = false ->
  isClosed st = false ->
  exec (onMessage cfg d) st
  = exec (guarded cfg (connectToRemote cfg addr payload)) st.
Proof.
  intros Hd Hbar Hopen. unfold onMessage.
  unfold exec, mbind, code_bind at 1. unfold get at 1. cbn beta iota.
  rewrite Hopen. cbv zeta. rewrite Hd.
  set (tl := addr +:+ String "|" payload).
  change ("CONNECT:" +:+ addr +:+ "|" +:+ payload)
    with (String "C" (String "O" (String "N" (String "N" (String "E"
            (String "C" (String "T" (String ":" tl)))))))).
  set (message := String "C" _).
  assert (Hstart : JS.startsWith message "CONNECT:" = true).
  { unfold JS.startsWith, message. cbn. now destruct tl. }
  assert (Hlen : String.length message = 8 + (String.length addr
                                               + S (String.length payload))).
  { unfold message, tl. cbn [String.length]. rewrite JSFacts.length_app.
    reflexivity. }
  assert (Hsep : JS.indexOf message "|" 8 = Z.of_nat (8 + String.length addr)).
  { unfold JS.indexOf. change 8%Z with (Z.of_nat 8).
    rewrite JSFacts.clamp_nat, Hlen.
    replace (Nat.min 8 (8 + (String.length addr + S (String.length payload))))
      with 8 by lia.
    unfold message at 1. cbn [JS.drop]. unfold tl.
    now rewrite JSFacts.first_index_app. }
  rewrite Hstart, Hsep.
  assert (Haddr : JS.substring message 8 (Z.of_nat (8 + String.length addr))
                  = addr).
  { change 8%Z with (Z.of_nat 8).
    rewrite JSFacts.substring_nat by lia.
    unfold message. cbn [JS.drop].
    replace (8 + String.length addr - 8) with (String.length addr) by lia.
    apply JSFacts.take_app. }
  assert (Hpay : JS.substring_from message
                   (Z.of_nat (8 + String.length addr) + 1) = payload).
  { unfold JS.substring_from.
    replace (Z.of_nat (8 + String.length addr) + 1)%Z
      with (Z.of_nat (8 + S (String.length addr))) by lia.
    rewrite JSFacts.substring_nat by lia.
    replace (S (String.length addr)) with (String.length (addr +:+ "|")).
    2:{ rewrite JSFacts.length_app. cbn. lia. }
    rewrite Hlen. unfold message. cbn [JS.drop Nat.add]. unfold tl.
    change (addr +:+ String "|" payload) with (addr +:+ ("|" +:+ payload)).
    rewrite <- JSFacts.app_assoc, JSFacts.drop_app.
    apply JSFacts.take_all. rewrite JSFacts.length_app. cbn. lia. }
  rewrite Haddr, Hpay. reflexivity.
Qed.

Lemma connect_frame (addr payload : string) (st : state) :
  JS.occurs "|" addr = false ->
  isClosed st = false ->
  exec (onMessage cfg (Str ("CONNECT:" +:+ addr +:+ "|" +:+ payload))) st
  = exec (guarded cfg (connectToRemote cfg addr payload)) st.
Proof. now apply connect_request. Qed.

Lemma run_connect (addr payload : string) (evs : list event) :
  JS.occurs "|" addr = false ->
  run cfg (WsMessage (Str ("CONNECT:" +:+ addr +:+ "|" +:+ payload)) :: evs) init
  = run cfg evs (exec (guarded cfg (connectToRemote cfg addr payload)) init).
Proof.
  intros Hbar. rewrite run_step. cbn [step init readyState].
  change {| remoteSocket := None; isClosed := false; readyState := OPEN;
            sockets := []; resolving := []; log := [] |} with init.
  now rewrite connect_frame.
Qed.

(** C3: a dial that fails on a candidate with an error outside the
    retryable class throws this error at once: no other candidate is
    tried (one connection only when it is the first candidate), the
    client gets the error and the session is closed for good; and when
    every candidate fails with a retryable error, the dial throws the
    error of the last one. *)
Theorem fatal_short_circuit (addr payload H : string) (P : Z) :
  JS.occurs "|" addr = false ->
  parseAddress addr = {| host := H; port := Some P |} ->
  valid_port P = true ->
  Forall (fun f => JS.truthy f = true) (CF_FALLBACK_IPS cfg) ->
  let request := WsMessage (Str ("CONNECT:" +:+ addr +:+ "|" +:+ payload)) in
  (forall (fr : frame) (err : jserror) (st : state),
      isCFError err = false \/ fr_i fr = length (attempts cfg) - 1 ->
      (resume_failed cfg fr err st).1 = Rejected err /\
      dials (log (resume_failed cfg fr err st).2) = dials (log st)) /\
  (forall (fails : list outcome) (r : settled string) (err : jserror),
      Forall (fun o => exists e, o.2 = Some e /\ isCFError e = true) fails ->
      length fails <= length (CF_FALLBACK_IPS cfg) ->
      isCFError err = false \/ length fails = length (CF_FALLBACK_IPS cfg) ->
      exists st,
        run cfg (request ::
                 script cfg (first_frame (parseAddress addr) payload) 0 0
                   (fails ++ [(r, Some err)])) init
        = Some st /\
        dials (log st)
        = zip_with (fun c o => (dialled cfg c o.1, P))
            (H :: CF_FALLBACK_IPS cfg) (fails ++ [(r, Some err)]) /\
        length (dials (log st)) = S (length fails) /\
        sends (log st) = [Str (error_notice err)] /\
        isClosed st = true /\
        remoteSocket st = None /\
        (forall evs st', run cfg evs st = Some st' -> log st' = log st)).
Proof.
  intros Hbar Hparse Hv Htruthy request. split.
  - intros fr err st Hwhy. apply resume_failed_throws.
    apply orb_true_iff. destruct Hwhy as [Hfatal|Hend].
    + left. now rewrite Hfatal.
    + right. now apply Nat.eqb_eq.
  - intros fails r err Hfails Hlen Hwhy. unfold request.
    rewrite run_connect by assumption. now apply dial_gives_up.
Qed.

(** *** Frames of data *)

Lemma onMessage_forwards (d out : payload) (st : state) :
  isClosed st = false -> forwarded d = Some out ->
  exec (onMessage cfg d) st = exec (forward out) st.
Proof.
  intros Hopen Hout. unfold forwarded in Hout. unfold onMessage, guarded.
  unfold exec, mbind, code_bind at 1. unfold get at 1. cbn beta iota.
  rewrite Hopen. cbv zeta in *.
  destruct (JS.startsWith (toString d) "CONNECT:"); [discriminate|].
  destruct (JS.startsWith (toString d) "DATA:").
  - injection Hout as <-. unfold forward.
    destruct st as [[s|] c r sk rs l]; code; [|reflexivity].
    destruct (destroyed s _); reflexivity.
  - destruct (String.eqb (toString d) "CLOSE"); [discriminate|].
    destruct (is_buffer d); [|discriminate]. injection Hout as <-.
    unfold forward.
    destruct st as [[s|] c r sk rs l]; code; [|reflexivity].
    destruct (destroyed s _); reflexivity.
Qed.

Lemma forward_live (out : payload) (s : sock) (st : state) :
  remoteSocket st = Some s -> destroyed s st = false ->
  exec (forward out) st = emit (SockWrite s out) st.
Proof.
  intros Hs Hlive. unfold forward, sock_write. code. rewrite Hs, Hlive.
  reflexivity.
Qed.

Lemma forward_none (out : payload) (st : state) :
  remoteSocket st = None -> exec (forward out) st = st.
Proof. intros Hs. unfold forward. code. now rewrite Hs. Qed.

Lemma forwarded_data (d : payload) (rest : string) :
  toString d = "DATA:" +:+ rest -> forwarded d = Some (Str rest).
Proof.
  intros Hd. unfold forwarded. rewrite Hd. cbv zeta.
  change ("DATA:" +:+ rest)
    with (String "D" (String "A" (String "T" (String "A" (String ":" rest))))).
  assert (H1 : JS.startsWith
            (String "D" (String "A" (String "T" (String "A" (String ":" rest)))))
            "CONNECT:" = false) by reflexivity.
  assert (H2 : JS.startsWith
            (String "D" (String "A" (String "T" (String "A" (String ":" rest)))))
            "DATA:" = true).
  { unfold JS.startsWith. cbn. now destruct rest. }
  rewrite H1, H2. do 2 f_equal. unfold JS.substring_from.
  change 5%Z with (Z.of_nat 5).
  rewrite JSFacts.substring_nat by (cbn [String.length]; lia).
  cbn [JS.drop String.length]. apply JSFacts.take_all. lia.
Qed.

Lemma step_message (d : payload) (st : state) :
  readyState st <> CLOSED ->
  step cfg (WsMessage d) st = Some (exec (onMessage cfg d) st).
Proof. intros H. cbn. now destruct (readyState st). Qed.

(** C7 as amended: while the session is open and holds a socket that is
    not destroyed, a Buffer that is none of the commands (its text, the
    bytes decoded as UTF-8, does not start with CONNECT: or DATA: and is
    not CLOSE) is written to the socket as it is; and a frame whose text
    is DATA: followed by some text has exactly this text written to the
    socket.  For a string that is what follows DATA: in the frame.  For a
    Buffer it is the decoded text of the bytes that follow DATA:, which
    is these bytes when they are well-formed UTF-8 and has U+FFFD in place
    of every part that is not well formed otherwise. *)
Theorem frames_forwarded (st : state) (s : sock) :
  isClosed st = false -> readyState st <> CLOSED ->
  remoteSocket st = Some s -> destroyed s st = false ->
  (forall b : string,
      JS.startsWith (Utf8.decode b) "CONNECT:" = false ->
      JS.startsWith (Utf8.decode b) "DATA:" = false ->
      Utf8.decode b <> "CLOSE" ->
      step cfg (WsMessage (Buf b)) st = Some (emit (SockWrite s (Buf b)) st)) /\
  (forall (d : payload) (text : string),
      toString d = "DATA:" +:+ text ->
      step cfg (WsMessage d) st = Some (emit (SockWrite s (Str text)) st)) /\
  (forall bytes : string,
      step cfg (WsMessage (Buf ("DATA:" +:+ bytes))) st
      = Some (emit (SockWrite s (Str (Utf8.decode bytes))) st) /\
      (Utf8.well_formed bytes = true ->
       step cfg (WsMessage (Buf ("DATA:" +:+ bytes))) st
       = Some (emit (SockWrite s (Str bytes)) st))).
Proof.
  intros Hopen Hready Hs Hlive.
  assert (Hdata : forall (d : payload) (text : string),
    toString d = "DATA:" +:+ text ->
    step cfg (WsMessage d) st = Some (emit (SockWrite s (Str text)) st)).
  { intros d text Hd. rewrite step_message by assumption. f_equal.
    rewrite (onMessage_forwards _ (Str text)) by
      (try assumption; now apply forwarded_data).
    now apply forward_live. }
  split; [|split; [exact Hdata|]].
  - intros b H1 H2 H3. rewrite step_message by assumption. f_equal.
    rewrite (onMessage_forwards _ (Buf b)) by
      (try assumption; unfold forwarded; cbn [toString is_buffer];
       rewrite H1, H2; apply String.eqb_neq in H3; now rewrite H3).
    now apply forward_live.
  - intros bytes.
    assert (Hstep : step cfg (WsMessage (Buf ("DATA:" +:+ bytes))) st
                    = Some (emit (SockWrite s (Str (Utf8.decode bytes))) st)).
    { apply Hdata. cbn [toString]. apply Utf8Facts.decode_data. }
    split; [exact Hstep|]. intros Hwf.
    now rewrite Hstep, Utf8Facts.decode_well_formed.
Qed.

(** C8 as amended: a frame of data (DATA: or a binary frame that is no
    command) that arrives while a connect attempt is in flight is not
    queued by the session and is never rejected.  While the session
    holds no socket (the name of the candidate is being resolved) the
    frame is dropped: the step changes nothing.  While it holds the
    socket that is connecting, the bytes are written to that socket at
    once. *)
Theorem data_while_connecting (st : state) (d out : payload) :
  isClosed st = false -> readyState st <> CLOSED ->
  forwarded d = Some out ->
  (remoteSocket st = None -> step cfg (WsMessage d) st = Some st) /\
  (forall (s : sock) (k : socket),
      remoteSocket st = Some s ->
      sockets st !! s = Some k -> sk_phase k = Connecting ->
      step cfg (WsMessage d) st = Some (emit (SockWrite s out) st)).
Proof.
  intros Hopen Hready Hout. split.
  - intros Hnone. rewrite step_message by assumption. f_equal.
    rewrite (onMessage_forwards d out) by assumption.
    now apply forward_none.
  - intros s k Hs Hk Hphase. rewrite step_message by assumption. f_equal.
    rewrite (onMessage_forwards d out) by assumption.
    apply forward_live; [exact Hs|]. unfold destroyed. now rewrite Hk, Hphase.
Qed.

(** C6: in the variant that resolves names, the attempt on a candidate
    that is no IP address awaits [resolveDoH]; when the resolver throws
    (every DoH server and the system resolver have failed), the
    attempt is not given up: the call opens its connection to the name
    of the candidate itself, on the same port, and awaits it; nothing
    is sent to the client and the session stays as open as it was. *)
Theorem resolution_failure_absorbed (fr : frame) (p : Z) (st : state)
    (world : Resolver.network) (rst : Resolver.rstate) (err : jserror) :
  with_doh cfg = true ->
  isIP cfg (targetHost cfg fr) = 0 ->
  fr_port fr = Some p -> valid_port p = true ->
  (Resolver.resolveDoH (isIP cfg) world (targetHost cfg fr) rst).1
  = Rejected err ->
  let c := targetHost cfg fr in
  let r := (Resolver.resolveDoH (isIP cfg) world c rst).1 in
  attempt cfg fr st = (Fulfilled Pending, asked fr c st) /\
  exists st',
    step cfg (Resolved (length (resolving st)) r) (asked fr c st) = Some st' /\
    log st' = log st ++ [ResolveCall (length (resolving st)) c;
                         NetConnect (length (sockets st)) c p] /\
    remoteSocket st' = Some (length (sockets st)) /\
    sockets st' !! length (sockets st)
    = Some {| sk_phase := Connecting; sk_ended := false;
              sk_waiter := Some fr; sk_pumps := 0 |} /\
    isClosed st' = isClosed st /\ readyState st' = readyState st.
Proof.
  intros Hdoh Hname Hp Hv Hthrow c r.
  assert (Hres : resolves cfg c = true).
  { unfold resolves, c. now rewrite Hdoh, Hname. }
  split; [now apply attempt_asks|].
  unfold r, c. rewrite Hthrow.
  rewrite (step_resolved fr _ _ p) by assumption.
  eexists. split; [reflexivity|].
  cbn [opened answered log remoteSocket sockets isClosed readyState].
  split; [now rewrite <- app_assoc|]. split; [reflexivity|].
  split; [apply lookup_new|]. now split.
Qed.

(** *** Every socket is destroyed at most once *)

Lemma keeps_ret (I : state -> Prop) {A} (a : A) : keeps I (mret a).
Proof. intros st H. exact H. Qed.

Lemma keeps_throw (I : state -> Prop) {A} (e : jserror) : keeps I (@throw A e).
Proof. intros st H. exact H. Qed.

Lemma keeps_get (I : state -> Prop) {A} (f : state -> A) : keeps I (get f).
Proof. intros st H. exact H. Qed.

Lemma keeps_modify (I : state -> Prop) (f : state -> state) :
  (forall st, I st -> I (f st)) -> keeps I (modify f).
Proof. intros Hf st H. apply Hf, H. Qed.

Lemma keeps_bind (I : state -> Prop) {A B} (m : code A) (f : A -> code B) :
  keeps I m -> (forall a, keeps I (f a)) -> keeps I (m ≫= f).
Proof.
  intros Hm Hf st H. specialize (Hm st H).
  unfold mbind, code_bind. destruct (m st) as [[a|e] st1]; cbn in *.
  - apply Hf, Hm.
  - exact Hm.
Qed.

Lemma keeps_try_catch (I : state -> Prop) {A} (m : code A)
    (h : jserror -> code A) :
  keeps I m -> (forall e, keeps I (h e)) -> keeps I (try_catch m h).
Proof.
  intros Hm Hh st H. specialize (Hm st H).
  unfold try_catch. destruct (m st) as [[a|e] st1]; cbn in *.
  - exact Hm.
  - apply Hh, Hm.
Qed.

Lemma keeps_swallow (I : state -> Prop) (m : code unit) :
  keeps I m -> keeps I (swallow m).
Proof. intros Hm. apply keeps_try_catch; [exact Hm|]. intros e. apply keeps_ret. Qed.

Lemma keeps_exec (I : state -> Prop) {A} (m : code A) (st : state) :
  keeps I m -> I st -> I (exec m st).
Proof. intros Hm H. apply Hm, H. Qed.

Lemma destroys_app (l l' : list action) :
  destroys (l ++ l') = destroys l ++ destroys l'.
Proof. apply flat_map_app. Qed.

(** An action that is no [destroy] leaves the bookkeeping as it is. *)
Lemma tidy_emit (a : action) (st : state) :
  destroys [a] = [] -> tidy st -> tidy (emit a st).
Proof.
  intros Ha (H1 & H2 & H3). unfold tidy. cbn [emit log sockets remoteSocket].
  rewrite destroys_app, Ha, app_nil_r. auto.
Qed.

Lemma tidy_update (s : sock) (f : socket -> socket) (st : state) :
  tidy st -> tidy (update_socket s f st).
Proof.
  intros (H1 & H2 & H3). unfold tidy.
  cbn [update_socket set_sockets log sockets remoteSocket].
  rewrite length_alter. auto.
Qed.

Lemma tidy_open (k : socket) (st : state) :
  tidy st -> tidy (set_sockets (sockets st ++ [k]) st).
Proof.
  intros (H1 & H2 & H3). unfold tidy. cbn [set_sockets log sockets remoteSocket].
  rewrite length_app. cbn [length]. split; [exact H1|]. split.
  - eapply Forall_impl; [exact H2|]. cbn. intros; lia.
  - intros s Hs. destruct (H3 s Hs). split; [lia | assumption].
Qed.

(** A socket just opened becomes the socket of the session. *)
Lemma tidy_hold (k : socket) (st : state) :
  tidy st ->
  tidy (set_remoteSocket (Some (length (sockets st)))
          (set_sockets (sockets st ++ [k]) st)).
Proof.
  intros (H1 & H2 & H3). unfold tidy.
  cbn [set_remoteSocket set_sockets log sockets remoteSocket].
  rewrite length_app. cbn [length]. split; [exact H1|]. split.
  - eapply Forall_impl; [exact H2|]. cbn. intros; lia.
  - intros s [= <-]. split; [lia|]. intros Hin.
    rewrite Forall_forall in H2. specialize (H2 _ Hin). lia.
Qed.

(** The socket of the session is destroyed and dropped. *)
Lemma keeps_release_remote : keeps tidy release_remote.
Proof.
  intros st (H1 & H2 & H3). unfold release_remote, sock_destroy.
  destruct st as [[s|] c r sk rs l]; code; [|now repeat split].
  destruct (H3 s eq_refl) as [Hlt Hnew]. cbn in *.
  unfold tidy. setters. rewrite destroys_app, length_alter. cbn.
  split; [|split].
  - apply NoDup_app. split; [exact H1|]. split; [|apply NoDup_singleton].
    intros x Hx ->%list_elem_of_singleton. contradiction.
  - apply Forall_app. split; [exact H2|]. now constructor.
  - discriminate.
Qed.

Lemma keeps_net_connect_hold (h : string) (p : option Z) (k : sock -> code wait) :
  (forall s, keeps tidy (k s)) ->
  keeps tidy (s ← net_connect h p; modify (set_remoteSocket (Some s));; k s).
Proof.
  intros Hk st Hst. unfold net_connect.
  destruct p as [n|]; [destruct (valid_port n)|]; try exact Hst.
  unfold mbind, code_bind, mret, code_ret, get, modify. cbn.
  apply Hk. setters. apply (tidy_hold _ (emit (NetConnect _ h n) st)).
  now apply tidy_emit.
Qed.

Ltac keeps :=
  repeat first
    [ apply keeps_ret | apply keeps_throw | apply keeps_get
    | apply keeps_release_remote
    | apply keeps_bind | apply keeps_try_catch | apply keeps_swallow
    | apply keeps_modify; intros ? ?;
      first [ apply tidy_emit; [reflexivity | assumption]
            | apply tidy_update; assumption
            | assumption ]
    | match goal with
      | |- forall _, _ => intro
      | |- keeps _ (if ?b then _ else _) => destruct b
      | |- keeps _ (match ?x with _ => _ end) => destruct x
      end ].

Lemma keeps_ws_send (d : payload) : keeps tidy (ws_send cfg d).
Proof. unfold ws_send. keeps. Qed.

Lemma keeps_safeClose : keeps tidy safeCloseWebSocket.
Proof. unfold safeCloseWebSocket. keeps. Qed.

Lemma keeps_cleanup : keeps tidy cleanup.
Proof. unfold cleanup. keeps. Qed.

Lemma keeps_on_data (d : payload) : keeps tidy (on_data cfg d).
Proof. unfold on_data. keeps; first [apply keeps_ws_send | apply keeps_cleanup]. Qed.

Lemma keeps_on_end : keeps tidy (on_end cfg).
Proof. unfold on_end. keeps; first [apply keeps_ws_send | apply keeps_cleanup]. Qed.

Lemma keeps_pump (r : option sock) : keeps tidy (pumpRemoteToWebSocket r).
Proof.
  unfold pumpRemoteToWebSocket. destruct r; keeps.
Qed.

Lemma keeps_await_connect (fr : frame) : keeps tidy (await_connect fr).
Proof.
  unfold await_connect. keeps.
Qed.

Lemma keeps_dial (fr : frame) (h : string) : keeps tidy (dial fr h).
Proof.
  unfold dial. apply keeps_net_connect_hold. intros s.
  apply keeps_await_connect.
Qed.

Lemma keeps_attempt (fr : frame) : keeps tidy (attempt cfg fr).
Proof.
  unfold attempt. cbv zeta.
  destruct (with_doh cfg && (isIP cfg (targetHost cfg fr) =? 0));
    [|apply keeps_dial].
  unfold await_resolveDoH. keeps.
Qed.

Lemma keeps_connected (fr : frame) : keeps tidy (connected cfg fr).
Proof.
  unfold connected, remote_write, sock_write.
  keeps; first [apply keeps_ws_send | apply keeps_pump].
Qed.

Lemma keeps_catch_block (next : frame -> code wait) (fr : frame) (err : jserror) :
  (forall fr', keeps tidy (next fr')) ->
  keeps tidy (catch_block cfg next fr err).
Proof. intros Hnext. unfold catch_block. keeps. apply Hnext. Qed.

Lemma keeps_loop (n : nat) : forall fr, keeps tidy (loop cfg n fr).
Proof.
  induction n as [|n IH]; intros fr; cbn [loop].
  - apply keeps_ret.
  - apply keeps_try_catch; [apply keeps_attempt|].
    intros e. apply keeps_catch_block, IH.
Qed.

Lemma keeps_guarded (m : code wait) : keeps tidy m -> keeps tidy (guarded cfg m).
Proof.
  intros Hm. unfold guarded. keeps;
    first [exact Hm | apply keeps_ws_send | apply keeps_cleanup].
Qed.

Lemma keeps_forward (d : payload) : keeps tidy (forward d).
Proof. unfold forward, sock_write. keeps. Qed.

Lemma keeps_onMessage (d : payload) : keeps tidy (onMessage cfg d).
Proof.
  unfold onMessage. apply keeps_bind; [apply keeps_get|]. intros [|];
    [apply keeps_ret|].
  apply keeps_guarded. cbv zeta.
  destruct (JS.startsWith (toString d) "CONNECT:");
    [apply keeps_loop|].
  destruct (JS.startsWith (toString d) "DATA:");
    [apply keeps_bind; [apply keeps_forward | intros; apply keeps_ret]|].
  destruct (String.eqb (toString d) "CLOSE");
    [apply keeps_bind; [apply keeps_cleanup | intros; apply keeps_ret]|].
  destruct (is_buffer d); [|apply keeps_ret].
  apply keeps_bind; [apply keeps_forward | intros; apply keeps_ret].
Qed.

Lemma tidy_pumps (n : nat) (h : code unit) (st : state) :
  keeps tidy h -> tidy st -> tidy (pumps n h st).
Proof.
  intros Hh Hst. unfold pumps. induction n as [|n IH]; [exact Hst|].
  change (Nat.iter (S n) (exec h) st) with (exec h (Nat.iter n (exec h) st)).
  apply keeps_exec; assumption.
Qed.

Lemma tidy_field (st st' : state) :
  log st' = log st -> sockets st' = sockets st ->
  remoteSocket st' = remoteSocket st -> tidy st -> tidy st'.
Proof. unfold tidy. intros -> -> ->. auto. Qed.

(** Every turn of the event loop keeps the bookkeeping sound. *)
Lemma tidy_step (ev : event) (st st' : state) :
  tidy st -> step cfg ev st = Some st' -> tidy st'.
Proof.
  intros Hst Hstep.
  destruct ev as [d| | | |rid r|s|s err|s chunk|s]; cbn [step] in Hstep.
  - destruct (readyState st); try discriminate; injection Hstep as <-;
      apply keeps_exec; auto using keeps_onMessage.
  - destruct (readyState st); try discriminate. injection Hstep as <-.
    now apply (tidy_field st).
  - destruct (readyState st); try discriminate; injection Hstep as <-;
      (apply keeps_exec; [apply keeps_cleanup | now apply (tidy_field st)]).
  - destruct (readyState st); try discriminate; injection Hstep as <-;
      (apply keeps_exec; [apply keeps_cleanup | now apply (tidy_field st)]).
  - destruct (resolving st !! rid) as [[[fr h]|]|]; try discriminate.
    injection Hstep as <-. apply keeps_exec; [|now apply (tidy_field st)].
    apply keeps_guarded. unfold resume_resolved.
    apply keeps_try_catch; [apply keeps_dial|].
    intros e. apply keeps_catch_block. intros fr'. apply keeps_loop.
  - destruct (sockets st !! s) as [k|]; [|discriminate].
    destruct (sk_phase k); try discriminate.
    destruct (sk_waiter k) as [fr|]; injection Hstep as <-;
      [|now apply tidy_update].
    apply keeps_exec; [|now apply tidy_update].
    apply keeps_guarded. unfold resume_connected.
    apply keeps_try_catch; [apply keeps_connected|].
    intros e. apply keeps_catch_block. intros fr'. apply keeps_loop.
  - destruct (sockets st !! s) as [k|]; [|discriminate].
    assert (H1 : tidy (pumps (sk_pumps k) on_error
                         (update_socket s
                            (fun k => set_waiter None (set_phase Destroyed k)) st))).
    { apply tidy_pumps; [apply keeps_cleanup | now apply tidy_update]. }
    destruct (sk_phase k); try discriminate;
      destruct (sk_waiter k) as [fr|]; injection Hstep as <-; try exact H1;
      (apply keeps_exec; [|exact H1]; apply keeps_guarded;
       unfold resume_failed; apply keeps_catch_block; intros fr';
       apply keeps_loop).
  - destruct (sockets st !! s) as [k|]; [|discriminate].
    destruct (sk_phase k), (sk_ended k); try discriminate.
    injection Hstep as <-. apply tidy_pumps; [apply keeps_on_data | exact Hst].
  - destruct (sockets st !! s) as [k|]; [|discriminate].
    destruct (sk_phase k), (sk_ended k); try discriminate.
    injection Hstep as <-.
    apply tidy_pumps; [apply keeps_on_end | now apply tidy_update].
Qed.

Lemma tidy_run (evs : list event) :
  forall st st', tidy st -> run cfg evs st = Some st' -> tidy st'.
Proof.
  induction evs as [|ev evs IH]; intros st st' Hst Hrun.
  - now injection Hrun as <-.
  - rewrite run_step in Hrun.
    destruct (step cfg ev st) as [st1|] eqn:Hstep; [|discriminate].
    eapply IH; [|exact Hrun]. eapply tidy_step; eassumption.
Qed.

(** X12: whatever the events of a session, it calls [destroy] at most
    once on each socket, and only on sockets it has opened. *)
Lemma destroy_once (evs : list event) (st : state) :
  run cfg evs init = Some st ->
  NoDup (destroys (log st)) /\
  Forall (fun s => s < length (sockets st)) (destroys (log st)).
Proof.
  intros Hrun.
  assert (Hinit : tidy init).
  { split; [constructor|]. split; [constructor | discriminate]. }
  destruct (tidy_run evs init st Hinit Hrun) as (H1 & H2 & _). now split.
Qed.

(** X13: [cleanup] is idempotent: after a call of it the session is
    closed, and a second call changes nothing (no second [destroy], no
    second [webSocket.close]). *)
Lemma cleanup_idempotent (st : state) :
  isClosed (exec cleanup st) = true /\
  exec cleanup (exec cleanup st) = exec cleanup st.
Proof.
  assert (H : isClosed (exec cleanup st) = true).
  { unfold cleanup, release_remote, sock_destroy, safeCloseWebSocket.
    destruct st as [[s|] [|] [| |] sk rs l]; reflexivity. }
  split; [exact H|]. unfold exec at 1. now rewrite cleanup_closed.
Qed.

(** Once the session is closed, the listeners of the close triggers (the
    client's 'close' and 'error', the CLOSE command, the socket's 'error'
    and 'end') and the pump's 'data' listener do nothing. *)
Lemma close_triggers_idle (st : state) :
  isClosed st = true ->
  exec cleanup st = st /\
  exec on_error st = st /\
  exec (on_end cfg) st = st /\
  (forall d, exec (on_data cfg d) st = st) /\
  (forall d, exec (onMessage cfg d) st = st).
Proof.
  intros H. unfold exec, on_error.
  rewrite cleanup_closed, on_end_closed by assumption.
  repeat split; intros; now rewrite ?on_data_closed, ?onMessage_closed.
Qed.

End Facts.

End SessionFacts.

(** ** The scenarios *)
Module ScenarioFacts.
Import Scenario.

Local Open Scope nat_scope.

(** C1: the close path does not stop a dial in flight.  In the second
    variant the client leaves while the name is resolved: the session is
    closed with nothing but the resolver call in its log; then the name
    resolves, a socket is opened and connects, and the first frame is
    written to it, after the closed flag was set; the socket is never
    destroyed (with a ws release whose send throws, it is destroyed after
    the write).  In the first variant the same happens with two
    overlapping Connect-requests: after CLOSE the first socket fails, the
    fallback host is dialled and the first frame is written to it. *)
Theorem write_after_close :
  observe (after resolving_names (take 2 late_connect))
  = ([], None, true, [ResolveCall 0 "h.example"]) /\
  observe <$> run resolving_names late_connect init
  = Some ([Connected], Some 0, true,
          [ResolveCall 0 "h.example"; NetConnect 0 "93.184.216.34" 80%Z;
           SockWrite 0 (Str "hello"); WsDiscard (Str "CONNECTED")]) /\
  observe <$> run strict late_connect init
  = Some ([Destroyed], None, true,
          [ResolveCall 0 "h.example"; NetConnect 0 "93.184.216.34" 80%Z;
           SockWrite 0 (Str "hello"); SockDestroy 0]) /\
  observe (after plain (take 3 overlapping))
  = ([Connecting; Destroyed], None, true,
     [NetConnect 0 "h.example" 80%Z; NetConnect 1 "g.example" 81%Z;
      SockDestroy 1; WsClose]) /\
  observe <$> run plain overlapping init
  = Some ([Destroyed; Destroyed; Connected], Some 2, true,
          [NetConnect 0 "h.example" 80%Z; NetConnect 1 "g.example" 81%Z;
           SockDestroy 1; WsClose; NetConnect 2 "f1.example" 80%Z;
           SockWrite 2 (Str "hello"); WsDiscard (Str "CONNECTED")]).
Proof. repeat split; vm_compute; reflexivity. Qed.

(** Against C2 as stated: the attempts are not always H, F1, .., Fn.
    With PRIP set to f1.example followed by a comma the fallback hosts are
    f1.example and the empty string; when H and F1 fail the third
    connection goes to H again, not to the second fallback host.  With a
    port out of range no connection is attempted at all and the session
    is closed.  And with two dials that overlap, the socket of the second
    dial's attempt on f1.example is destroyed by the catch block of the
    first dial: it can connect no more, and the second dial neither keeps
    a connection nor goes on to the next fallback host. *)
Lemma fallback_plan_not_followed :
  Server.CF_FALLBACK_IPS
    (fun name => if String.eqb name "PRIP" then Some "f1.example," else None)
  = CF_FALLBACK_IPS trailing_comma /\
  CF_FALLBACK_IPS trailing_comma = ["f1.example"; ""] /\
  (fun st => dials (log st)) <$>
    run trailing_comma
      [WsMessage connect_frame; SockError 0 refused; SockError 1 timed_out;
       SockConnect 2] init
  = Some [("h.example", 80%Z); ("f1.example", 80%Z); ("h.example", 80%Z)] /\
  (fun st => dials (log st)) <$>
    run trailing_comma
      [WsMessage connect_frame; SockError 0 refused; SockError 1 timed_out;
       SockConnect 2] init
  <> Some ((fun h => (h, 80%Z)) <$> "h.example" :: CF_FALLBACK_IPS trailing_comma) /\
  (fun st => (dials (log st), length (sockets st), isClosed st)) <$>
    run plain [WsMessage (Str "CONNECT:h.example:99999|hello")] init
  = Some ([], 0, true) /\
  observe <$> run plain crossing init
  = Some ([Destroyed; Destroyed; Destroyed; Connecting], Some 3, false,
          [NetConnect 0 "h.example" 80%Z; NetConnect 1 "g.example" 81%Z;
           SockDestroy 1; NetConnect 2 "f1.example" 81%Z;
           SockDestroy 2; NetConnect 3 "f1.example" 80%Z]) /\
  step plain (SockConnect 2) (after plain crossing) = None /\
  step plain (SockError 2 refused) (after plain crossing) = None.
Proof.
  repeat split; try (vm_compute; reflexivity). vm_compute. discriminate.
Qed.

Lemma fatal_short_circuit_witness :
  exists st,
    run plain [WsMessage connect_frame; SockError 0 not_found] init
    = Some st /\
    dials (log st) = [("h.example", 80%Z)] /\
    length (dials (log st)) = 1 /\
    sends (log st) = [Str "ERROR:getaddrinfo ENOTFOUND h.example"] /\
    isClosed st = true /\
    remoteSocket st = None /\
    (forall evs st', run plain evs st = Some st' -> log st' = log st).
Proof.
  refine (proj2 (SessionFacts.fatal_short_circuit plain "h.example:80" "hello"
                   "h.example" 80%Z _ _ _ _)
            [] (Rejected not_found) not_found _ _ _);
    try reflexivity.
  - repeat constructor.
  - constructor.
  - cbn. lia.
  - left. reflexivity.
Defined.

(** Against C4 as stated: a second Connect-request while the session
    streams is not rejected.  A second socket is opened and connects, the
    first one is never destroyed, the client is told CONNECTED twice and
    the session stays open with two connections. *)
Lemma second_connect_accepted :
  observe <$> run plain second_connect init
  = Some ([Connected; Connected], Some 1, false,
          [NetConnect 0 "h.example" 80%Z; SockWrite 0 (Str "hello");
           WsSend (Str "CONNECTED"); NetConnect 1 "g.example" 81%Z;
           SockWrite 1 (Str "world"); WsSend (Str "CONNECTED")]).
Proof. vm_compute. reflexivity. Qed.

Lemma resolution_failure_absorbed_witness :
  exists st',
    step resolving_names
      (Resolved 0 (Rejected (Error "Failed to resolve h.example")))
      resolving_session = Some st' /\
    log st' = [ResolveCall 0 "h.example"; NetConnect 0 "h.example" 80%Z] /\
    remoteSocket st' = Some 0 /\
    isClosed st' = false.
Proof.
  destruct (SessionFacts.resolution_failure_absorbed resolving_names
              (first_frame (parseAddress "h.example:80") "hello") 80%Z init
              Resolver.dead_world
              {| Resolver.dnsCache := ∅; Resolver.now := 0%Z;
                 Resolver.lookups := [] |}
              (Error "Failed to resolve h.example"))
    as [_ (st' & Hstep & Hlog & Hrem & _ & Hc & _)];
    try (vm_compute; reflexivity).
  exists st'. split; [exact Hstep|]. split; [exact Hlog|].
  split; [exact Hrem | exact Hc].
Defined.

(** Against C7 as stated: a binary frame whose bytes spell a command is
    not forwarded as it is, and the bytes after DATA: are not always the
    bytes written.  On a streaming session the binary frame CLOSE writes
    nothing and closes the session, and the binary frame DATA:abc has the
    three bytes abc written to the socket, not the eight bytes of the
    frame.  The binary frame DATA: followed by the bytes FF FE has the six
    bytes EF BF BD EF BF BD written: the text of the frame is decoded as
    UTF-8, and each of the two bytes gives U+FFFD. *)
Lemma binary_command_not_forwarded :
  isClosed streaming_session = false /\
  remoteSocket streaming_session = Some 0 /\
  destroyed 0 streaming_session = false /\
  observe <$> step plain (WsMessage (Buf "CLOSE")) streaming_session
  = Some ([Destroyed], None, true,
          [NetConnect 0 "h.example" 80%Z; SockWrite 0 (Str "hello");
           WsSend (Str "CONNECTED"); SockDestroy 0; WsClose]) /\
  log <$> step plain (WsMessage (Buf "DATA:abc")) streaming_session
  = Some (log streaming_session ++ [SockWrite 0 (Str "abc")]) /\
  step plain (WsMessage (Buf "DATA:abc")) streaming_session
  <> Some (emit (SockWrite 0 (Buf "DATA:abc")) streaming_session) /\
  log <$> step plain
            (WsMessage (Buf ("DATA:" +:+ String "255" (String "254" ""))))
            streaming_session
  = Some (log streaming_session ++
          [SockWrite 0
             (Str (String "239" (String "191" (String "189"
                    (String "239" (String "191" (String "189" "")))))))]) /\
  step plain (WsMessage (Buf ("DATA:" +:+ String "255" (String "254" ""))))
    streaming_session
  <> Some (emit (SockWrite 0 (Str (String "255" (String "254" ""))))
             streaming_session).
Proof.
  repeat split; try (vm_compute; reflexivity); vm_compute; discriminate.
Qed.

Lemma frames_forwarded_witness :
  step plain (WsMessage (Buf "GET / HTTP/1.0")) streaming_session
  = Some (emit (SockWrite 0 (Buf "GET / HTTP/1.0")) streaming_session) /\
  step plain (WsMessage (Str "DATA:abc")) streaming_session
  = Some (emit (SockWrite 0 (Str "abc")) streaming_session) /\
  step plain (WsMessage (Buf ("DATA:" +:+ "abc"))) streaming_session
  = Some (emit (SockWrite 0 (Str "abc")) streaming_session).
Proof.
  destruct (SessionFacts.frames_forwarded plain streaming_session 0)
    as (Hbin & Hdata & Hbuf); try reflexivity; try discriminate.
  split; [|split].
  - apply Hbin; try reflexivity. discriminate.
  - apply (Hdata (Str "DATA:abc") "abc"). reflexivity.
  - apply (proj2 (Hbuf "abc")). reflexivity.
Defined.

(** Against C8 as stated: data sent while the session is connecting is
    dropped.  In the second variant a DATA: frame that arrives while the name is resolved
    leaves the state as it is, and after the socket has connected only
    the first frame has been written and only CONNECTED has been sent.  In
    the first variant the bytes go to the socket that is connecting; when
    that one fails and the fallback host connects, the socket kept never
    gets them, and nothing tells the client. *)
Lemma data_dropped_while_connecting :
  step resolving_names (WsMessage (Str "DATA:abc")) resolving_session
  = Some resolving_session /\
  observe <$> run resolving_names early_data init
  = Some ([Connected], Some 0, false,
          [ResolveCall 0 "h.example"; NetConnect 0 "93.184.216.34" 80%Z;
           SockWrite 0 (Str "hello"); WsSend (Str "CONNECTED")]) /\
  observe <$> run plain early_data_plain init
  = Some ([Destroyed; Connected], Some 1, false,
          [NetConnect 0 "h.example" 80%Z; SockWrite 0 (Str "abc");
           SockDestroy 0; NetConnect 1 "f1.example" 80%Z;
           SockWrite 1 (Str "hello"); WsSend (Str "CONNECTED")]).
Proof. repeat split; vm_compute; reflexivity. Qed.

Lemma data_while_connecting_witness :
  step resolving_names (WsMessage (Str "DATA:abc")) resolving_session
  = Some resolving_session.
Proof.
  refine (proj1 (SessionFacts.data_while_connecting resolving_names
                   resolving_session (Str "DATA:abc") (Str "abc") _ _ _) _);
    try reflexivity.
  discriminate.
Defined.

(** The scenario of the specification: the client asks for
    93.184.216.34:80 with a first frame, the socket connects, the peer
    answers and ends the stream.  The client gets CONNECTED, the bytes of
    the answer, then CLOSE, and the session is torn down. *)
Example end_to_end :
  observe <$> run resolving_names
                [WsMessage (Str "CONNECT:93.184.216.34:80|GET / HTTP/1.0");
                 SockConnect 0; SockData 0 "HTTP/1.0 200 OK"; SockEnd 0;
                 WsClosed] init
  = Some ([Destroyed], None, true,
          [NetConnect 0 "93.184.216.34" 80%Z;
           SockWrite 0 (Str "GET / HTTP/1.0"); WsSend (Str "CONNECTED");
           WsSend (Buf "HTTP/1.0 200 OK"); WsSend (Str "CLOSE");
           SockDestroy 0; WsClose]).
Proof. vm_compute. reflexivity. Qed.

End ScenarioFacts.

(** ** The settings and the HTTP listener *)
Module ServerFacts.
Import JS Server.

Lemma app_empty (s : string) : s +:+ "" = s.
Proof.
  induction s as [|c s IH]; [reflexivity|].
  rewrite JSFacts.app_cons. now rewrite IH.
Qed.

Lemma split_on_cons (c : ascii) (s cur : string) :
  exists piece pieces, Net.split_on c cur s = piece :: pieces.
Proof.
  revert cur. induction s as [|a s IH]; intros cur; cbn [Net.split_on].
  - now exists cur, [].
  - destruct (Ascii.eqb a c); [now eexists _, _ | apply IH].
Qed.

Lemma join_cons (sep a : string) (b : string) (l : list string) :
  join sep (a :: b :: l) = a +:+ sep +:+ join sep (b :: l).
Proof. reflexivity. Qed.

(** Joining the pieces gives the string back. *)
Lemma join_split_on (c : ascii) (s : string) :
  forall cur, join (String c "") (Net.split_on c cur s) = cur +:+ s.
Proof.
  induction s as [|a s IH]; intros cur; cbn [Net.split_on].
  - cbn. now rewrite app_empty.
  - destruct (Ascii.eqb a c) eqn:Hac.
    + apply Ascii.eqb_eq in Hac as ->.
      destruct (split_on_cons c s "") as (p & ps & Hp).
      specialize (IH ""). rewrite Hp in *. rewrite join_cons, IH.
      reflexivity.
    + rewrite IH, JSFacts.app_assoc. reflexivity.
Qed.

Lemma occurs_snoc (c a : ascii) (s : string) :
  occurs c s = false -> Ascii.eqb a c = false ->
  occurs c (s +:+ String a "") = false.
Proof.
  unfold occurs. induction s as [|b s IH]; intros Hs Ha.
  - rewrite JSFacts.app_nil. cbn. now rewrite Ha.
  - rewrite JSFacts.app_cons. cbn in *. destruct (Ascii.eqb b c); [discriminate|].
    destruct (first_index c s); [discriminate|].
    specialize (IH eq_refl Ha).
    now destruct (first_index c (s +:+ String a "")).
Qed.

(** No piece holds the separator. *)
Lemma split_on_pieces (c : ascii) (s : string) :
  forall cur, occurs c cur = false ->
    Forall (fun piece => occurs c piece = false) (Net.split_on c cur s).
Proof.
  induction s as [|a s IH]; intros cur Hcur; cbn [Net.split_on].
  - now constructor.
  - destruct (Ascii.eqb a c) eqn:Hac.
    + constructor; [exact Hcur | now apply IH].
    + apply IH. now apply occurs_snoc.
Qed.

(** After a trailing separator comes an empty last piece. *)
Lemma split_on_last (c : ascii) (s : string) :
  forall cur, last (Net.split_on c cur (s +:+ String c "")) = Some "".
Proof.
  induction s as [|a s IH]; intros cur.
  - rewrite JSFacts.app_nil. cbn [Net.split_on]. rewrite Ascii.eqb_refl.
    reflexivity.
  - rewrite JSFacts.app_cons. cbn [Net.split_on].
    destruct (Ascii.eqb a c); [|apply IH].
    specialize (IH "").
    destruct (split_on_cons c (s +:+ String c "") "") as (p & ps & Hp).
    rewrite Hp in *. exact IH.
Qed.

(** X1: the list of fallback hosts read from the environment is never
    empty.  When PRIP is set and not empty, the hosts are its pieces
    between commas, as they are (spaces and empty pieces kept): joining
    them with commas gives PRIP back and no host contains a comma.  When
    PRIP is not set or empty, the only fallback host is the built-in
    one. *)
Theorem fallback_hosts_from_env (e : env) :
  CF_FALLBACK_IPS e <> [] /\
  (forall s : string,
      e "PRIP" = Some s -> s <> "" ->
      join "," (CF_FALLBACK_IPS e) = s /\
      Forall (fun h => occurs "," h = false) (CF_FALLBACK_IPS e)) /\
  (e "PRIP" = None \/ e "PRIP" = Some "" ->
   CF_FALLBACK_IPS e = ["ProxyIP.JP.CMLiussss.net"]).
Proof.
  unfold CF_FALLBACK_IPS, split. split; [|split].
  - destruct (e "PRIP") as [s|]; [|discriminate].
    destruct (truthy s); [|discriminate].
    destruct (split_on_cons "," s "") as (p & ps & ->). discriminate.
  - intros s -> Hs. destruct s as [|a s]; [contradiction|]. cbn [truthy].
    split; [apply (join_split_on "," (String a s) "")|].
    now apply split_on_pieces.
  - intros [-> | ->]; reflexivity.
Qed.

Lemma fallback_hosts_from_env_witness :
  let e : env := fun name => if String.eqb name "PRIP"
                             then Some "a.example, b.example,,10.0.0.1" else None in
  CF_FALLBACK_IPS e = ["a.example"; " b.example"; ""; "10.0.0.1"] /\
  join "," (CF_FALLBACK_IPS e) = "a.example, b.example,,10.0.0.1".
Proof.
  intros e. split; [reflexivity|].
  apply (proj1 (proj2 (fallback_hosts_from_env e))); [reflexivity | discriminate].
Defined.

(** X2: the token check cannot be switched off.  Whatever the
    environment, TOKEN is a non-empty string (an empty TOKEN variable gives
    the built-in token), and [verifyClient] accepts a client exactly when
    its sec-websocket-protocol header is present and equal to the token. *)
Theorem token_always_checked (doh : bool) (e : env) (protocol : option string) :
  truthy (TOKEN doh e) = true /\
  (verifyClient (TOKEN doh e) protocol = true <-> protocol = Some (TOKEN doh e)).
Proof.
  assert (Ht : truthy (TOKEN doh e) = true).
  { unfold TOKEN, or_default. destruct (e "TOKEN") as [[|c s]|]; cbn;
      try reflexivity; now destruct doh. }
  split; [exact Ht|]. unfold verifyClient. rewrite Ht. cbn [andb].
  destruct (decide (protocol = Some (TOKEN doh e))) as [Heq|Hne].
  - rewrite bool_decide_eq_true_2 by assumption. cbn. tauto.
  - rewrite bool_decide_eq_false_2 by assumption. cbn. split; [discriminate | tauto].
Qed.

(** X3: the HTTP listener compares the whole URL.  It answers 200
    only for the URL / and, in the variant with the resolver, for /stats;
    any other URL (a query string, a trailing slash, /stats in the first
    variant) gets 404 Not Found with no header. *)
Theorem only_exact_paths (doh : bool) (cache : gmap string Resolver.entry)
    (url : string) :
  (statusCode (requestListener doh cache url) = 200%Z /\
   (url = "/" \/ (doh = true /\ url = "/stats"))) \/
  (requestListener doh cache url
   = {| statusCode := 404; headers := []; body := "Not Found" |} /\
   url <> "/" /\ (doh = true -> url <> "/stats")).
Proof.
  unfold requestListener. destruct (String.eqb url "/") eqn:H1.
  - left. apply String.eqb_eq in H1. auto.
  - apply String.eqb_neq in H1. destruct doh; cbn [andb].
    + destruct (String.eqb url "/stats") eqn:H2.
      * left. apply String.eqb_eq in H2. auto.
      * right. apply String.eqb_neq in H2. auto.
    + right. repeat split; [assumption | discriminate].
Qed.

(** X4: what the HTTP listener answers depends on the DNS cache only
    through the number of its entries: two caches of the same size give
    the same answer to every URL, so no cached name or address is shown. *)
Theorem stats_show_size_only (doh : bool) (c1 c2 : gmap string Resolver.entry)
    (url : string) :
  size c1 = size c2 ->
  requestListener doh c1 url = requestListener doh c2 url.
Proof.
  intros H. unfold requestListener, stats. now rewrite H.
Qed.

Lemma stats_show_size_only_witness :
  requestListener true
    {[ "a.example" := {| Resolver.ip := "192.0.2.1"; Resolver.timestamp := 5%Z |} ]}
    "/stats"
  = requestListener true
      {[ "b.example" := {| Resolver.ip := "192.0.2.2"; Resolver.timestamp := 9%Z |} ]}
      "/stats".
Proof. apply stats_show_size_only. reflexivity. Defined.

End ServerFacts.

(** ** Addresses that are not well formed, and the errors that are retried *)
Module AddressFacts.
Import JS.

Lemma lastIndexOf_absent (c : ascii) (s : string) :
  occurs c s = false -> lastIndexOf s c = (-1)%Z.
Proof.
  intros H. unfold lastIndexOf.
  now rewrite (JSFacts.first_index_none_last c s (JSFacts.occurs_false c s H)).
Qed.

Lemma substring_from_0 (s : string) : substring_from s 0 = s.
Proof.
  unfold substring_from. change 0%Z with (Z.of_nat 0).
  rewrite JSFacts.substring_nat by lia. cbn [drop].
  apply JSFacts.take_all. lia.
Qed.

(** An address with no colon (and no leading bracket) has an empty host,
    and the whole address is read as the port. *)
Lemma parse_no_colon (addr : string) :
  head_is addr "[" = false -> occurs ":" addr = false ->
  parseAddress addr = {| host := ""; port := parseInt10 addr |}.
Proof.
  intros Hhead Hcolon. unfold parseAddress.
  rewrite Hhead, (lastIndexOf_absent _ _ Hcolon). f_equal.
  - unfold substring. rewrite !JSFacts.clamp_neg by lia. reflexivity.
  - f_equal. apply substring_from_0.
Qed.

(** X5: addresses that are not well formed are parsed without an
    error.  An address with no colon and no leading bracket gives the
    empty host, and the whole address is read as the port.  An address
    that begins with a bracket that is never closed gives the host made
    of that bracket, and what follows the bracket is read as the port. *)
Theorem parseAddress_malformed :
  (forall addr : string,
      head_is addr "[" = false -> occurs ":" addr = false ->
      parseAddress addr = {| host := ""; port := parseInt10 addr |}) /\
  (forall rest : string,
      occurs "]" rest = false ->
      parseAddress ("[" +:+ rest) = {| host := "["; port := parseInt10 rest |}).
Proof.
  split; [exact parse_no_colon|].
  intros rest Hrest. unfold parseAddress.
  change ("[" +:+ rest) with (String "[" rest). cbn [head_is].
  change (Ascii.eqb "[" "[") with true. cbv iota.
  assert (Hend : indexOf (String "[" rest) "]" 0 = (-1)%Z).
  { unfold indexOf. rewrite JSFacts.clamp_neg by lia. cbn [drop first_index].
    change (Ascii.eqb "[" "]") with false. cbv iota.
    now rewrite (JSFacts.occurs_false _ _ Hrest). }
  rewrite Hend. f_equal.
  - unfold substring. rewrite (JSFacts.clamp_neg _ (-1)) by lia.
    change 1%Z with (Z.of_nat 1). rewrite JSFacts.clamp_nat.
    reflexivity.
  - f_equal. unfold substring_from. change (-1 + 2)%Z with (Z.of_nat 1).
    rewrite JSFacts.substring_nat by (simpl; lia).
    simpl drop. simpl String.length.
    replace (S (String.length rest) - 1)%nat with (String.length rest) by lia.
    apply JSFacts.take_all. lia.
Qed.

Lemma parseAddress_malformed_witness :
  parseAddress "8080" = {| host := ""; port := parseInt10 "8080" |} /\
  parseAddress ("[" +:+ "::1:443")
  = {| host := "["; port := parseInt10 "::1:443" |}.
Proof.
  split.
  - apply (proj1 parseAddress_malformed); reflexivity.
  - apply (proj2 parseAddress_malformed). reflexivity.
Defined.

Lemma toLowerCase_app (a b : string) :
  toLowerCase (a +:+ b) = toLowerCase a +:+ toLowerCase b.
Proof.
  induction a as [|c a IH]; [reflexivity|].
  rewrite JSFacts.app_cons. cbn [toLowerCase].
  now rewrite JSFacts.app_cons, IH.
Qed.

Lemma prefix_app (n b : string) : String.prefix n (n +:+ b) = true.
Proof.
  induction n as [|c n IH]; [now destruct b|].
  rewrite JSFacts.app_cons. cbn [String.prefix].
  destruct (ascii_dec c c); [exact IH | contradiction].
Qed.

Lemma includes_unfold (s needle : string) :
  includes s needle
  = String.prefix needle s ||
    match s with EmptyString => false | String _ s' => includes s' needle end.
Proof. now destruct s. Qed.

(** A string includes what stands anywhere inside it. *)
Lemma includes_app (a n b : string) : includes (a +:+ n +:+ b) n = true.
Proof.
  induction a as [|c a IH].
  - rewrite JSFacts.app_nil, includes_unfold, prefix_app. reflexivity.
  - rewrite JSFacts.app_cons, includes_unfold, IH. apply orb_true_r.
Qed.

(** X6: an error is retried when its message holds one of the four
    markers (proxy request, cannot connect, econnrefused, etimedout)
    anywhere in it, in any mix of upper and lower case. *)
Theorem isCFError_any_case (before marker after : string) :
  In (toLowerCase marker)
     ["proxy request"; "cannot connect"; "econnrefused"; "etimedout"] ->
  isCFError (Error (before +:+ marker +:+ after)) = true.
Proof.
  intros Hin. unfold isCFError, Error.
  cbn [message fmap option_fmap option_map default]. cbv zeta. unfold id.
  rewrite !toLowerCase_app.
  pose proof (includes_app (toLowerCase before) (toLowerCase marker)
                (toLowerCase after)) as Hinc.
  destruct Hin as [H|[H|[H|[H|[]]]]]; rewrite <- H in Hinc |- *; rewrite Hinc;
    rewrite ?orb_true_r; reflexivity.
Qed.

Lemma isCFError_any_case_witness :
  isCFError (Error ("connect " +:+ "ECONNREFUSED" +:+ " 192.0.2.1:443")) = true.
Proof. apply isCFError_any_case. vm_compute. tauto. Defined.

End AddressFacts.

(** ** The resolver: order of the lookups, failures, and what the cache keeps *)
Module ResolverLaws.
Import Resolver Trace.

Local Open Scope nat_scope.

Section Laws.

Variable isIP : string -> nat.
Variable world : network.

(** The loop over the servers either gets no answer, having asked every
    server and left the cache as it was, or stops at the first server
    that answers and caches what it got under the clock of that
    moment. *)
Lemma try_servers_cases (servers : list string) (h : string) :
  forall st : rstate,
    let r := try_servers world servers h st in
    (r.1 = None /\ dnsCache r.2 = dnsCache st /\
     lookups r.2
     = lookups st ++ ((fun srv => HttpsGet (doh_url srv h)) <$> servers)) \/
    (exists ip_ k,
        r.1 = Some ip_ /\ k < length servers /\
        lookups r.2
        = lookups st ++ take (S k) ((fun srv => HttpsGet (doh_url srv h)) <$> servers) /\
        dnsCache r.2
        = <[h := {| ip := ip_; timestamp := now r.2 |}]> (dnsCache st)).
Proof.
  induction servers as [|srv servers IH]; intros st r.
  - left. subst r. cbn. now rewrite app_nil_r.
  - subst r. cbn [try_servers]. unfold mbind, M_bind, queryDoH. cbv zeta.
    destruct (https_get world (doh_url srv h) (now st)) as [reply d].
    set (st1 := {| dnsCache := dnsCache st; now := (now st + d)%Z;
                   lookups := lookups st ++ [HttpsGet (doh_url srv h)] |}).
    assert (Hnext :
      (let r := try_servers world servers h st1 in
       (r.1 = None /\ dnsCache r.2 = dnsCache st /\
        lookups r.2
        = lookups st ++ ((fun srv => HttpsGet (doh_url srv h)) <$> srv :: servers)) \/
       (exists ip_ k,
           r.1 = Some ip_ /\ k < length (srv :: servers) /\
           lookups r.2
           = lookups st ++ take (S k)
               ((fun srv => HttpsGet (doh_url srv h)) <$> srv :: servers) /\
           dnsCache r.2
           = <[h := {| ip := ip_; timestamp := now r.2 |}]> (dnsCache st)))).
    { destruct (IH st1) as [(H1 & H2 & H3) | (v & k & H1 & H2 & H3 & H4)].
      - left. split; [exact H1|]. split; [exact H2|].
        rewrite H3. cbn. now rewrite <- app_assoc.
      - right. exists v, (S k). split; [exact H1|]. split; [cbn; lia|].
        split; [|exact H4]. rewrite H3. cbn. now rewrite <- app_assoc. }
    destruct (settle reply) as [v|err]; [|exact Hnext].
    destruct (JS.truthy v); [|exact Hnext].
    right. exists v, 0. cbn. split; [reflexivity|]. split; [lia|].
    split; reflexivity.
Qed.

Lemma system_dns_cases (h : string) (st : rstate) :
  let r := system_dns world h st in
  lookups r.2 = lookups st ++ [SystemQuery h] /\
  ((r.1 = Rejected (Error ("Failed to resolve " +:+ h)) /\
    dnsCache r.2 = dnsCache st) \/
   (exists ip_,
       r.1 = Fulfilled ip_ /\
       dnsCache r.2 = <[h := {| ip := ip_; timestamp := now r.2 |}]> (dnsCache st))).
Proof.
  unfold system_dns, mbind, M_bind, await_resolve4.
  destruct (resolve4 world h (now st)) as [[[|a l]|err] d]; cbn;
    (split; [reflexivity|]); [left | right | left]; try (now split).
  now exists a.
Qed.

(** After a miss: an answer, cached, after one to four lookups in the
    order of [chain]; or the failure, after all four, with the cache as
    it was. *)
Lemma lookup_chain_cases (h : string) (st : rstate) :
  let r := lookup_chain world h st in
  (exists ip_ k,
      r.1 = Fulfilled ip_ /\ 1 <= k <= 4 /\
      lookups r.2 = lookups st ++ take k (chain h) /\
      dnsCache r.2 = <[h := {| ip := ip_; timestamp := now r.2 |}]> (dnsCache st)) \/
  (r.1 = Rejected (Error ("Failed to resolve " +:+ h)) /\
   lookups r.2 = lookups st ++ chain h /\
   dnsCache r.2 = dnsCache st).
Proof.
  unfold lookup_chain, mbind, M_bind.
  destruct (try_servers_cases DOH_SERVERS h st)
    as [(H1 & H2 & H3) | (v & k & H1 & H2 & H3 & H4)];
    destruct (try_servers world DOH_SERVERS h st) as [r1 st1];
    cbn [fst snd] in *; subst r1.
  - destruct (system_dns_cases h st1) as [Hl [[Hr Hc] | (v & Hr & Hc)]].
    + right. split; [exact Hr|]. split; [|congruence].
      rewrite Hl, H3. unfold chain. now rewrite <- app_assoc.
    + left. exists v, 4. split; [exact Hr|]. split; [lia|].
      split; [|congruence].
      rewrite Hl, H3. unfold chain. now rewrite <- app_assoc.
  - left. exists v, (S k). cbn [mret M_ret fst snd].
    split; [reflexivity|].
    change (length DOH_SERVERS) with 3 in H2. split; [lia|].
    split; [|exact H4].
    rewrite H3. f_equal. unfold chain.
    rewrite take_app_le; [reflexivity|]. rewrite length_fmap.
    change (length DOH_SERVERS) with 3. lia.
Qed.

(** What a call of [resolveDoH] is: an answer with no lookup and no
    change (a cache hit, or an IP address), or the chain of lookups. *)
Lemma resolveDoH_cases (h : string) (st : rstate) :
  (exists ip_, resolveDoH isIP world h st = (Fulfilled ip_, st)) \/
  (hit (dnsCache st !! h) (now st) = None /\ isIP h = 0 /\
   resolveDoH isIP world h st = lookup_chain world h st).
Proof.
  unfold resolveDoH, mbind, M_bind, cache_get, date_now.
  destruct (hit (dnsCache st !! h) (now st)) as [v|]; [left; now exists v|].
  destruct (isIP h) as [|n]; [right; now repeat split|].
  left. now exists h.
Qed.

Lemma sent_at_0 (ls : list lookup) (t : Z) : sent_at world ls t 0 = t.
Proof. now destruct ls. Qed.

Lemma sent_at_app (ls ls' : list lookup) :
  forall (t : Z) (i : nat),
    i <= length ls -> sent_at world (ls ++ ls') t i = sent_at world ls t i.
Proof.
  induction ls as [|l ls IH]; intros t i Hi.
  - cbn in Hi. replace i with 0 by lia. now destruct ls'.
  - destruct i as [|i]; [reflexivity|]. cbn in *. apply IH. lia.
Qed.

Lemma sent_at_snoc (ls : list lookup) (l : lookup) :
  forall t : Z,
    sent_at world (ls ++ [l]) t (S (length ls))
    = (sent_at world ls t (length ls)
       + duration world l (sent_at world ls t (length ls)))%Z.
Proof.
  induction ls as [|a ls IH]; intros t; [reflexivity|]. cbn. apply IH.
Qed.

(** The loop over the servers asks them one after the other, each when
    the one before has brought no answer, and stops at the first answer. *)
Lemma try_servers_trace (servers : list string) (h : string) :
  forall st : rstate,
    let r := try_servers world servers h st in
    let ls := (fun srv => HttpsGet (doh_url srv h)) <$> servers in
    exists k,
      k <= length servers /\
      lookups r.2 = lookups st ++ take k ls /\
      now r.2 = sent_at world ls (now st) k /\
      (forall i l, S i < k -> ls !! i = Some l ->
                   reply world l (sent_at world ls (now st) i) = None) /\
      match r.1 with
      | Some ip_ =>
          exists i l, k = S i /\ ls !! i = Some l /\
                      reply world l (sent_at world ls (now st) i) = Some ip_
      | None =>
          k = length servers /\
          forall i l, i < k -> ls !! i = Some l ->
                      reply world l (sent_at world ls (now st) i) = None
      end.
Proof.
  induction servers as [|srv servers IH]; intros st r ls.
  - exists 0. subst r ls. cbn. rewrite app_nil_r.
    repeat split; try lia; intros i l Hi; lia.
  - subst r ls. cbn [try_servers fmap list_fmap].
    unfold mbind, M_bind, queryDoH. cbv zeta.
    set (url := doh_url srv h).
    set (ls := (fun srv => HttpsGet (doh_url srv h)) <$> servers).
    assert (Hreply : reply world (HttpsGet url) (now st)
                     = match settle (https_get world url (now st)).1 with
                       | Fulfilled ip_ => if JS.truthy ip_ then Some ip_ else None
                       | Rejected _ => None
                       end) by reflexivity.
    assert (Hdur : duration world (HttpsGet url) (now st)
                   = (https_get world url (now st)).2) by reflexivity.
    destruct (https_get world url (now st)) as [answer d]. cbn [fst snd] in *.
    set (st1 := {| dnsCache := dnsCache st; now := (now st + d)%Z;
                   lookups := lookups st ++ [HttpsGet url] |}).
    assert (Hnext :
      let r := try_servers world servers h st1 in
      reply world (HttpsGet url) (now st) = None ->
      exists k,
        k <= length (srv :: servers) /\
        lookups r.2 = lookups st ++ take k (HttpsGet url :: ls) /\
        now r.2 = sent_at world (HttpsGet url :: ls) (now st) k /\
        (forall i l, S i < k -> (HttpsGet url :: ls) !! i = Some l ->
           reply world l (sent_at world (HttpsGet url :: ls) (now st) i) = None) /\
        match r.1 with
        | Some ip_ =>
            exists i l, k = S i /\ (HttpsGet url :: ls) !! i = Some l /\
              reply world l (sent_at world (HttpsGet url :: ls) (now st) i)
              = Some ip_
        | None =>
            k = length (srv :: servers) /\
            forall i l, i < k -> (HttpsGet url :: ls) !! i = Some l ->
              reply world l (sent_at world (HttpsGet url :: ls) (now st) i) = None
        end).
    { intros r Hnone. subst r.
      destruct (IH st1) as (k & Hk & Hl & Hn & Hbefore & Hlast).
      fold ls in Hl, Hn, Hbefore, Hlast.
      assert (Hsent : forall i,
        sent_at world (HttpsGet url :: ls) (now st) (S i)
        = sent_at world ls (now st1) i).
      { intros i. cbn [sent_at]. now rewrite Hdur. }
      exists (S k). split; [cbn; lia|]. split.
      { rewrite Hl. cbn. now rewrite <- app_assoc. }
      split; [now rewrite Hsent|]. split.
      { intros [|i] l Hi Hlook.
        - cbn in Hlook. injection Hlook as <-. exact Hnone.
        - rewrite Hsent. apply Hbefore; [lia | exact Hlook]. }
      destruct (try_servers world servers h st1).1 as [v|].
      - destruct Hlast as (i & l & -> & Hlook & Hrep).
        exists (S i), l. split; [reflexivity|]. split; [exact Hlook|].
        now rewrite Hsent.
      - destruct Hlast as [-> Hall]. split; [reflexivity|].
        intros [|i] l Hi Hlook.
        + cbn in Hlook. injection Hlook as <-. exact Hnone.
        + rewrite Hsent. apply Hall; [cbn in Hi; lia | exact Hlook]. }
    cbv zeta in Hnext.
    destruct (settle answer) as [v|err]; [|now apply Hnext].
    destruct (JS.truthy v); [|now apply Hnext].
    exists 1. split; [cbn; lia|]. split; [reflexivity|].
    split; [cbn [sent_at]; now rewrite Hdur, sent_at_0|].
    split; [intros i l Hi; lia|].
    exists 0, (HttpsGet url). repeat split. exact Hreply.
Qed.

(** X7: a call of [resolveDoH] sends its lookups one at a time, in
    the order dns.google, cloudflare-dns.com, 1.1.1.1, system resolver,
    each one when the one before it has ended.  It sends none when the
    cache has a fresh entry or the name is an IP address, and at least one
    otherwise.  It goes on exactly as long as no answer comes: every
    lookup before the last one sent has brought no answer, and the last
    one sent has brought the address the call returns, or it is the
    fourth one and the call fails. *)
Theorem lookups_in_order (h : string) (st : rstate) :
  let r := resolveDoH isIP world h st in
  let sent := sent_at world (chain h) (now st) in
  exists k,
    k <= 4 /\
    lookups r.2 = lookups st ++ take k (chain h) /\
    now r.2 = sent k /\
    (k = 0 <-> hit (dnsCache st !! h) (now st) <> None \/ isIP h <> 0) /\
    (forall i l, S i < k -> chain h !! i = Some l ->
                 reply world l (sent i) = None) /\
    (forall i l, S i = k -> chain h !! i = Some l ->
       match reply world l (sent i) with
       | Some ip_ => r.1 = Fulfilled ip_
       | None => k = 4 /\ r.1 = Rejected (Error ("Failed to resolve " +:+ h))
       end).
Proof.
  intros r sent. subst r.
  unfold resolveDoH, mbind, M_bind, cache_get, date_now. cbv zeta.
  destruct (hit (dnsCache st !! h) (now st)) as [v|] eqn:Hhit.
  { exists 0. cbn. rewrite app_nil_r. repeat split; try lia;
      try (intros i l Hi; lia). intros _. now left. }
  destruct (isIP h) as [|n] eqn:Hip.
  2:{ exists 0. cbn. rewrite app_nil_r. repeat split; try lia;
        try (intros i l Hi; lia); intros _; now right. }
  cbn [Nat.eqb negb].
  assert (Hmiss : forall k, S k = 0 <-> None <> @None string \/ 0 <> 0).
  { intros k. split; [discriminate | intros [H|H]; contradiction]. }
  unfold lookup_chain, mbind, M_bind.
  set (ls := (fun srv => HttpsGet (doh_url srv h)) <$> DOH_SERVERS).
  assert (Hchain : chain h = ls ++ [SystemQuery h]) by reflexivity.
  assert (Hlen : length ls = 3) by reflexivity.
  destruct (try_servers_trace DOH_SERVERS h st)
    as (k & Hk & Hl & Hn & Hbefore & Hlast).
  fold ls in Hl, Hn, Hbefore, Hlast.
  change (length DOH_SERVERS) with 3 in *.
  assert (Hsent : forall i, i <= 3 -> sent i = sent_at world ls (now st) i).
  { intros i Hi. unfold sent. rewrite Hchain. apply sent_at_app. lia. }
  assert (Hlook : forall i, i < 3 -> chain h !! i = ls !! i).
  { intros i Hi. rewrite Hchain. apply lookup_app_l. lia. }
  destruct (try_servers world DOH_SERVERS h st) as [[v|] st1]; cbn [fst snd] in *.
  - destruct Hlast as (i & l & -> & Hli & Hrep).
    assert (Hi3 : i < 3) by lia. cbn [mret M_ret fst snd].
    exists (S i). split; [lia|]. split.
    { rewrite Hl, Hchain. f_equal. rewrite take_app_le by lia. reflexivity. }
    split; [rewrite Hsent by lia; exact Hn|]. split; [apply Hmiss|]. split.
    + intros j l' Hj Hl'. rewrite Hsent by lia. apply Hbefore; [exact Hj|].
      now rewrite <- Hlook by lia.
    + intros j l' [= ->] Hl'. rewrite Hlook in Hl' by lia.
      replace l' with l by congruence.
      rewrite Hsent by lia. now rewrite Hrep.
  - destruct Hlast as [-> Hall].
    assert (Hsys : chain h !! 3 = Some (SystemQuery h)) by reflexivity.
    assert (Hrep : reply world (SystemQuery h) (now st1)
                   = match (resolve4 world h (now st1)).1 with
                     | Fulfilled (ip_ :: _) => Some ip_
                     | _ => None
                     end) by reflexivity.
    assert (Hdur : duration world (SystemQuery h) (now st1)
                   = (resolve4 world h (now st1)).2) by reflexivity.
    assert (Hs3 : sent 3 = now st1) by (rewrite Hsent by lia; congruence).
    assert (Hs4 : sent 4 = (now st1 + duration world (SystemQuery h) (now st1))%Z).
    { unfold sent. rewrite Hchain, Hn. apply (sent_at_snoc ls). }
    unfold system_dns, mbind, M_bind, await_resolve4.
    destruct (resolve4 world h (now st1)) as [res d]. cbn [fst snd] in *.
    exists 4. split; [lia|].
    assert (Hlk : forall x, lookups
        (match res with
         | Fulfilled (ip_ :: _) =>
             (x ← date_now; cache_set h {| ip := ip_; timestamp := x |};;
                            mret (Fulfilled ip_))
         | _ => mret (Rejected (Error ("Failed to resolve " +:+ h)))
         end x).2 = lookups x).
    { intros x. destruct res as [[|a rest]|e]; reflexivity. }
    assert (Hnow : forall x, now
        (match res with
         | Fulfilled (ip_ :: _) =>
             (x ← date_now; cache_set h {| ip := ip_; timestamp := x |};;
                            mret (Fulfilled ip_))
         | _ => mret (Rejected (Error ("Failed to resolve " +:+ h)))
         end x).2 = now x).
    { intros x. destruct res as [[|a rest]|e]; reflexivity. }
    split.
    { unfold mbind, M_bind in Hlk. rewrite Hlk. cbn [lookups].
      rewrite Hl, Hchain, <- app_assoc. reflexivity. }
    split.
    { unfold mbind, M_bind in Hnow. rewrite Hnow. cbn [now].
      rewrite Hs4, Hdur. reflexivity. }
    split; [apply Hmiss|]. split.
    + intros j l' Hj Hl'. rewrite Hsent by lia. apply Hall; [lia|].
      now rewrite <- Hlook by lia.
    + intros j l' [= ->] Hl'. replace l' with (SystemQuery h) by congruence.
      rewrite Hs3, Hrep.
      destruct res as [[|a rest]|e]; cbn; auto.
Qed.

(** X8: when [resolveDoH] fails, the error is Failed to resolve
    followed by the name, whatever the servers and the system resolver
    answered; the four lookups have all been sent, and the cache is as it
    was: failures are not cached. *)
Theorem failure_is_not_cached (h : string) (st : rstate) (err : jserror) :
  (resolveDoH isIP world h st).1 = Rejected err ->
  err = Error ("Failed to resolve " +:+ h) /\
  dnsCache (resolveDoH isIP world h st).2 = dnsCache st /\
  lookups (resolveDoH isIP world h st).2 = lookups st ++ chain h.
Proof.
  destruct (resolveDoH_cases h st) as [[v ->] | (_ & _ & ->)]; [discriminate|].
  destruct (lookup_chain_cases h st)
    as [(v & k & Hr & _) | (Hr & Hl & Hc)]; rewrite Hr; [discriminate|].
  intros [= <-]. now repeat split.
Qed.


(** X10: a call of [resolveDoH] changes at most the cache entry of
    the name it is called with.  The entries of other names are as they
    were, an entry is never removed (a stale one is replaced), and the
    size of the cache grows by one at most. *)
Theorem cache_never_shrinks (h : string) (st : rstate) :
  let st1 := (resolveDoH isIP world h st).2 in
  (forall name, name <> h -> dnsCache st1 !! name = dnsCache st !! name) /\
  (is_Some (dnsCache st !! h) -> is_Some (dnsCache st1 !! h)) /\
  size (dnsCache st) <= size (dnsCache st1) <= S (size (dnsCache st)).
Proof.
  intros st1. subst st1.
  assert (Hc : dnsCache (resolveDoH isIP world h st).2 = dnsCache st \/
               exists e, dnsCache (resolveDoH isIP world h st).2
                         = <[h := e]> (dnsCache st)).
  { destruct (resolveDoH_cases h st) as [[v ->] | (_ & _ & ->)]; [now left|].
    destruct (lookup_chain_cases h st)
      as [(w & k & _ & _ & _ & Hc) | (_ & _ & Hc)]; [right | now left].
    eexists. exact Hc. }
  destruct Hc as [-> | (e & ->)].
  - repeat split; auto; lia.
  - split; [|split].
    + intros name Hne. apply lookup_insert_ne. congruence.
    + intros _. rewrite lookup_insert_eq. now eexists.
    + destruct (dnsCache st !! h) as [e0|] eqn:He.
      * rewrite map_size_insert_Some by (eapply mk_is_Some, He). lia.
      * rewrite map_size_insert_None by assumption. lia.
Qed.

(** X11: [queryDoH] sends one request, to the URL made of the server,
    ?name=, the name and &type=A, and fulfils with the data of the first
    answer of type 1: answers of other types before it are skipped and
    what comes after it is not read.  A reply with no answer, or with no
    answer of type 1, is rejected with No A record found. *)
Theorem first_A_record (srv h : string) (st : rstate) (d : Z) :
  (forall (before after : list answer) (a : answer),
      https_get world (doh_url srv h) (now st)
      = (Json (Some (before ++ a :: after)), d) ->
      Forall (fun x => a_type x <> 1%Z) before -> a_type a = 1%Z ->
      queryDoH world srv h st
      = (Fulfilled (a_data a),
         {| dnsCache := dnsCache st; now := (now st + d)%Z;
            lookups := lookups st
                         ++ [HttpsGet (srv +:+ "?name=" +:+ h +:+ "&type=A")] |})) /\
  (forall answers : list answer,
      https_get world (doh_url srv h) (now st) = (Json (Some answers), d) ->
      Forall (fun x => a_type x <> 1%Z) answers ->
      (queryDoH world srv h st).1 = Rejected (Error "No A record found")) /\
  (https_get world (doh_url srv h) (now st) = (Json None, d) ->
   (queryDoH world srv h st).1 = Rejected (Error "No A record found")).
Proof.
  unfold queryDoH. cbv zeta. split; [|split].
  - intros before after a -> Hb Ha. cbn [settle]. f_equal.
    induction Hb as [|x before Hx _ IH]; cbn.
    + now rewrite Ha.
    + apply Z.eqb_neq in Hx. rewrite Hx. exact IH.
  - intros answers -> Hall. cbn [settle fst].
    induction Hall as [|x answers Hx _ IH]; cbn; [reflexivity|].
    apply Z.eqb_neq in Hx. rewrite Hx. exact IH.
  - intros ->. reflexivity.
Qed.

End Laws.

Lemma failure_is_not_cached_witness :
  let st := {| dnsCache := ∅; now := 1000%Z; lookups := [] |} in
  let r := resolveDoH Net.isIP_v4 dead_world "h.example" st in
  Error "Failed to resolve h.example" = Error ("Failed to resolve " +:+ "h.example") /\
  dnsCache r.2 = ∅ /\
  lookups r.2 = [] ++ chain "h.example".
Proof.
  intros st r.
  apply (failure_is_not_cached Net.isIP_v4 dead_world "h.example" st).
  vm_compute. reflexivity.
Defined.


Lemma cache_never_shrinks_witness :
  let st := {| dnsCache := {[ "a.example" := {| ip := "192.0.2.1"; timestamp := 0%Z |} ]};
               now := 1000%Z; lookups := [] |} in
  let st1 := (resolveDoH Net.isIP_v4 live_world "example.com" st).2 in
  dnsCache st1 !! "a.example" = dnsCache st !! "a.example".
Proof.
  intros st st1.
  apply (proj1 (cache_never_shrinks Net.isIP_v4 live_world "example.com" st)).
  discriminate.
Defined.

Lemma first_A_record_witness :
  queryDoH live_world "https://dns.google/dns-query" "example.com"
    {| dnsCache := ∅; now := 1000%Z; lookups := [] |}
  = (Fulfilled "93.184.216.34",
     {| dnsCache := ∅; now := (1000 + 30)%Z;
        lookups := [] ++ [HttpsGet ("https://dns.google/dns-query" +:+ "?name="
                                     +:+ "example.com" +:+ "&type=A")] |}).
Proof.
  apply (proj1 (first_A_record live_world "https://dns.google/dns-query"
                  "example.com" {| dnsCache := ∅; now := 1000%Z; lookups := [] |}
                  30%Z)
           [ {| a_type := 5; a_data := "edge.example.net." |} ] []
           {| a_type := 1; a_data := "93.184.216.34" |}).
  - reflexivity.
  - repeat constructor. discriminate.
  - reflexivity.
Defined.

End ResolverLaws.

(** ** Invariants of the event loop

    The session's code is made of a few operations on the state.  A
    property that each of them keeps is kept by every listener and by
    every turn of the event loop, whatever the events are. *)
Module Invariants.
Import Trace SessionFacts.

Local Open Scope nat_scope.

Section Rule.

Context (cfg : config) (I : state -> Prop).

Hypothesis I_update : forall s f st, I st -> I (update_socket s f st).
Hypothesis I_resolving : forall l st, I st -> I (set_resolving l st).
Hypothesis I_ready : forall r st, r <> OPEN -> I st -> I (set_readyState r st).
Hypothesis I_ask : forall rid h st, I st -> I (emit (ResolveCall rid h) st).
Hypothesis I_send : forall d, notice d -> keeps I (ws_send cfg d).
Hypothesis I_cleanup : keeps I cleanup.
Hypothesis I_release : keeps I release_remote.
Hypothesis I_forward : forall d, keeps I (forward d).
Hypothesis I_write : forall d, keeps I (remote_write d).
Hypothesis I_dial : forall fr h, keeps I (dial fr h).

Lemma rule_on_data (chunk : string) : keeps I (on_data cfg (Buf chunk)).
Proof.
  unfold on_data. apply keeps_bind; [apply keeps_get|]. intros c.
  apply keeps_bind; [apply keeps_get|]. intros r.
  destruct c, r; try apply keeps_ret.
  apply keeps_try_catch; [|intros _; exact I_cleanup].
  apply I_send. right. right. right. now exists chunk.
Qed.

Lemma rule_on_end : keeps I (on_end cfg).
Proof.
  unfold on_end. apply keeps_bind; [apply keeps_get|]. intros [|];
    [apply keeps_ret|].
  apply keeps_bind; [|intros _; exact I_cleanup].
  apply keeps_swallow, I_send. right. now left.
Qed.

Lemma rule_pump (r : option sock) : keeps I (pumpRemoteToWebSocket r).
Proof.
  destruct r as [s|]; cbn [pumpRemoteToWebSocket]; [|apply keeps_throw].
  apply keeps_modify. intros st. apply (I_update s add_pump).
Qed.

Lemma rule_attempt (fr : frame) : keeps I (attempt cfg fr).
Proof.
  unfold attempt. cbv zeta.
  destruct (with_doh cfg && (isIP cfg (targetHost cfg fr) =? 0));
    [|apply I_dial].
  unfold await_resolveDoH. apply keeps_bind; [apply keeps_get|]. intros rid.
  apply keeps_bind; [apply keeps_modify; intros st; apply I_resolving|].
  intros _. apply keeps_bind; [|intros _; apply keeps_ret].
  apply keeps_modify. intros st. apply I_ask.
Qed.

Lemma rule_connected (fr : frame) : keeps I (connected cfg fr).
Proof.
  unfold connected. apply keeps_bind.
  { destruct (JS.truthy (fr_first fr)); [apply I_write | apply keeps_ret]. }
  intros _. apply keeps_bind; [apply I_send; now left|].
  intros _. apply keeps_bind; [apply keeps_get|]. intros r.
  apply keeps_bind; [apply rule_pump | intros _; apply keeps_ret].
Qed.

Lemma rule_catch_block (next : frame -> code wait) (fr : frame) (err : jserror) :
  (forall fr', keeps I (next fr')) ->
  keeps I (catch_block cfg next fr err).
Proof.
  intros Hnext. unfold catch_block.
  apply keeps_bind; [exact I_release|]. intros _.
  destruct (negb (isCFError err) || (fr_i fr =? length (attempts cfg) - 1));
    [apply keeps_throw | apply Hnext].
Qed.

Lemma rule_loop (n : nat) : forall fr, keeps I (loop cfg n fr).
Proof.
  induction n as [|n IH]; intros fr; cbn [loop].
  - apply keeps_ret.
  - apply keeps_try_catch; [apply rule_attempt|].
    intros e. apply rule_catch_block, IH.
Qed.

Lemma rule_guarded (m : code wait) : keeps I m -> keeps I (guarded cfg m).
Proof.
  intros Hm. unfold guarded. apply keeps_try_catch.
  - apply keeps_bind; [exact Hm | intros _; apply keeps_ret].
  - intros err. apply keeps_bind; [|intros _; exact I_cleanup].
    apply keeps_swallow, I_send. right. right. left. now exists err.
Qed.

Lemma rule_onMessage (d : payload) : keeps I (onMessage cfg d).
Proof.
  unfold onMessage. apply keeps_bind; [apply keeps_get|]. intros [|];
    [apply keeps_ret|].
  apply rule_guarded. cbv zeta.
  destruct (JS.startsWith (toString d) "CONNECT:"); [apply rule_loop|].
  destruct (JS.startsWith (toString d) "DATA:");
    [apply keeps_bind; [apply I_forward | intros; apply keeps_ret]|].
  destruct (String.eqb (toString d) "CLOSE");
    [apply keeps_bind; [exact I_cleanup | intros; apply keeps_ret]|].
  destruct (is_buffer d); [|apply keeps_ret].
  apply keeps_bind; [apply I_forward | intros; apply keeps_ret].
Qed.

Lemma rule_pumps (n : nat) (h : code unit) (st : state) :
  keeps I h -> I st -> I (pumps n h st).
Proof.
  intros Hh Hst. unfold pumps. induction n as [|n IH]; [exact Hst|].
  change (Nat.iter (S n) (exec h) st) with (exec h (Nat.iter n (exec h) st)).
  apply keeps_exec; assumption.
Qed.

Lemma rule_resume (fr : frame) (m : code wait) :
  keeps I m -> keeps I (guarded cfg (try_catch m (catch_block cfg (rest cfg fr) fr))).
Proof.
  intros Hm. apply rule_guarded, keeps_try_catch; [exact Hm|].
  intros e. apply rule_catch_block. intros fr'. apply rule_loop.
Qed.

(** Every turn of the event loop keeps the property. *)
Lemma rule_step (ev : event) (st st' : state) :
  I st -> step cfg ev st = Some st' -> I st'.
Proof.
  intros Hst Hstep.
  destruct ev as [d| | | |rid r|s|s err|s chunk|s]; cbn [step] in Hstep.
  - destruct (readyState st); try discriminate; injection Hstep as <-;
      apply keeps_exec; auto using rule_onMessage.
  - destruct (readyState st); try discriminate. injection Hstep as <-.
    now apply I_ready.
  - destruct (readyState st); try discriminate; injection Hstep as <-;
      (apply keeps_exec; [exact I_cleanup | now apply I_ready]).
  - destruct (readyState st); try discriminate; injection Hstep as <-;
      (apply keeps_exec; [exact I_cleanup | now apply I_ready]).
  - destruct (resolving st !! rid) as [[[fr h]|]|]; try discriminate.
    injection Hstep as <-. apply keeps_exec; [|now apply I_resolving].
    unfold resume_resolved. apply rule_resume, I_dial.
  - destruct (sockets st !! s) as [k|]; [|discriminate].
    destruct (sk_phase k); try discriminate.
    destruct (sk_waiter k) as [fr|]; injection Hstep as <-;
      [|now apply I_update].
    apply keeps_exec; [|now apply I_update].
    unfold resume_connected. apply rule_resume, rule_connected.
  - destruct (sockets st !! s) as [k|]; [|discriminate].
    assert (H1 : I (pumps (sk_pumps k) on_error
                      (update_socket s
                         (fun k => set_waiter None (set_phase Destroyed k)) st))).
    { apply rule_pumps; [exact I_cleanup | now apply I_update]. }
    destruct (sk_phase k); try discriminate;
      destruct (sk_waiter k) as [fr|]; injection Hstep as <-; try exact H1;
      (apply keeps_exec; [|exact H1]; apply rule_guarded;
       unfold resume_failed; apply rule_catch_block; intros fr';
       apply rule_loop).
  - destruct (sockets st !! s) as [k|]; [|discriminate].
    destruct (sk_phase k), (sk_ended k); try discriminate.
    injection Hstep as <-. apply rule_pumps; [apply rule_on_data | exact Hst].
  - destruct (sockets st !! s) as [k|]; [|discriminate].
    destruct (sk_phase k), (sk_ended k); try discriminate.
    injection Hstep as <-.
    apply rule_pumps; [apply rule_on_end | now apply I_update].
Qed.

Lemma rule_run (evs : list event) :
  forall st st', I st -> run cfg evs st = Some st' -> I st'.
Proof.
  induction evs as [|ev evs IH]; intros st st' Hst Hrun.
  - now injection Hrun as <-.
  - rewrite run_step in Hrun.
    destruct (step cfg ev st) as [st1|] eqn:Hstep; [|discriminate].
    eapply IH; [|exact Hrun]. eapply rule_step; eassumption.
Qed.

End Rule.

(** *** What each operation does to the state *)
Section Shapes.

Context (cfg : config).

Lemma ws_send_cases (d : payload) (st : state) :
  (ws_send cfg d st).2 = st \/
  (readyState st = OPEN /\ (ws_send cfg d st).2 = emit (WsSend d) st) \/
  (readyState st <> OPEN /\ (ws_send cfg d st).2 = emit (WsDiscard d) st).
Proof.
  unfold ws_send. destruct st as [r c [| |] sk rsv l]; code;
    try (right; left; now split);
    destruct (send_throws cfg); cbn; try (now left);
    right; right; now split.
Qed.

Lemma safeClose_cases (st : state) :
  (readyState st = CLOSED /\ (safeCloseWebSocket st).2 = st) \/
  (safeCloseWebSocket st).2 = set_readyState CLOSING (emit WsClose st).
Proof.
  unfold safeCloseWebSocket. destruct st as [r c [| |] sk rsv l]; code;
    try (now left); now right.
Qed.

Lemma release_cases (st : state) :
  (release_remote st).2 = st \/
  exists s,
    remoteSocket st = Some s /\
    (release_remote st).2
    = set_remoteSocket None
        (update_socket s (set_phase Destroyed) (emit (SockDestroy s) st)).
Proof.
  unfold release_remote, sock_destroy. destruct st as [[s|] c r sk rsv l]; code;
    [right; now exists s | now left].
Qed.

Lemma cleanup_cases (st : state) :
  (cleanup st).2 = st \/
  (isClosed st = false /\
   (cleanup st).2
   = (safeCloseWebSocket (release_remote (set_isClosed true st)).2).2).
Proof.
  unfold cleanup. destruct st as [r [|] rs sk rsv l]; [now left|].
  right. split; [reflexivity|]. unfold mbind, code_bind, get, modify. cbn.
  destruct (release_remote _) as [[[]|e] st1] eqn:Hr; [reflexivity|].
  exfalso. unfold release_remote, sock_destroy in Hr.
  destruct r; code; discriminate.
Qed.

Lemma forward_cases (d : payload) (st : state) :
  (forward d st).2 = st \/
  exists s,
    remoteSocket st = Some s /\ destroyed s st = false /\
    (forward d st).2 = emit (SockWrite s d) st.
Proof.
  unfold forward, sock_write. destruct st as [[s|] c r sk rsv l]; code;
    [|now left].
  destruct (destroyed s _) eqn:Hd; [now left|].
  right. exists s. now repeat split.
Qed.

Lemma remote_write_cases (d : payload) (st : state) :
  (remote_write d st).2 = st \/
  exists s, remoteSocket st = Some s /\ (remote_write d st).2 = emit (SockWrite s d) st.
Proof.
  unfold remote_write, sock_write. destruct st as [[s|] c r sk rsv l]; code;
    [right; now exists s | now left].
Qed.

Lemma dial_cases (fr : frame) (h : string) (st : state) :
  (dial fr h st).2 = st \/ exists p, (dial fr h st).2 = opened fr h p st.
Proof.
  destruct (fr_port fr) as [p|] eqn:Hp; [destruct (valid_port p) eqn:Hv|].
  - right. exists p. now rewrite (dial_opens fr h p st).
  - left. unfold dial, net_connect. rewrite Hp, Hv. reflexivity.
  - left. unfold dial, net_connect. rewrite Hp. reflexivity.
Qed.

End Shapes.

(** The states an operation may leave, after the shape lemmas. *)
Ltac shapes st :=
  repeat match goal with
  | |- context [(ws_send ?c ?d st).2] =>
      destruct (ws_send_cases c d st) as [-> | [[? ->] | [? ->]]]
  | |- context [(cleanup st).2] =>
      destruct (cleanup_cases st) as [-> | [? ->]]
  | |- context [(release_remote ?s).2] =>
      destruct (release_cases s) as [-> | (? & ? & ->)]
  | |- context [(safeCloseWebSocket ?s).2] =>
      destruct (safeClose_cases s) as [[? ->] | ->]
  | |- context [(forward ?d st).2] =>
      destruct (forward_cases d st) as [-> | (? & ? & ? & ->)]
  | |- context [(remote_write ?d st).2] =>
      destruct (remote_write_cases d st) as [-> | (? & ? & ->)]
  | |- context [(dial ?fr ?h st).2] =>
      destruct (dial_cases fr h st) as [-> | (? & ->)]
  end.

Ltac fields :=
  cbn [emit opened set_remoteSocket set_isClosed set_readyState set_sockets
       set_resolving update_socket log isClosed readyState remoteSocket sockets]
    in *.

(** *** Four invariants *)
Section Kept.

Context (cfg : config).

Lemma closes_app (l l' : list action) : closes (l ++ l') = closes l + closes l'.
Proof. unfold closes. now rewrite flat_map_app, length_app. Qed.

Lemma closed_once_kept :
  forall evs st st',
    closed_once st -> run cfg evs st = Some st' -> closed_once st'.
Proof.
  apply rule_run; unfold keeps, closed_once; try (intros; assumption).
  - intros rid h st [H1 H2]. fields. rewrite closes_app. cbn. split; [lia|].
    intros Ho. rewrite H2 by assumption. reflexivity.
  - intros d _ st [H1 H2]. shapes st; fields; rewrite ?closes_app; cbn;
      (split; [lia|]); intros Ho; rewrite H2 by assumption; reflexivity.
  - intros st [H1 H2]. shapes st; [now split|..]; fields;
      rewrite ?closes_app, H2 by assumption; cbn; (split; [lia | discriminate]).
  - intros st [H1 H2]. shapes st; [now split|]. fields. rewrite closes_app.
    cbn. split; [lia|]. intros Ho. rewrite H2 by assumption. reflexivity.
  - intros d st [H1 H2]. shapes st; [now split|]. fields. rewrite closes_app.
    cbn. split; [lia|]. intros Ho. rewrite H2 by assumption. reflexivity.
  - intros d st [H1 H2]. shapes st; [now split|]. fields. rewrite closes_app.
    cbn. split; [lia|]. intros Ho. rewrite H2 by assumption. reflexivity.
  - intros fr h st [H1 H2]. shapes st; [now split|]. fields. rewrite closes_app.
    cbn. split; [lia|]. intros Ho. rewrite H2 by assumption. reflexivity.
Qed.

Lemma shut_kept :
  forall evs st st', shut st -> run cfg evs st = Some st' -> shut st'.
Proof.
  apply rule_run; unfold keeps, shut.
  - intros s f st Hs. exact Hs.
  - intros l st Hs. exact Hs.
  - intros r st Hr _ _. exact Hr.
  - intros rid h st Hs. exact Hs.
  - intros d _ st Hs. shapes st; fields; assumption.
  - intros st Hs. shapes st; [assumption|..]; fields; intros _; congruence.
  - intros st Hs. shapes st; fields; assumption.
  - intros d st Hs. shapes st; fields; assumption.
  - intros d st Hs. shapes st; fields; assumption.
  - intros fr h st Hs. shapes st; fields; assumption.
Qed.

Lemma silent_kept (l0 : list payload) :
  forall evs st st',
    silent l0 st -> run cfg evs st = Some st' -> silent l0 st'.
Proof.
  apply rule_run; unfold keeps, silent; try (intros; assumption).
  - intros r st Hr (H1 & H2 & H3). now repeat split.
  - intros rid h st (H1 & H2 & H3). fields. rewrite sends_app. cbn.
    rewrite app_nil_r. now repeat split.
  - intros d _ st (H1 & H2 & H3). shapes st; [now repeat split | contradiction|].
    fields. rewrite sends_app. cbn. rewrite app_nil_r. now repeat split.
  - intros st (H1 & H2 & H3). shapes st; [now repeat split|..]; congruence.
  - intros st (H1 & H2 & H3). shapes st; [now repeat split|]. fields.
    rewrite sends_app. cbn. rewrite app_nil_r. now repeat split.
  - intros d st (H1 & H2 & H3). shapes st; [now repeat split|]. fields.
    rewrite sends_app. cbn. rewrite app_nil_r. now repeat split.
  - intros d st (H1 & H2 & H3). shapes st; [now repeat split|]. fields.
    rewrite sends_app. cbn. rewrite app_nil_r. now repeat split.
  - intros fr h st (H1 & H2 & H3). shapes st; [now repeat split|]. fields.
    rewrite sends_app. cbn. rewrite app_nil_r. now repeat split.
Qed.

Lemma notices_kept :
  forall evs st st',
    Forall notice (sends (log st)) -> run cfg evs st = Some st' ->
    Forall notice (sends (log st')).
Proof.
  apply rule_run; unfold keeps; try (intros; assumption).
  - intros rid h st Hn. fields. rewrite sends_app. cbn. now rewrite app_nil_r.
  - intros d Hd st Hn. shapes st; [assumption|..]; fields; rewrite sends_app; cbn.
    + apply Forall_app. split; [assumption | now constructor].
    + now rewrite app_nil_r.
  - intros st Hn. shapes st; [assumption|..]; fields;
      rewrite ?sends_app; cbn; now rewrite ?app_nil_r.
  - intros st Hn. shapes st; [assumption|]. fields. rewrite sends_app. cbn.
    now rewrite app_nil_r.
  - intros d st Hn. shapes st; [assumption|]. fields. rewrite sends_app. cbn.
    now rewrite app_nil_r.
  - intros d st Hn. shapes st; [assumption|]. fields. rewrite sends_app. cbn.
    now rewrite app_nil_r.
  - intros fr h st Hn. shapes st; [assumption|]. fields. rewrite sends_app. cbn.
    now rewrite app_nil_r.
Qed.

(** One more action keeps the writes before the destroys, when it is
    no write to a socket destroyed so far. *)
Lemma writes_snoc (l : list action) (a : action) :
  writes_before_destroy l ->
  (forall s d, a = SockWrite s d -> s ∉ destroys l) ->
  writes_before_destroy (l ++ [a]).
Proof.
  intros Hl Ha l1 l2 s d Heq.
  destruct l2 as [|x l2 _] using rev_ind.
  - apply app_inj_tail in Heq as [-> ->]. now apply (Ha s d).
  - change (l1 ++ SockWrite s d :: l2 ++ [x])
      with (l1 ++ (SockWrite s d :: l2) ++ [x]) in Heq.
    rewrite app_assoc in Heq. apply app_inj_tail in Heq as [-> _].
    now apply (Hl l1 l2 s d).
Qed.

Lemma careful_kept :
  forall evs st st',
    careful st -> run cfg evs st = Some st' -> careful st'.
Proof.
  apply rule_run; unfold keeps, careful.
  - intros s f st [Ht Hw]. split; [now apply tidy_update | exact Hw].
  - intros l st [Ht Hw]. split; [now apply (tidy_field st) | exact Hw].
  - intros r st _ [Ht Hw]. split; [now apply (tidy_field st) | exact Hw].
  - intros rid h st [Ht Hw]. split; [now apply tidy_emit|].
    apply writes_snoc; [exact Hw | discriminate].
  - intros d _ st [Ht Hw]. split; [now apply keeps_ws_send|].
    shapes st; [exact Hw|..]; fields; (apply writes_snoc; [exact Hw | discriminate]).
  - intros st [Ht Hw]. split; [now apply keeps_cleanup|].
    shapes st; [exact Hw|..]; fields;
      repeat (apply writes_snoc; [|discriminate]); exact Hw.
  - intros st [Ht Hw]. split; [now apply keeps_release_remote|].
    shapes st; [exact Hw|]. fields. apply writes_snoc; [exact Hw | discriminate].
  - intros d st [Ht Hw]. split; [now apply keeps_forward|].
    shapes st; [exact Hw|]. fields. apply writes_snoc; [exact Hw|].
    intros s' d' [= <- _]. now apply Ht.
  - intros d st [Ht Hw].
    destruct (remote_write_cases d st) as [-> | (s & Hs & ->)]; [now split|].
    split; [now apply tidy_emit|]. fields. apply writes_snoc; [exact Hw|].
    intros s' d' [= <- _]. now apply Ht.
  - intros fr h st [Ht Hw]. split; [now apply keeps_dial|].
    shapes st; [exact Hw|]. fields. apply writes_snoc; [exact Hw | discriminate].
Qed.

(** X14: whatever the events of a session, its listeners call
    [webSocket.close] at most once, and not at all as long as the session
    is open. *)
Theorem close_called_once (evs : list event) (st : state) :
  run cfg evs init = Some st ->
  closes (log st) <= 1 /\ (isClosed st = false -> closes (log st) = 0).
Proof.
  apply closed_once_kept. split; [cbn; lia | reflexivity].
Qed.

(** X15: once a session is closed it stays closed, its WebSocket is
    closing or closed, and no frame is sent to the client any more,
    whatever the events that follow (calls of [webSocket.send] by a dial
    that goes on after the close find the WebSocket not open). *)
Theorem nothing_sent_once_closed (evs evs' : list event) (st st' : state) :
  run cfg evs init = Some st -> isClosed st = true ->
  run cfg evs' st = Some st' ->
  isClosed st' = true /\ readyState st' <> OPEN /\
  sends (log st') = sends (log st).
Proof.
  intros Hrun Hclosed Hrun'.
  assert (Hshut : shut st).
  { apply (shut_kept evs init st); [discriminate | exact Hrun]. }
  apply (silent_kept (sends (log st)) evs' st st'); [|exact Hrun'].
  split; [exact Hclosed|]. split; [now apply Hshut | reflexivity].
Qed.

(** X16: whatever the events of a session, the frames sent to the
    client are the text frames CONNECTED, CLOSE and ERROR: followed by the
    message of an error, and Buffers (binary frames); so the client can
    tell a notice from relayed data by the type of the frame. *)
Theorem frames_to_client (evs : list event) (st : state) :
  run cfg evs init = Some st -> Forall notice (sends (log st)).
Proof. apply notices_kept. constructor. Qed.

(** X17: whatever the events of a session, it never writes to a
    socket after it has destroyed it. *)
Theorem no_write_after_destroy (evs : list event) (st : state) :
  run cfg evs init = Some st -> writes_before_destroy (log st).
Proof.
  intros Hrun. apply (careful_kept evs init st); [|exact Hrun]. split.
  - split; [constructor|]. split; [constructor | discriminate].
  - intros [|a l1] l2 s d Heq; discriminate.
Qed.

End Kept.

End Invariants.

(** ** Streaming, and frames the protocol does not foresee *)
Module StreamFacts.
Import Trace SessionFacts.

Local Open Scope nat_scope.

Section Stream.

Context (cfg : config).

Lemma emit_all_nil (st : state) : emit_all [] st = st.
Proof. destruct st. unfold emit_all. cbn. now rewrite app_nil_r. Qed.

Lemma emit_all_cons (a : action) (l : list action) (st : state) :
  emit_all (a :: l) st = emit_all l (emit a st).
Proof. unfold emit_all. cbn. now rewrite <- app_assoc. Qed.

(** X18: while the session is open, with its WebSocket open, the
    chunks that a connected socket with one set of pump listeners
    delivers are sent to the client one frame per chunk, unchanged, in
    the order in which they came, and nothing else changes. *)
Theorem remote_chunks_in_order (s : sock) (k : socket) (chunks : list string) :
  forall st : state,
    isClosed st = false -> readyState st = OPEN ->
    sockets st !! s = Some k ->
    sk_phase k = Connected -> sk_ended k = false -> sk_pumps k = 1 ->
    run cfg (SockData s <$> chunks) st
    = Some (emit_all ((fun chunk => WsSend (Buf chunk)) <$> chunks) st).
Proof.
  induction chunks as [|c chunks IH]; intros st Hopen Hready Hk Hp He Hn.
  - cbn. now rewrite emit_all_nil.
  - rewrite fmap_cons, run_step. cbn [step]. rewrite Hk, Hp, He, Hn.
    assert (Hstep : pumps 1 (on_data cfg (Buf c)) st = emit (WsSend (Buf c)) st).
    { unfold pumps, on_data, ws_send. cbn [Nat.iter].
      destruct st as [r cl rs sk rsv l]. cbn in Hopen, Hready. subst cl rs.
      code. reflexivity. }
    rewrite Hstep, fmap_cons, emit_all_cons. now apply IH.
Qed.

(** X19: while the session holds a socket that is not destroyed,
    a sequence of data frames from the client (DATA: frames and binary
    frames that are no command) is written to that socket one write per
    frame, in the order in which the frames came, with no buffering, and
    nothing else changes. *)
Theorem client_frames_in_order (s : sock) (ds outs : list payload) :
  Forall2 (fun d out => forwarded d = Some out) ds outs ->
  forall st : state,
    isClosed st = false -> readyState st <> CLOSED ->
    remoteSocket st = Some s -> destroyed s st = false ->
    run cfg (WsMessage <$> ds) st = Some (emit_all (SockWrite s <$> outs) st).
Proof.
  induction 1 as [|d out ds outs Hd _ IH]; intros st Hopen Hready Hs Hlive.
  - cbn. now rewrite emit_all_nil.
  - rewrite !fmap_cons, run_step, step_message by assumption.
    rewrite (onMessage_forwards cfg d out) by assumption.
    rewrite (forward_live out s) by assumption.
    rewrite emit_all_cons. now apply IH.
Qed.

(** X20: when the peer ends the stream of the socket the session
    holds, the client is sent CLOSE, then the socket is destroyed and
    [webSocket.close] is called; the session is closed and holds no
    socket. *)
Theorem remote_end_closes (st : state) (s : sock) (k : socket) :
  isClosed st = false -> readyState st = OPEN ->
  remoteSocket st = Some s -> sockets st !! s = Some k ->
  sk_phase k = Connected -> sk_ended k = false -> sk_pumps k = 1 ->
  exists st',
    step cfg (SockEnd s) st = Some st' /\
    log st' = log st ++ [WsSend (Str "CLOSE"); SockDestroy s; WsClose] /\
    isClosed st' = true /\ remoteSocket st' = None /\
    destroyed s st' = true /\ readyState st' = CLOSING.
Proof.
  intros Hopen Hready Hs Hk Hp He Hn. cbn [step]. rewrite Hk, Hp, He, Hn.
  eexists. split; [reflexivity|].
  unfold pumps, on_end, cleanup, release_remote, sock_destroy,
    safeCloseWebSocket, ws_send. cbn [Nat.iter].
  destruct st as [r cl rs sk rsv l]. cbn in Hopen, Hready, Hs, Hk.
  subst cl rs r. code. setters. unfold destroyed. cbn.
  split; [now rewrite <- !app_assoc|]. repeat split.
  rewrite !list_lookup_alter, Hk. now destruct (decide (s = s)).
Qed.

(** X21: when the connected socket of a streaming session fails, the
    session is closed (the socket is destroyed and [webSocket.close] is
    called) and nothing is sent to the client: no ERROR notice, no
    CLOSE. *)
Theorem remote_error_closes_silently (st : state) (s : sock) (k : socket)
    (err : jserror) :
  isClosed st = false -> readyState st = OPEN ->
  remoteSocket st = Some s -> sockets st !! s = Some k ->
  sk_phase k = Connected -> sk_waiter k = None -> sk_pumps k = 1 ->
  exists st',
    step cfg (SockError s err) st = Some st' /\
    log st' = log st ++ [SockDestroy s; WsClose] /\
    sends (log st') = sends (log st) /\
    isClosed st' = true /\ remoteSocket st' = None /\ readyState st' = CLOSING.
Proof.
  intros Hopen Hready Hs Hk Hp Hw Hn. cbn [step]. rewrite Hk, Hp, Hw, Hn.
  eexists. split; [reflexivity|].
  unfold pumps, on_error, cleanup, release_remote, sock_destroy,
    safeCloseWebSocket. cbn [Nat.iter].
  destruct st as [r cl rs sk rsv l]. cbn in Hopen, Hready, Hs, Hk.
  subst cl rs r. code. setters.
  split; [now rewrite <- !app_assoc|]. split; [|now repeat split].
  rewrite !sends_app. cbn. now rewrite !app_nil_r.
Qed.

Lemma forward_gone (out : payload) (s : sock) (st : state) :
  remoteSocket st = Some s -> destroyed s st = true ->
  exec (forward out) st = st.
Proof.
  intros Hs Hgone. unfold forward. code. rewrite Hs, Hgone. reflexivity.
Qed.

(** X22: a message that is none of the commands (its text does not
    start with CONNECT: or DATA: and is not CLOSE; the commands are
    matched by case) is handled by the type it is handed over with, not
    by the kind of its frame.  As a string, which is how releases of ws
    before 8 hand over a text frame, it is dropped: the state is
    unchanged and nothing is sent.  As a Buffer, which is how ws 8 and
    later hand over every frame, text frames too, its bytes are written
    to the socket the session holds when that socket is not destroyed;
    it is dropped when the session is closed, holds no socket or holds a
    destroyed one. *)
Theorem unknown_frame_by_type (st : state) (text : string) :
  readyState st <> CLOSED ->
  Utf8.well_formed text = true ->
  JS.startsWith text "CONNECT:" = false ->
  JS.startsWith text "DATA:" = false ->
  text <> "CLOSE" ->
  step cfg (WsMessage (Str text)) st = Some st /\
  (forall s : sock,
      isClosed st = false -> remoteSocket st = Some s ->
      destroyed s st = false ->
      step cfg (WsMessage (Buf text)) st
      = Some (emit (SockWrite s (Buf text)) st)) /\
  (isClosed st = true \/ remoteSocket st = None \/
   (exists s, remoteSocket st = Some s /\ destroyed s st = true) ->
   step cfg (WsMessage (Buf text)) st = Some st).
Proof.
  intros Hready Hwf H1 H2 H3.
  assert (Hfw : forwarded (Buf text) = Some (Buf text)).
  { unfold forwarded. cbn [toString is_buffer].
    rewrite (Utf8Facts.decode_well_formed text Hwf), H1, H2.
    apply String.eqb_neq in H3. now rewrite H3. }
  split; [|split].
  - rewrite step_message by assumption. f_equal.
    unfold onMessage, guarded. cbn [toString is_buffer]. cbv zeta.
    apply String.eqb_neq in H3. rewrite H1, H2, H3.
    destruct st as [r [|] rs sk rsv l]; reflexivity.
  - intros s Hopen Hs Hlive. rewrite step_message by assumption. f_equal.
    rewrite (onMessage_forwards cfg _ (Buf text)) by assumption.
    now apply forward_live.
  - intros Hcase. rewrite step_message by assumption. f_equal.
    destruct (isClosed st) eqn:Hc.
    { unfold exec. now rewrite onMessage_closed. }
    rewrite (onMessage_forwards cfg _ (Buf text)) by assumption.
    destruct Hcase as [Hx | [Hnone | (s & Hs & Hgone)]]; [discriminate| |].
    + now apply forward_none.
    + now apply (forward_gone _ s).
Qed.

(** *** Requests that cannot be dialled *)

Lemma dial_bad_port (fr : frame) (h : string) (st : state) :
  (forall p, fr_port fr = Some p -> valid_port p = false) ->
  dial fr h st = (Rejected bad_port, st).
Proof.
  intros Hbad. unfold dial, net_connect.
  destruct (fr_port fr) as [p|]; [|reflexivity].
  now rewrite (Hbad p eq_refl).
Qed.

(** The state after the listener has caught [err] with no socket held:
    the client is told and the session is closed. *)
Lemma caught (m : code wait) (err : jserror) (st : state) :
  m st = (Rejected err, st) ->
  remoteSocket st = None -> isClosed st = false -> readyState st = OPEN ->
  exec (guarded cfg m) st
  = set_readyState CLOSING
      (emit WsClose
         (set_isClosed true (emit (WsSend (Str (error_notice err))) st))).
Proof.
  intros Hm Hs Hopen Hready. unfold guarded, exec, try_catch.
  unfold mbind at 1. unfold code_bind at 1. rewrite Hm.
  unfold cleanup, release_remote, safeCloseWebSocket, ws_send.
  destruct st as [r cl rs sk rsv l]. cbn in Hs, Hopen, Hready. subst r cl rs.
  code. reflexivity.
Qed.

Lemma bad_port_not_retried : isCFError bad_port = false.
Proof. vm_compute. reflexivity. Qed.

(** An attempt that cannot dial, on a session that holds no socket,
    throws out of the loop at once. *)
Lemma loop_bad_port (n : nat) (fr : frame) (st : state) :
  (forall p, fr_port fr = Some p -> valid_port p = false) ->
  resolves cfg (targetHost cfg fr) = false ->
  remoteSocket st = None ->
  loop cfg (S n) fr st = (Rejected bad_port, st).
Proof.
  intros Hbad Hres Hs. cbn [loop]. unfold try_catch, attempt.
  fold (resolves cfg (targetHost cfg fr)). rewrite Hres.
  rewrite dial_bad_port by assumption.
  unfold catch_block, release_remote. rewrite bad_port_not_retried.
  destruct st as [r cl rs sk rsv l]. cbn in Hs. subst r. code. reflexivity.
Qed.

Lemma resume_bad_port (fr : frame) (h : string) (r : settled string)
    (st : state) :
  (forall p, fr_port fr = Some p -> valid_port p = false) ->
  remoteSocket st = None ->
  resume_resolved cfg fr h r st = (Rejected bad_port, st).
Proof.
  intros Hbad Hs. unfold resume_resolved, try_catch.
  rewrite dial_bad_port by assumption.
  unfold catch_block, release_remote. rewrite bad_port_not_retried.
  destruct st as [rm cl rs sk rsv l]. cbn in Hs. subst rm. code. reflexivity.
Qed.

Lemma attempts_length : length (attempts cfg) = S (length (CF_FALLBACK_IPS cfg)).
Proof. unfold attempts. cbn. now rewrite length_fmap. Qed.

(** X23: a Connect-request whose port is not a number or is out of
    range opens no connection.  On a fresh session the call of
    [net.connect] throws, the error is not retried on the fallback hosts,
    the client is sent an ERROR: notice and the session is closed.  In
    the variant that resolves names the host is resolved first, and the
    same happens when the resolution settles. *)
Theorem bad_port_closes (addr payload : string) :
  JS.occurs "|" addr = false ->
  (forall p, port (parseAddress addr) = Some p -> valid_port p = false) ->
  let request := WsMessage (Str ("CONNECT:" +:+ addr +:+ "|" +:+ payload)) in
  let target := host (parseAddress addr) in
  (resolves cfg target = false ->
   exists st' m,
     run cfg [request] init = Some st' /\
     log st' = [WsSend (Str ("ERROR:" +:+ m)); WsClose] /\
     isClosed st' = true /\ sockets st' = []) /\
  (resolves cfg target = true ->
   forall r : settled string,
   exists st' m,
     run cfg [request; Resolved 0 r] init = Some st' /\
     log st' = [ResolveCall 0 target; WsSend (Str ("ERROR:" +:+ m)); WsClose] /\
     isClosed st' = true /\ sockets st' = []).
Proof.
  intros Hbar Hbad request target. unfold request.
  set (fr := first_frame (parseAddress addr) payload).
  assert (Htarget : targetHost cfg fr = target) by reflexivity.
  assert (Hrun : forall evs,
    run cfg (WsMessage (Str ("CONNECT:" +:+ addr +:+ "|" +:+ payload)) :: evs) init
    = run cfg evs (exec (guarded cfg (loop cfg (length (attempts cfg)) fr)) init)).
  { intros evs. now rewrite run_connect. }
  split; intros Hres.
  - rewrite Hrun, attempts_length.
    rewrite (caught _ bad_port) by
      (try reflexivity; apply loop_bad_port; try assumption; reflexivity).
    eexists _, _. split; [reflexivity|]. now repeat split.
  - intros r. rewrite Hrun, attempts_length.
    assert (Hask : exec (guarded cfg (loop cfg (S (length (CF_FALLBACK_IPS cfg))) fr)) init
                   = asked fr target init).
    { cbn [loop]. unfold guarded, exec, try_catch.
      unfold mbind at 1. unfold code_bind at 1.
      rewrite attempt_asks by assumption. reflexivity. }
    rewrite Hask, run_step.
    assert (Hstep : step cfg (Resolved 0 r) (asked fr target init)
                    = Some (exec (guarded cfg (resume_resolved cfg fr target r))
                              (set_resolving [None] (asked fr target init))))
      by reflexivity.
    rewrite Hstep.
    rewrite (caught _ bad_port) by
      (try reflexivity; now apply resume_bad_port).
    eexists _, _. split; [reflexivity|]. now repeat split.
Qed.

Lemma take_8 (rest : string) : JS.take 8 ("CONNECT:" +:+ rest) = "CONNECT:".
Proof. apply (JSFacts.take_app "CONNECT:" rest). Qed.

(** The frame CONNECT:rest with no bar in it starts
    [connectToRemote] on the address CONNECT: with the whole frame as
    first frame. *)
Lemma connect_no_bar (rest : string) (st : state) :
  JS.occurs "|" rest = false ->
  isClosed st = false ->
  exec (onMessage cfg (Str ("CONNECT:" +:+ rest))) st
  = exec (guarded cfg (connectToRemote cfg "CONNECT:" ("CONNECT:" +:+ rest))) st.
Proof.
  intros Hbar Hopen. unfold onMessage.
  unfold exec, mbind, code_bind at 1. unfold get at 1. cbn beta iota.
  rewrite Hopen. cbv zeta. cbn [toString].
  set (message := "CONNECT:" +:+ rest).
  assert (Hstart : JS.startsWith message "CONNECT:" = true).
  { apply (AddressFacts.prefix_app "CONNECT:" rest). }
  assert (Hlen : String.length message = 8 + String.length rest).
  { unfold message. now rewrite JSFacts.length_app. }
  assert (Hsep : JS.indexOf message "|" 8 = (-1)%Z).
  { unfold JS.indexOf. change 8%Z with (Z.of_nat 8).
    rewrite JSFacts.clamp_nat, Hlen.
    replace (Nat.min 8 (8 + String.length rest)) with 8 by lia.
    unfold message.
    change (JS.drop 8 ("CONNECT:" +:+ rest))
      with (JS.drop (String.length "CONNECT:") ("CONNECT:" +:+ rest)).
    rewrite JSFacts.drop_app.
    now rewrite (JSFacts.occurs_false _ _ Hbar). }
  rewrite Hstart, Hsep.
  assert (Haddr : JS.substring message 8 (-1) = "CONNECT:").
  { unfold JS.substring. rewrite (JSFacts.clamp_neg _ (-1)) by lia.
    change 8%Z with (Z.of_nat 8). rewrite JSFacts.clamp_nat, Hlen.
    replace (Nat.min 8 (8 + String.length rest)) with 8 by lia.
    cbn [Nat.max Nat.min Nat.sub JS.drop]. apply take_8. }
  rewrite Haddr. change (-1 + 1)%Z with 0%Z.
  now rewrite AddressFacts.substring_from_0.
Qed.

(** X24: a CONNECT: frame with no bar in it is taken as a request
    for the address CONNECT: itself (host CONNECT, no port), with the whole
    frame as first frame.  On a fresh session of the first variant the
    client is sent an ERROR: notice and the session is closed; in the
    variant that resolves names the session asks the resolver for the name
    CONNECT. *)
Theorem connect_without_separator (rest : string) :
  JS.occurs "|" rest = false ->
  let message := "CONNECT:" +:+ rest in
  let fr := {| fr_i := 0; fr_host := "CONNECT"; fr_port := None;
               fr_first := message |} in
  (resolves cfg "CONNECT" = false ->
   exists st' m,
     step cfg (WsMessage (Str message)) init = Some st' /\
     log st' = [WsSend (Str ("ERROR:" +:+ m)); WsClose] /\
     isClosed st' = true /\ sockets st' = []) /\
  (resolves cfg "CONNECT" = true ->
   step cfg (WsMessage (Str message)) init = Some (asked fr "CONNECT" init)).
Proof.
  intros Hbar message fr.
  assert (Hstep : step cfg (WsMessage (Str message)) init
                  = Some (exec (guarded cfg (loop cfg (S (length (CF_FALLBACK_IPS cfg))) fr))
                            init)).
  { rewrite step_message by discriminate. f_equal. unfold message.
    rewrite connect_no_bar by (assumption || reflexivity).
    unfold connectToRemote. rewrite attempts_length. reflexivity. }
  rewrite Hstep. split; intros Hres.
  - rewrite (caught _ bad_port) by
      first [ apply loop_bad_port; [discriminate | exact Hres | reflexivity]
            | reflexivity ].
    eexists _, _. split; [reflexivity|]. now repeat split.
  - f_equal. cbn [loop]. unfold guarded, exec, try_catch.
    unfold mbind at 1. unfold code_bind at 1.
    rewrite attempt_asks by exact Hres. reflexivity.
Qed.

(** X26: when the socket of a dial connects, on a session whose
    WebSocket is open, the first frame is written to it when it is not
    empty (nothing is written when it is), then CONNECTED is sent to
    the client, and one set of pump listeners is put on the socket, which
    stays the socket of the session. *)
Theorem first_frame_then_connected (fr : frame) (h : string) (p : Z)
    (st : state) :
  readyState st = OPEN ->
  let s := length (sockets st) in
  exists st',
    step cfg (SockConnect s) (opened fr h p st) = Some st' /\
    log st'
    = log st ++ [NetConnect s h p]
        ++ (if JS.truthy (fr_first fr)
            then [SockWrite s (Str (fr_first fr))] else [])
        ++ [WsSend (Str "CONNECTED")] /\
    remoteSocket st' = Some s /\
    sockets st' !! s
    = Some {| sk_phase := Connected; sk_ended := false; sk_waiter := None;
              sk_pumps := 1 |}.
Proof.
  intros Hready s. exists (streaming fr h p st).
  split; [now apply step_connect|]. cbn [streaming log remoteSocket sockets].
  split; [reflexivity|]. split; [reflexivity | apply lookup_new].
Qed.

(** X27: a PRIP that ends with a comma gives an empty last fallback
    host, and the last attempt of a dial, which falls on it, goes to the
    requested host again ([attempts[i] || host]). *)
Theorem trailing_comma_retries_host (e : Server.env) (s : string) (fr : frame) :
  e "PRIP" = Some (s +:+ ",") ->
  CF_FALLBACK_IPS cfg = Server.CF_FALLBACK_IPS e ->
  fr_i fr = length (CF_FALLBACK_IPS cfg) ->
  last (CF_FALLBACK_IPS cfg) = Some "" /\
  attempts cfg !! fr_i fr = Some (Some "") /\
  targetHost cfg fr = fr_host fr.
Proof.
  intros He Hcfg Hi.
  assert (Hlast : last (CF_FALLBACK_IPS cfg) = Some "").
  { rewrite Hcfg. unfold Server.CF_FALLBACK_IPS, Server.split. rewrite He.
    replace (JS.truthy (s +:+ ",")) with true by (now destruct s).
    apply (ServerFacts.split_on_last "," s ""). }
  assert (Hentry : attempts cfg !! fr_i fr = Some (Some "")).
  { unfold attempts. rewrite Hi.
    destruct (CF_FALLBACK_IPS cfg) as [|f fs] using rev_ind; [discriminate|].
    rewrite last_snoc in Hlast. injection Hlast as ->.
    rewrite fmap_app, length_app. cbn [length fmap list_fmap].
    replace (length fs + 1) with (S (length fs)) by lia.
    change ((None :: (Some <$> fs) ++ [Some ""]) !! S (length fs))
      with (((Some <$> fs) ++ [Some ""]) !! length fs).
    rewrite <- (length_fmap Some fs). apply lookup_new. }
  split; [exact Hlast|]. split; [exact Hentry|].
  unfold targetHost. now rewrite Hentry.
Qed.

(** X28: a Connect-request whose address has no colon and reads as a
    valid port number is dialled: on a fresh session [net.connect] is
    called with the empty string as host and that number as port. *)
Theorem port_alone_dials_empty_host (addr payload : string) (p : Z) :
  JS.occurs "|" addr = false ->
  JS.head_is addr "[" = false -> JS.occurs ":" addr = false ->
  JS.parseInt10 addr = Some p -> valid_port p = true ->
  resolves cfg "" = false ->
  exists st',
    step cfg (WsMessage (Str ("CONNECT:" +:+ addr +:+ "|" +:+ payload))) init
    = Some st' /\
    log st' = [NetConnect 0 "" p] /\ remoteSocket st' = Some 0.
Proof.
  intros Hbar Hhead Hcolon Hport Hv Hres.
  rewrite step_message by discriminate.
  rewrite connect_frame by (assumption || reflexivity).
  unfold connectToRemote. rewrite attempts_length.
  rewrite (AddressFacts.parse_no_colon addr) by assumption.
  cbn [host port]. rewrite Hport.
  set (fr := {| fr_i := 0; fr_host := ""; fr_port := Some p;
                fr_first := payload |}).
  rewrite (loop_starts cfg _ fr p) by (reflexivity || assumption).
  change (targetHost cfg fr) with "". rewrite Hres.
  eexists. split; [reflexivity|]. now split.
Qed.

(** X25: once the session is closed and no call of [connectToRemote]
    is suspended, no sequence of events makes it act again: its log and
    the socket it holds are as they were, and it stays closed with no
    call suspended. *)
Theorem idle_once_closed (evs : list event) (st st' : state) :
  isClosed st = true ->
  Forall (fun k => sk_waiter k = None) (sockets st) ->
  Forall (fun r => r = None) (resolving st) ->
  run cfg evs st = Some st' ->
  log st' = log st /\ remoteSocket st' = remoteSocket st /\
  isClosed st' = true /\
  Forall (fun k => sk_waiter k = None) (sockets st') /\
  Forall (fun r => r = None) (resolving st').
Proof.
  intros Hc Hw Hr Hrun.
  destruct (quiescent_run cfg evs st st') as ((H1 & H2 & H3) & H4 & H5);
    [now repeat split | exact Hrun |].
  now repeat split.
Qed.

End Stream.

End StreamFacts.

(** ** How many connections a session opens, and how many it holds

    Two bounds that hold whatever the events are and however the calls
    of [connectToRemote] overlap.  Each is kept by a count of what the
    suspended calls may still do: a turn of the event loop that wakes a
    call up takes the share of that call off the count, and what the
    call does then puts at most as much back. *)
Module BoundFacts.
Import Trace SessionFacts Invariants.

Local Open Scope nat_scope.

Section Sums.

Context {A : Type} (w : A -> nat).

Lemma sum_alter (f : A -> A) (l : list A) :
  forall (i : nat) (x : A),
    l !! i = Some x ->
    sum_list_with w (alter f i l) + w x = sum_list_with w l + w (f x).
Proof.
  induction l as [|a l IH]; intros [|i] x H; try discriminate; cbn in *.
  - injection H as ->. lia.
  - specialize (IH i x H). lia.
Qed.

Lemma sum_insert (y : A) (l : list A) :
  forall (i : nat) (x : A),
    l !! i = Some x ->
    sum_list_with w (<[i := y]> l) + w x = sum_list_with w l + w y.
Proof.
  induction l as [|a l IH]; intros [|i] x H; try discriminate; simpl in *.
  - injection H as ->. lia.
  - specialize (IH i x H). lia.
Qed.

Lemma sum_alter_le (f : A -> A) (l : list A) (i : nat) :
  (forall x, w (f x) <= w x) ->
  sum_list_with w (alter f i l) <= sum_list_with w l.
Proof.
  intros Hf. revert i. induction l as [|a l IH]; intros [|i]; cbn; try lia.
  - specialize (Hf a). lia.
  - specialize (IH i). lia.
Qed.

End Sums.

(** *** Code that raises a bound *)
Section Costs.

Context (cfg : config) (W : nat -> state -> Prop).

Hypothesis W_mono : forall b b' st, b <= b' -> W b st -> W b' st.

Lemma costs_keeps {A} (m : code A) :
  (forall b, keeps (W b) m) -> costs W 0 0 m.
Proof.
  intros Hm b st H. specialize (Hm b st H).
  destruct (m st) as [[a|e] st']; cbn in Hm; now rewrite Nat.add_0_r.
Qed.

Lemma costs_weaken {A} (c e c' e' : nat) (m : code A) :
  c <= c' -> e <= e' -> costs W c e m -> costs W c' e' m.
Proof.
  intros Hc He Hm b st H. specialize (Hm b st H).
  destruct (m st) as [[a|err] st']; (eapply W_mono; [|exact Hm]); lia.
Qed.

(** [try { m } catch (err) { h err }], when the errors that [m] throws
    are among those of [P]. *)
Lemma costs_try {A} (P : jserror -> Prop) (c e c' : nat) (m : code A)
    (h : jserror -> code A) :
  costs W c e m ->
  (forall st err st', m st = (Rejected err, st') -> P err) ->
  (forall err, P err -> costs W c' c' (h err)) ->
  costs W (Nat.max c (e + c')) (e + c') (try_catch m h).
Proof.
  intros Hm HP Hh b st H. specialize (Hm b st H). unfold try_catch.
  destruct (m st) as [[a|err] st'] eqn:Hst.
  - eapply W_mono; [|exact Hm]. lia.
  - specialize (Hh err (HP _ _ _ Hst) (b + e) st' Hm).
    destruct (h err st') as [[a|err'] st'']; (eapply W_mono; [|exact Hh]); lia.
Qed.

Lemma costs_exec (c : nat) (m : code unit) (b : nat) (st : state) :
  costs W c c m -> W b st -> W (b + c) (exec m st).
Proof.
  intros Hm H. specialize (Hm b st H). unfold exec.
  destruct (m st) as [[a|e] st']; exact Hm.
Qed.

Lemma kept_pumps (n : nat) (h : code unit) (b : nat) (st : state) :
  keeps (W b) h -> W b st -> W b (pumps n h st).
Proof.
  intros Hh Hst. unfold pumps. induction n as [|n IH]; [exact Hst|].
  change (Nat.iter (S n) (exec h) st) with (exec h (Nat.iter n (exec h) st)).
  apply keeps_exec; assumption.
Qed.

Hypothesis W_send : forall d b, keeps (W b) (ws_send cfg d).
Hypothesis W_cleanup : forall b, keeps (W b) cleanup.
Hypothesis W_forward : forall d b, keeps (W b) (forward d).

(** The listener's try/catch adds nothing to what it guards. *)
Lemma costs_guarded (c : nat) (m : code wait) :
  costs W c c m -> costs W c c (guarded cfg m).
Proof.
  intros Hm b st H. specialize (Hm b st H). unfold guarded, try_catch.
  unfold mbind at 1. unfold code_bind at 1.
  destruct (m st) as [[a|err] st']; [exact Hm|].
  assert (Hk : keeps (W (b + c))
                 (swallow (ws_send cfg (Str (error_notice err))) ;; cleanup)).
  { apply keeps_bind; [|intros _; apply W_cleanup].
    apply keeps_swallow, W_send. }
  specialize (Hk st' Hm).
  destruct ((swallow (ws_send cfg (Str (error_notice err))) ;; cleanup) st')
    as [[a|err'] st'']; exact Hk.
Qed.

(** The 'message' listener costs what [connectToRemote] costs, and that
    on a Connect-request only. *)
Lemma costs_listener (c : nat) (d : payload) :
  (forall addr first, costs W c c (connectToRemote cfg addr first)) ->
  costs W (if is_connect (WsMessage d) then c else 0)
          (if is_connect (WsMessage d) then c else 0) (onMessage cfg d).
Proof.
  intros Hdial. cbn [is_connect]. intros b st H. unfold onMessage.
  unfold mbind at 1. unfold code_bind at 1. unfold get at 1. cbn beta iota.
  destruct (isClosed st).
  { cbn. eapply W_mono; [|exact H]. lia. }
  revert b st H. apply costs_guarded. cbv zeta.
  destruct (JS.startsWith (toString d) "CONNECT:"); [apply Hdial|].
  apply costs_keeps. intros b.
  destruct (JS.startsWith (toString d) "DATA:");
    [apply keeps_bind; [apply W_forward | intros; apply keeps_ret]|].
  destruct (String.eqb (toString d) "CLOSE");
    [apply keeps_bind; [apply W_cleanup | intros; apply keeps_ret]|].
  destruct (is_buffer d); [|apply keeps_ret].
  apply keeps_bind; [apply W_forward | intros; apply keeps_ret].
Qed.

End Costs.

Lemma dial_outcome (fr : frame) (h : string) (st : state) :
  dial fr h st = (Rejected bad_port, st) \/
  exists p, dial fr h st = (Fulfilled Pending, opened fr h p st).
Proof.
  destruct (fr_port fr) as [p|] eqn:Hp; [destruct (valid_port p) eqn:Hv|].
  - right. exists p. now apply dial_opens.
  - left. unfold dial, net_connect. rewrite Hp, Hv. reflexivity.
  - left. unfold dial, net_connect. rewrite Hp. reflexivity.
Qed.

Lemma any_error (A : Type) (m : code A) (st : state) (err : jserror)
    (st' : state) :
  m st = (Rejected err, st') -> True.
Proof. intros _. exact I. Qed.

(** *** The connections opened *)
Section Bound.

Context (cfg : config) (N : nat).

Lemma within_mono (b b' : nat) (st : state) :
  b <= b' -> within N b st -> within N b' st.
Proof. intros Hb [H1 H2]. split; [exact H1 | lia]. Qed.

Lemma within_emit (a : action) (b : nat) (st : state) :
  dials [a] = [] -> within N b st -> within N b (emit a st).
Proof.
  intros Ha [H1 H2]. split; [exact H1|].
  cbn [emit log]. rewrite dials_app, Ha, app_nil_r. exact H2.
Qed.

(** A change of one socket that wakes no call and adds none. *)
Lemma within_update (s : sock) (f : socket -> socket) (b : nat) (st : state) :
  (forall k, owed_socket N (f k) <= owed_socket N k) ->
  (forall k, sk_waiter (f k) = sk_waiter k \/ sk_waiter (f k) = None) ->
  within N b st -> within N b (update_socket s f st).
Proof.
  intros Hw Hf [[H1 H2] H3]. split; [split; [exact H1|]|].
  - cbn. apply Forall_alter; [exact H2|]. intros k _ Hk.
    destruct (Hf k) as [-> | ->]; [exact Hk | exact I].
  - unfold owed in *. cbn [update_socket set_sockets sockets resolving log].
    pose proof (sum_alter_le (owed_socket N) f (sockets st) s Hw). lia.
Qed.

Lemma owed_destroyed (k : socket) :
  owed_socket N (set_phase Destroyed k) <= owed_socket N k.
Proof. unfold owed_socket. cbn. lia. Qed.

Lemma within_send (d : payload) (b : nat) : keeps (within N b) (ws_send cfg d).
Proof.
  intros st H. shapes st; [exact H|..]; now apply within_emit.
Qed.

Lemma within_release (b : nat) : keeps (within N b) release_remote.
Proof.
  intros st H. shapes st; [exact H|].
  apply (within_update _ _ b (emit _ st)).
  - apply owed_destroyed.
  - intros k. now left.
  - now apply within_emit.
Qed.

Lemma within_cleanup (b : nat) : keeps (within N b) cleanup.
Proof.
  intros st H. destruct (cleanup_cases st) as [-> | [_ ->]]; [exact H|].
  assert (H1 : within N b (release_remote (set_isClosed true st)).2).
  { apply within_release. exact H. }
  destruct (safeClose_cases (release_remote (set_isClosed true st)).2)
    as [[_ ->] | ->]; [exact H1|].
  apply (within_emit WsClose) in H1; [exact H1 | reflexivity].
Qed.

Lemma within_forward (d : payload) (b : nat) : keeps (within N b) (forward d).
Proof. intros st H. shapes st; [exact H|]. now apply within_emit. Qed.

Lemma within_write (d : payload) (b : nat) : keeps (within N b) (remote_write d).
Proof. intros st H. shapes st; [exact H|]. now apply within_emit. Qed.

Lemma within_pump (r : option sock) (b : nat) :
  keeps (within N b) (pumpRemoteToWebSocket r).
Proof.
  destruct r as [s|]; cbn [pumpRemoteToWebSocket]; [|apply keeps_throw].
  apply keeps_modify. intros st. apply (within_update s add_pump).
  - intros k. reflexivity.
  - intros k. now left.
Qed.

Lemma within_connected (fr : frame) (b : nat) :
  keeps (within N b) (connected cfg fr).
Proof.
  unfold connected. apply keeps_bind.
  { destruct (JS.truthy (fr_first fr)); [apply within_write | apply keeps_ret]. }
  intros _. apply keeps_bind; [apply within_send|].
  intros _. apply keeps_bind; [apply keeps_get|]. intros r.
  apply keeps_bind; [apply within_pump | intros _; apply keeps_ret].
Qed.

Lemma within_opened (fr : frame) (h : string) (p : Z) (b : nat) (st : state) :
  fr_i fr < N -> within N b st ->
  within N (b + (N - fr_i fr)) (opened fr h p st).
Proof.
  intros Hi [[H1 H2] H3]. split; [split; [exact H1|]|].
  - cbn. apply Forall_app. split; [exact H2|]. now repeat constructor.
  - unfold owed in *. cbn [opened log sockets resolving].
    rewrite dials_app, length_app, sum_list_with_app. cbn. lia.
Qed.

Lemma within_asked (fr : frame) (h : string) (b : nat) (st : state) :
  fr_i fr < N -> within N b st ->
  within N (b + (N - fr_i fr)) (asked fr h st).
Proof.
  intros Hi [[H1 H2] H3]. split; [split; [|exact H2]|].
  - cbn. apply Forall_app. split; [exact H1|]. now repeat constructor.
  - unfold owed in *. cbn [asked log sockets resolving].
    rewrite dials_app, length_app, sum_list_with_app. cbn. lia.
Qed.

Lemma within_dial (fr : frame) (h : string) :
  fr_i fr < N -> costs (within N) (N - fr_i fr) 0 (dial fr h).
Proof.
  intros Hi b st H.
  destruct (dial_outcome fr h st) as [-> | [p ->]].
  - now rewrite Nat.add_0_r.
  - now apply within_opened.
Qed.

Lemma within_attempt (fr : frame) :
  fr_i fr < N -> costs (within N) (N - fr_i fr) 0 (attempt cfg fr).
Proof.
  intros Hi.
  destruct (resolves cfg (targetHost cfg fr)) eqn:Hr.
  - intros b st H. rewrite attempt_asks by exact Hr. now apply within_asked.
  - unfold attempt. cbv zeta. fold (resolves cfg (targetHost cfg fr)).
    rewrite Hr. now apply within_dial.
Qed.

Hypothesis HN : N = length (attempts cfg).

Lemma within_catch (next : frame -> code wait) (fr : frame) (err : jserror) :
  fr_i fr < N ->
  (S (fr_i fr) < N ->
   costs (within N) (N - S (fr_i fr)) (N - S (fr_i fr)) (next (next_frame fr))) ->
  costs (within N) (N - S (fr_i fr)) (N - S (fr_i fr))
    (catch_block cfg next fr err).
Proof.
  intros Hi Hnext b st H. unfold catch_block.
  unfold mbind at 1. unfold code_bind at 1.
  pose proof (within_release b st H) as H1.
  destruct (release_remote st) as [[[]|e] st1]; cbn [snd] in H1.
  - destruct (negb (isCFError err) || (fr_i fr =? length (attempts cfg) - 1))
      eqn:Hc.
    + cbn. eapply within_mono; [|exact H1]. lia.
    + apply orb_false_elim in Hc as [_ Hc]. apply Nat.eqb_neq in Hc.
      apply Hnext; [lia | exact H1].
  - eapply within_mono; [|exact H1]. lia.
Qed.

(** The loop with [k] iterations left opens [k] connections at most. *)
Lemma within_loop (k : nat) :
  forall fr, k + fr_i fr = N -> costs (within N) k k (loop cfg k fr).
Proof.
  induction k as [|k IH]; intros fr Hk; cbn [loop].
  - apply costs_keeps. intros b. apply keeps_ret.
  - apply (costs_weaken _ within_mono
             (Nat.max (N - fr_i fr) (0 + k)) (0 + k)); [lia | lia |].
    apply (costs_try _ within_mono (fun _ => True));
      [apply within_attempt; lia | intros; exact I |].
    intros err _.
    apply (costs_weaken _ within_mono (N - S (fr_i fr)) (N - S (fr_i fr)));
      [lia | lia |].
    apply within_catch; [lia|]. intros _.
    replace (N - S (fr_i fr)) with k by lia. apply IH. cbn. lia.
Qed.

(** A call that goes on after an await: the try block [m] from there,
    and the catch block with the iterations left. *)
Lemma within_resume (fr : frame) (c : nat) (m : code wait) :
  fr_i fr < N -> costs (within N) c 0 m -> N - S (fr_i fr) <= c ->
  costs (within N) c c
    (guarded cfg (try_catch m (catch_block cfg (rest cfg fr) fr))).
Proof.
  intros Hi Hm Hc.
  apply (costs_guarded cfg _ within_send within_cleanup).
  apply (costs_weaken _ within_mono
           (Nat.max c (0 + (N - S (fr_i fr)))) (0 + (N - S (fr_i fr))));
    [lia | lia |].
  apply (costs_try _ within_mono (fun _ => True));
    [exact Hm | intros; exact I |]. intros err _.
  apply within_catch; [exact Hi|]. intros Hlt. unfold rest. rewrite <- HN.
  apply within_loop. cbn. lia.
Qed.

(** The resolution a call awaited has settled: what the call may open
    is no longer owed by the list of resolutions. *)
Lemma within_answered (rid : nat) (fr : frame) (h : string) (b : nat)
    (st : state) :
  within N b st -> resolving st !! rid = Some (Some (fr, h)) ->
  fr_i fr < N /\
  exists b0,
    b0 + (N - fr_i fr) = b /\
    within N b0 (set_resolving (<[rid := None]> (resolving st)) st).
Proof.
  intros [[H1 H2] H3] Hrid.
  assert (Hi : fr_i fr < N).
  { rewrite Forall_lookup in H1. apply (H1 rid _ Hrid). }
  split; [exact Hi|].
  pose proof (sum_insert (owed_resolving N) None (resolving st) rid _ Hrid) as Hs.
  cbn [owed_resolving] in Hs. unfold owed in H3.
  exists (b - (N - fr_i fr)). split; [lia|]. split; [split; [|exact H2]|].
  - cbn. now apply Forall_insert.
  - unfold owed. cbn [set_resolving log resolving sockets]. lia.
Qed.

(** The socket a call awaited has settled. *)
Lemma within_settled (s : sock) (k : socket) (fr : frame) (p : phase)
    (b : nat) (st : state) :
  within N b st -> sockets st !! s = Some k ->
  sk_phase k <> Destroyed -> sk_waiter k = Some fr ->
  fr_i fr < N /\
  exists b0,
    b0 + (N - S (fr_i fr)) = b /\
    within N b0 (update_socket s (fun k => set_waiter None (set_phase p k)) st).
Proof.
  intros [[H1 H2] H3] Hs Hp Hw.
  assert (Hi : fr_i fr < N).
  { rewrite Forall_lookup in H2. specialize (H2 s _ Hs). now rewrite Hw in H2. }
  split; [exact Hi|].
  pose proof (sum_alter (owed_socket N)
                (fun k => set_waiter None (set_phase p k)) (sockets st) s _ Hs)
    as Hsum.
  assert (Hk : owed_socket N k = N - S (fr_i fr)).
  { unfold owed_socket. rewrite Hw. now destruct (sk_phase k). }
  assert (Hk' : owed_socket N (set_waiter None (set_phase p k)) = 0).
  { unfold owed_socket. cbn. now destruct p. }
  rewrite Hk, Hk' in Hsum. unfold owed in H3.
  exists (b - (N - S (fr_i fr))). split; [lia|]. split; [split; [exact H1|]|].
  - cbn. apply Forall_alter; [exact H2|]. intros k0 _ _. exact I.
  - unfold owed. cbn [update_socket set_sockets log resolving sockets]. lia.
Qed.

Lemma within_quiet (s : sock) (p : phase) (b : nat) (st : state) :
  within N b st ->
  within N b (update_socket s (fun k => set_waiter None (set_phase p k)) st).
Proof.
  apply within_update.
  - intros k. unfold owed_socket. cbn. destruct p; lia.
  - intros k. now right.
Qed.

(** One turn of the event loop: a Connect-request raises the bound by
    the number of attempts of a dial, and nothing else raises it. *)
Lemma within_step (ev : event) (b : nat) (st st' : state) :
  within N b st -> step cfg ev st = Some st' ->
  within N (b + (if is_connect ev then N else 0)) st'.
Proof.
  intros H Hstep.
  assert (Hfree : forall st1, within N b st1 ->
                    within N (b + (if is_connect ev then N else 0)) st1).
  { intros st1. apply within_mono. lia. }
  destruct ev as [d| | | |rid r|s|s err|s chunk|s]; cbn [step] in Hstep.
  - destruct (readyState st); try discriminate; injection Hstep as <-;
      (apply (costs_exec (within N)); [|exact H]);
      apply (costs_listener cfg _ within_mono within_send within_cleanup
               within_forward N d);
      intros addr first; unfold connectToRemote; rewrite <- HN;
      apply within_loop; cbn; lia.
  - destruct (readyState st); try discriminate. injection Hstep as <-.
    apply Hfree. exact H.
  - destruct (readyState st); try discriminate; injection Hstep as <-;
      apply Hfree; (apply keeps_exec; [apply within_cleanup | exact H]).
  - destruct (readyState st); try discriminate; injection Hstep as <-;
      apply Hfree; (apply keeps_exec; [apply within_cleanup | exact H]).
  - destruct (resolving st !! rid) as [[[fr h]|]|] eqn:Hrid; try discriminate.
    injection Hstep as <-. apply Hfree.
    destruct (within_answered rid fr h b st H Hrid) as (Hi & b0 & <- & H0).
    apply (costs_exec (within N)); [|exact H0]. unfold resume_resolved.
    apply within_resume; [exact Hi | now apply within_dial | lia].
  - destruct (sockets st !! s) as [k|] eqn:Hs; [|discriminate].
    destruct (sk_phase k) eqn:Hp; try discriminate.
    destruct (sk_waiter k) as [fr|] eqn:Hw; injection Hstep as <-; apply Hfree;
      [|now apply within_quiet].
    destruct (within_settled s k fr Connected b st H Hs) as (Hi & b0 & <- & H0);
      [congruence | exact Hw |].
    apply (costs_exec (within N)); [|exact H0]. unfold resume_connected.
    apply (within_resume fr (N - S (fr_i fr))); [exact Hi | | lia].
    apply (costs_weaken _ within_mono 0 0); [lia | lia |].
    apply costs_keeps. intros b'. apply within_connected.
  - destruct (sockets st !! s) as [k|] eqn:Hs; [|discriminate].
    destruct (sk_waiter k) as [fr|] eqn:Hw.
    + destruct (sk_phase k) eqn:Hp; try discriminate; injection Hstep as <-;
        apply Hfree;
        (destruct (within_settled s k fr Destroyed b st H Hs)
           as (Hi & b0 & <- & H0); [congruence | exact Hw |]);
        (apply (costs_exec (within N));
         [|apply kept_pumps; [apply within_cleanup | exact H0]]);
        apply (costs_guarded cfg _ within_send within_cleanup);
        unfold resume_failed;
        (apply within_catch; [exact Hi|]); intros Hlt; unfold rest;
        rewrite <- HN; apply within_loop; cbn; lia.
    + destruct (sk_phase k); try discriminate; injection Hstep as <-;
        apply Hfree;
        (apply kept_pumps; [apply within_cleanup | now apply within_quiet]).
  - destruct (sockets st !! s) as [k|]; [|discriminate].
    destruct (sk_phase k), (sk_ended k); try discriminate.
    injection Hstep as <-. apply Hfree.
    apply kept_pumps; [|exact H].
    apply rule_on_data; [intros d _; apply within_send | apply within_cleanup].
  - destruct (sockets st !! s) as [k|]; [|discriminate].
    destruct (sk_phase k), (sk_ended k); try discriminate.
    injection Hstep as <-. apply Hfree.
    apply kept_pumps.
    + apply rule_on_end; [intros d _; apply within_send | apply within_cleanup].
    + apply within_update; [reflexivity | now left | exact H].
Qed.

Lemma within_run (evs : list event) :
  forall (b : nat) (st st' : state),
    within N b st -> run cfg evs st = Some st' ->
    within N (b + connects evs * N) st'.
Proof.
  induction evs as [|ev evs IH]; intros b st st' H Hrun.
  - injection Hrun as <-. cbn. now rewrite Nat.add_0_r.
  - rewrite run_step in Hrun.
    destruct (step cfg ev st) as [st1|] eqn:Hstep; [|discriminate].
    pose proof (within_step ev b st st1 H Hstep) as H1.
    specialize (IH _ _ _ H1 Hrun). eapply within_mono; [|exact IH].
    unfold connects. cbn [sum_list_with]. fold (connects evs).
    destruct (is_connect ev); lia.
Qed.

End Bound.

(** X29: whatever the events of a session and the way in which they
    interleave, the session calls [net.connect] at most 1 + n times for
    each Connect-request it has received, n being the number of fallback
    hosts. *)
Theorem connections_bounded (cfg : config) (evs : list event) (st : state) :
  run cfg evs init = Some st ->
  length (dials (log st)) <= connects evs * S (length (CF_FALLBACK_IPS cfg)).
Proof.
  intros Hrun.
  destruct (within_run cfg (length (attempts cfg)) eq_refl evs 0 init st)
    as [_ H]; [|exact Hrun|].
  - split; [split; constructor | cbn; lia].
  - rewrite StreamFacts.attempts_length in H. cbn [Nat.add] in H. lia.
Qed.

(** *** The sockets held *)
Section Live.

Context (cfg : config).

Lemma holds_mono (b b' : nat) (st : state) :
  b <= b' -> holds b st -> holds b' st.
Proof. unfold holds. lia. Qed.

(** A change of one socket that brings no socket back to life. *)
Lemma holds_update (s : sock) (f : socket -> socket) (b : nat) (st : state) :
  (forall k, alive (f k) <= alive k) ->
  holds b st -> holds b (update_socket s f st).
Proof.
  intros Hf H. unfold holds, live, waiting in *.
  cbn [update_socket set_sockets sockets resolving].
  pose proof (sum_alter_le alive f (sockets st) s Hf). lia.
Qed.

Lemma holds_send (d : payload) (b : nat) : keeps (holds b) (ws_send cfg d).
Proof. intros st H. shapes st; exact H. Qed.

Lemma holds_release (b : nat) : keeps (holds b) release_remote.
Proof.
  intros st H. shapes st; [exact H|].
  apply (holds_update _ _ b (emit _ st)); [|exact H].
  intros k. unfold alive. cbn. lia.
Qed.

Lemma holds_cleanup (b : nat) : keeps (holds b) cleanup.
Proof.
  intros st H. destruct (cleanup_cases st) as [-> | [_ ->]]; [exact H|].
  assert (H1 : holds b (release_remote (set_isClosed true st)).2).
  { apply holds_release. exact H. }
  destruct (safeClose_cases (release_remote (set_isClosed true st)).2)
    as [[_ ->] | ->]; exact H1.
Qed.

Lemma holds_forward (d : payload) (b : nat) : keeps (holds b) (forward d).
Proof. intros st H. shapes st; exact H. Qed.

Lemma holds_write (d : payload) (b : nat) : keeps (holds b) (remote_write d).
Proof. intros st H. shapes st; exact H. Qed.

Lemma holds_pump (r : option sock) (b : nat) :
  keeps (holds b) (pumpRemoteToWebSocket r).
Proof.
  destruct r as [s|]; cbn [pumpRemoteToWebSocket]; [|apply keeps_throw].
  apply keeps_modify. intros st. apply (holds_update s add_pump).
  intros k. reflexivity.
Qed.

Lemma holds_connected (fr : frame) (b : nat) :
  keeps (holds b) (connected cfg fr).
Proof.
  unfold connected. apply keeps_bind.
  { destruct (JS.truthy (fr_first fr)); [apply holds_write | apply keeps_ret]. }
  intros _. apply keeps_bind; [apply holds_send|].
  intros _. apply keeps_bind; [apply keeps_get|]. intros r.
  apply keeps_bind; [apply holds_pump | intros _; apply keeps_ret].
Qed.

(** What [connected] throws is not retried: the socket variable is null,
    or the WebSocket is not open. *)
Lemma connected_errors (fr : frame) (st : state) (err : jserror) (st' : state) :
  connected cfg fr st = (Rejected err, st') -> isCFError err = false.
Proof.
  unfold connected, remote_write, sock_write, ws_send, pumpRemoteToWebSocket.
  destruct st as [[s|] c [| |] sk rsv l];
    destruct (JS.truthy (fr_first fr)), (send_throws cfg); code;
    intros [= <- _]; vm_compute; reflexivity.
Qed.

Lemma dial_errors (fr : frame) (h : string) (st : state) (err : jserror)
    (st' : state) :
  dial fr h st = (Rejected err, st') -> isCFError err = false.
Proof.
  destruct (dial_outcome fr h st) as [-> | [p ->]]; [|discriminate].
  intros [= <- _]. apply StreamFacts.bad_port_not_retried.
Qed.

Lemma holds_dial (fr : frame) (h : string) : costs holds 1 0 (dial fr h).
Proof.
  intros b st H. destruct (dial_outcome fr h st) as [-> | [p ->]].
  - now rewrite Nat.add_0_r.
  - unfold holds, live, waiting in *. cbn [opened sockets resolving].
    rewrite sum_list_with_app. cbn. lia.
Qed.

Lemma holds_attempt (fr : frame) : costs holds 1 0 (attempt cfg fr).
Proof.
  destruct (resolves cfg (targetHost cfg fr)) eqn:Hr.
  - intros b st H. rewrite attempt_asks by exact Hr.
    unfold holds, live, waiting in *. cbn [asked sockets resolving].
    rewrite sum_list_with_app. cbn. lia.
  - unfold attempt. cbv zeta. fold (resolves cfg (targetHost cfg fr)).
    rewrite Hr. apply holds_dial.
Qed.

(** The catch block lets go of the socket held and, for an error that
    is retried, goes on with the loop. *)
Lemma holds_catch (next : frame -> code wait) (fr : frame) (err : jserror)
    (c : nat) :
  costs holds c c (next (next_frame fr)) ->
  costs holds (if isCFError err then c else 0) (if isCFError err then c else 0)
    (catch_block cfg next fr err).
Proof.
  intros Hnext b st H. unfold catch_block.
  unfold mbind at 1. unfold code_bind at 1.
  pose proof (holds_release b st H) as H1.
  destruct (release_remote st) as [[[]|e] st1]; cbn [snd] in H1.
  - destruct (isCFError err); cbn [negb orb].
    + destruct (fr_i fr =? length (attempts cfg) - 1).
      * cbn. eapply holds_mono; [|exact H1]. lia.
      * now apply Hnext.
    + cbn. now rewrite Nat.add_0_r.
  - eapply holds_mono; [|exact H1]. lia.
Qed.

(** Whatever is left of the loop, it takes one socket or one resolution
    at most: an attempt that fails has let go of its socket before the
    next one starts. *)
Lemma holds_loop (k : nat) : forall fr, costs holds 1 1 (loop cfg k fr).
Proof.
  induction k as [|k IH]; intros fr; cbn [loop].
  - apply (costs_weaken _ holds_mono 0 0); [lia | lia |].
    apply costs_keeps. intros b. apply keeps_ret.
  - apply (costs_weaken _ holds_mono (Nat.max 1 (0 + 1)) (0 + 1));
      [lia | lia |].
    apply (costs_try _ holds_mono (fun _ => True));
      [apply holds_attempt | intros; exact I |].
    intros err _.
    apply (costs_weaken _ holds_mono (if isCFError err then 1 else 0)
             (if isCFError err then 1 else 0));
      [destruct (isCFError err); lia | destruct (isCFError err); lia |].
    apply holds_catch, IH.
Qed.

(** A call that goes on after an await, with a try block whose errors
    are not retried. *)
Lemma holds_resume (fr : frame) (c : nat) (m : code wait) :
  costs holds c 0 m ->
  (forall st err st', m st = (Rejected err, st') -> isCFError err = false) ->
  costs holds c c
    (guarded cfg (try_catch m (catch_block cfg (rest cfg fr) fr))).
Proof.
  intros Hm Herr.
  apply (costs_guarded cfg _ holds_send holds_cleanup).
  apply (costs_weaken _ holds_mono (Nat.max c (0 + 0)) (0 + 0)); [lia | lia |].
  apply (costs_try _ holds_mono (fun err => isCFError err = false));
    [exact Hm | exact Herr |].
  intros err Hno.
  pose proof (holds_catch (rest cfg fr) fr err 1 (holds_loop _ _)) as Hc.
  now rewrite Hno in Hc.
Qed.

Lemma holds_answered (rid : nat) (x : frame * string) (b : nat) (st : state) :
  holds b st -> resolving st !! rid = Some (Some x) ->
  exists b0,
    b0 + 1 = b /\
    holds b0 (set_resolving (<[rid := None]> (resolving st)) st).
Proof.
  intros H Hrid. unfold holds, live, waiting in *.
  pose proof (sum_insert awaited None (resolving st) rid _ Hrid) as Hs.
  cbn [awaited] in Hs.
  exists (b - 1). cbn [set_resolving resolving sockets]. lia.
Qed.

Lemma holds_failed (s : sock) (k : socket) (b : nat) (st : state) :
  holds b st -> sockets st !! s = Some k -> sk_phase k <> Destroyed ->
  exists b0,
    b0 + 1 = b /\
    holds b0 (update_socket s
                (fun k => set_waiter None (set_phase Destroyed k)) st).
Proof.
  intros H Hs Hp. unfold holds, live, waiting in *.
  pose proof (sum_alter alive
                (fun k => set_waiter None (set_phase Destroyed k))
                (sockets st) s _ Hs) as Hsum.
  assert (Hk : alive k = 1) by (unfold alive; now destruct (sk_phase k)).
  cbn [alive set_waiter set_phase sk_phase] in Hsum. rewrite Hk in Hsum.
  exists (b - 1). cbn [update_socket set_sockets resolving sockets]. lia.
Qed.

Lemma holds_connect (s : sock) (k : socket) (b : nat) (st : state) :
  holds b st -> sockets st !! s = Some k -> sk_phase k = Connecting ->
  holds b (update_socket s (fun k => set_waiter None (set_phase Connected k)) st).
Proof.
  intros H Hs Hp. unfold holds, live, waiting in *.
  pose proof (sum_alter alive
                (fun k => set_waiter None (set_phase Connected k))
                (sockets st) s _ Hs) as Hsum.
  assert (Hk : alive k = 1) by (unfold alive; now rewrite Hp).
  cbn [alive set_waiter set_phase sk_phase] in Hsum. rewrite Hk in Hsum.
  cbn [update_socket set_sockets resolving sockets]. lia.
Qed.

(** One turn of the event loop: a Connect-request may add one socket or
    one resolution, and nothing else adds any. *)
Lemma holds_step (ev : event) (b : nat) (st st' : state) :
  holds b st -> step cfg ev st = Some st' ->
  holds (b + (if is_connect ev then 1 else 0)) st'.
Proof.
  intros H Hstep.
  assert (Hfree : forall st1, holds b st1 ->
                    holds (b + (if is_connect ev then 1 else 0)) st1).
  { intros st1. apply holds_mono. lia. }
  destruct ev as [d| | | |rid r|s|s err|s chunk|s]; cbn [step] in Hstep.
  - destruct (readyState st); try discriminate; injection Hstep as <-;
      (apply (costs_exec holds); [|exact H]);
      apply (costs_listener cfg _ holds_mono holds_send holds_cleanup
               holds_forward 1 d);
      intros addr first; apply holds_loop.
  - destruct (readyState st); try discriminate. injection Hstep as <-.
    apply Hfree. exact H.
  - destruct (readyState st); try discriminate; injection Hstep as <-;
      apply Hfree; (apply keeps_exec; [apply holds_cleanup | exact H]).
  - destruct (readyState st); try discriminate; injection Hstep as <-;
      apply Hfree; (apply keeps_exec; [apply holds_cleanup | exact H]).
  - destruct (resolving st !! rid) as [[[fr h]|]|] eqn:Hrid; try discriminate.
    injection Hstep as <-. apply Hfree.
    destruct (holds_answered rid (fr, h) b st H Hrid) as (b0 & <- & H0).
    apply (costs_exec holds); [|exact H0]. unfold resume_resolved.
    apply holds_resume; [apply holds_dial | apply dial_errors].
  - destruct (sockets st !! s) as [k|] eqn:Hs; [|discriminate].
    destruct (sk_phase k) eqn:Hp; try discriminate.
    pose proof (holds_connect s k b st H Hs Hp) as H0.
    destruct (sk_waiter k) as [fr|]; injection Hstep as <-; apply Hfree;
      [|exact H0].
    rewrite <- (Nat.add_0_r b).
    apply (costs_exec holds); [|exact H0]. unfold resume_connected.
    apply holds_resume; [|apply connected_errors].
    apply costs_keeps. intros b'. apply holds_connected.
  - destruct (sockets st !! s) as [k|] eqn:Hs; [|discriminate].
    destruct (sk_phase k) eqn:Hp; try discriminate;
      (destruct (holds_failed s k b st H Hs) as (b0 & <- & H0);
       [congruence|]);
      (destruct (sk_waiter k) as [fr|]; injection Hstep as <-; apply Hfree;
       [|apply (holds_mono b0); [lia|];
         apply kept_pumps; [apply holds_cleanup | exact H0]]);
      (apply (costs_exec holds);
       [|apply kept_pumps; [apply holds_cleanup | exact H0]]);
      apply (costs_guarded cfg _ holds_send holds_cleanup);
      unfold resume_failed;
      (apply (costs_weaken _ holds_mono (if isCFError err then 1 else 0)
                (if isCFError err then 1 else 0));
       [destruct (isCFError err); lia | destruct (isCFError err); lia |]);
      apply holds_catch, holds_loop.
  - destruct (sockets st !! s) as [k|]; [|discriminate].
    destruct (sk_phase k), (sk_ended k); try discriminate.
    injection Hstep as <-. apply Hfree.
    apply kept_pumps; [|exact H].
    apply rule_on_data; [intros d _; apply holds_send | apply holds_cleanup].
  - destruct (sockets st !! s) as [k|]; [|discriminate].
    destruct (sk_phase k), (sk_ended k); try discriminate.
    injection Hstep as <-. apply Hfree.
    apply kept_pumps.
    + apply rule_on_end; [intros d _; apply holds_send | apply holds_cleanup].
    + apply holds_update; [reflexivity | exact H].
Qed.

Lemma holds_run (evs : list event) :
  forall (b : nat) (st st' : state),
    holds b st -> run cfg evs st = Some st' ->
    holds (b + connects evs) st'.
Proof.
  induction evs as [|ev evs IH]; intros b st st' H Hrun.
  - injection Hrun as <-. cbn. now rewrite Nat.add_0_r.
  - rewrite run_step in Hrun.
    destruct (step cfg ev st) as [st1|] eqn:Hstep; [|discriminate].
    pose proof (holds_step ev b st st1 H Hstep) as H1.
    specialize (IH _ _ _ H1 Hrun). eapply holds_mono; [|exact IH].
    unfold connects. cbn [sum_list_with]. fold (connects evs).
    destruct (is_connect ev); lia.
Qed.

Lemma alive_1 (k : socket) : sk_phase k <> Destroyed -> alive k = 1.
Proof. unfold alive. destruct (sk_phase k); congruence. Qed.

Lemma live_member (l : list socket) :
  forall i k,
    l !! i = Some k -> sk_phase k <> Destroyed -> 1 <= sum_list_with alive l.
Proof.
  induction l as [|y l IH]; intros [|i] k Hk Hp; try discriminate;
    cbn [sum_list_with].
  - injection Hk as ->. rewrite (alive_1 k Hp). lia.
  - specialize (IH i k Hk Hp). lia.
Qed.

(** With one live socket at most, two sockets that are not destroyed
    are the same one. *)
Lemma live_unique (l : list socket) :
  sum_list_with alive l <= 1 ->
  forall s s' k k',
    l !! s = Some k -> l !! s' = Some k' ->
    sk_phase k <> Destroyed -> sk_phase k' <> Destroyed -> s = s'.
Proof.
  induction l as [|a l IH]; intros Hlive s s' k k' Hs Hs' Hk Hk';
    [discriminate|].
  cbn [sum_list_with] in Hlive.
  destruct s as [|s], s' as [|s'].
  - reflexivity.
  - injection Hs as ->. pose proof (live_member l s' k' Hs' Hk').
    rewrite (alive_1 k Hk) in Hlive. lia.
  - injection Hs' as ->. pose proof (live_member l s k Hs Hk).
    rewrite (alive_1 k' Hk') in Hlive. lia.
  - f_equal. apply (IH ltac:(lia) s s' k k'); assumption.
Qed.

(** X30: whatever the events of a session and the way in which they
    interleave, the sockets that are not destroyed and the resolutions
    that are awaited are never more than the Connect-requests received.
    A session that has received one Connect-request never has two
    sockets that are not destroyed: a retry opens its socket after the
    socket of the failed attempt is gone. *)
Theorem live_sockets_bounded (evs : list event) (st : state) :
  run cfg evs init = Some st ->
  live st + waiting st <= connects evs /\
  (connects evs <= 1 ->
   forall s s' k k',
     sockets st !! s = Some k -> sockets st !! s' = Some k' ->
     sk_phase k <> Destroyed -> sk_phase k' <> Destroyed -> s = s').
Proof.
  intros Hrun.
  assert (H : live st + waiting st <= connects evs).
  { apply (holds_run evs 0 init st); [|exact Hrun]. unfold holds. cbn. lia. }
  split; [exact H|]. intros Hone. apply live_unique. unfold live in H. lia.
Qed.

End Live.

End BoundFacts.

(** ** The order of the attempts, and a request in any state

    What a dial does from a Connect-request on, in a session in any open
    state, and what the listener does with a Connect-request whatever the
    session is doing. *)
Module DialFacts.
Import Trace SessionFacts.

Local Open Scope nat_scope.

Section Dial.

Context (cfg : config).

Lemma release_returns (st : state) :
  release_remote st = (Fulfilled tt, (release_remote st).2).
Proof.
  unfold release_remote, sock_destroy. destruct st as [[s|] c r sk rsv l];
    code; reflexivity.
Qed.

Lemma dials_release (st : state) :
  dials (log (release_remote st).2) = dials (log st).
Proof.
  destruct (Invariants.release_cases st) as [-> | (s & _ & ->)]; [reflexivity|].
  cbn. rewrite dials_app. cbn. now rewrite app_nil_r.
Qed.

(** A retryable failure before the last candidate: the call drops the
    socket the session holds and starts the attempt on the next
    candidate. *)
Lemma failure_goes_on (fr : frame) (c : string) (p : Z) (err : jserror)
    (st : state) :
  isCFError err = true ->
  candidates cfg (fr_host fr) !! S (fr_i fr) = Some c ->
  fr_port fr = Some p -> valid_port p = true ->
  resume_failed cfg fr err st
  = (Fulfilled Pending,
     if resolves cfg c
     then asked (next_frame fr) c (release_remote st).2
     else opened (next_frame fr) c p (release_remote st).2).
Proof.
  intros Hcf Hc Hp Hv.
  assert (Hlt : S (fr_i fr) < length (attempts cfg)).
  { rewrite <- (candidates_length cfg (fr_host fr)).
    eapply lookup_lt_Some, Hc. }
  assert (Hth : targetHost cfg (next_frame fr) = c).
  { apply targetHost_candidate. exact Hc. }
  unfold resume_failed, catch_block.
  unfold mbind at 1. unfold code_bind at 1. rewrite release_returns.
  rewrite Hcf. cbn [negb orb].
  replace (fr_i fr =? length (attempts cfg) - 1) with false
    by (symmetry; apply Nat.eqb_neq; lia).
  unfold rest.
  destruct (length (attempts cfg) - S (fr_i fr)) as [|k] eqn:Hk; [lia|].
  cbn [loop]. unfold try_catch.
  destruct (resolves cfg c) eqn:Hres.
  - rewrite attempt_asks by (now rewrite Hth). now rewrite Hth.
  - rewrite (attempt_opens cfg _ p) by (try rewrite Hth; assumption).
    now rewrite Hth.
Qed.

(** After its socket has connected a call opens no connection and asks
    for no resolution: it returns or throws. *)
Lemma success_stops (fr : frame) (st : state) :
  (resume_connected cfg fr st).1 <> Fulfilled Pending /\
  dials (log (resume_connected cfg fr st).2) = dials (log st) /\
  length (sockets (resume_connected cfg fr st).2) = length (sockets st) /\
  resolving (resume_connected cfg fr st).2 = resolving st.
Proof.
  unfold resume_connected, try_catch.
  destruct (connected cfg fr st) as [[w|err] st1] eqn:Hc.
  - unfold connected, remote_write, sock_write, ws_send, pumpRemoteToWebSocket in Hc.
    destruct st as [[s|] c [| |] sk rsv l];
      destruct (JS.truthy (fr_first fr)), (send_throws cfg); code;
      try discriminate; injection Hc as <- <-; cbn;
      rewrite ?length_alter, ?dials_app; cbn; rewrite ?app_nil_r;
      repeat split; congruence.
  - pose proof (BoundFacts.connected_errors cfg fr st err st1 Hc) as Herr.
    unfold catch_block. rewrite Herr. cbn [negb orb].
    assert (Hthrow : (release_remote ;; @throw wait err) st1
                     = (Rejected err, (release_remote st1).2)).
    { unfold mbind, code_bind. now rewrite release_returns. }
    rewrite Hthrow. cbn [fst snd].
    assert (H1 : dials (log st1) = dials (log st) /\
                 length (sockets st1) = length (sockets st) /\
                 resolving st1 = resolving st).
    { unfold connected, remote_write, sock_write, ws_send,
        pumpRemoteToWebSocket in Hc.
      destruct st as [[s|] c [| |] sk rsv l];
        destruct (JS.truthy (fr_first fr)), (send_throws cfg); code;
        try discriminate; injection Hc as <- <-; cbn;
        rewrite ?length_alter, ?dials_app; cbn; rewrite ?app_nil_r;
        repeat split; congruence. }
    destruct H1 as (Hd & Hl & Hr).
    split; [discriminate|]. rewrite dials_release.
    split; [exact Hd|].
    destruct (Invariants.release_cases st1) as [-> | (s & _ & ->)];
      cbn; rewrite ?length_alter; now split.
Qed.

Lemma run_request (d : payload) (addr payload : string) (evs : list event)
    (st : state) :
  toString d = "CONNECT:" +:+ addr +:+ "|" +:+ payload ->
  JS.occurs "|" addr = false ->
  isClosed st = false -> readyState st <> CLOSED ->
  run cfg (WsMessage d :: evs) st
  = run cfg evs (exec (guarded cfg (connectToRemote cfg addr payload)) st).
Proof.
  intros Hd Hbar Hopen Hready.
  rewrite run_step, step_message by assumption.
  now rewrite (connect_request cfg d addr payload).
Qed.

(** C2 as amended: a dial with requested host H, a valid port P and
    fallback hosts F1..Fn, started by a Connect-request on an open
    session and running alone (the events are those of the dial), opens
    its connections to the candidates H, F1', .., Fn' in this order, all
    on the port P, where Fi' is Fi, or H again when Fi is the empty
    string; it stops at the first one that connects.  When the first [k]
    candidates fail with retryable errors and the next one connects, the
    connections opened are those to the first [k+1] candidates in order
    (to the address a candidate was resolved to, in the variant that
    resolves names), the socket kept is the last one and the others have
    been destroyed.  With two fallback hosts, H and F1' failing and F2'
    connecting, there are exactly three connections, to H, F1' and F2',
    and the socket kept is the one of F2'.  And in every state of a
    session, a call whose attempt fails with a retryable error before the
    last candidate starts the attempt on the next candidate, and a call
    whose socket has connected opens no other connection. *)
Theorem fallback_order (st0 : state) (d : payload) (addr payload H : string)
    (P : Z) :
  isClosed st0 = false -> readyState st0 = OPEN ->
  toString d = "CONNECT:" +:+ addr +:+ "|" +:+ payload ->
  JS.occurs "|" addr = false ->
  parseAddress addr = {| host := H; port := Some P |} ->
  valid_port P = true ->
  let n0 := length (sockets st0) in
  let fr0 := first_frame (parseAddress addr) payload in
  (forall (fails : list outcome) (r : settled string),
      Forall (fun o => exists e, o.2 = Some e /\ isCFError e = true) fails ->
      length fails <= length (CF_FALLBACK_IPS cfg) ->
      exists st,
        run cfg (WsMessage d ::
                 script cfg fr0 (length (resolving st0)) n0
                   (fails ++ [(r, None)])) st0
        = Some st /\
        dials (log st)
        = dials (log st0) ++
          zip_with (fun c o => (dialled cfg c o.1, P))
            (candidates cfg H) (fails ++ [(r, None)]) /\
        length (sockets st) = n0 + S (length fails) /\
        remoteSocket st = Some (n0 + length fails) /\
        sockets st !! (n0 + length fails)
        = Some {| sk_phase := Connected; sk_ended := false;
                  sk_waiter := None; sk_pumps := 1 |} /\
        (forall c, candidates cfg H !! length fails = Some c ->
                   NetConnect (n0 + length fails) (dialled cfg c r) P ∈ log st) /\
        (forall j, j < length fails -> destroyed (n0 + j) st = true) /\
        isClosed st = false) /\
  (forall (F1 F2 : string) (e0 e1 : jserror),
      with_doh cfg = false ->
      CF_FALLBACK_IPS cfg = [F1; F2] ->
      isCFError e0 = true -> isCFError e1 = true ->
      let F1' := if JS.truthy F1 then F1 else H in
      let F2' := if JS.truthy F2 then F2 else H in
      exists st,
        run cfg [WsMessage d; SockError n0 e0; SockError (S n0) e1;
                 SockConnect (S (S n0))] st0
        = Some st /\
        dials (log st) = dials (log st0) ++ [(H, P); (F1', P); (F2', P)] /\
        remoteSocket st = Some (S (S n0)) /\
        NetConnect (S (S n0)) F2' P ∈ log st /\
        destroyed n0 st = true /\ destroyed (S n0) st = true /\
        destroyed (S (S n0)) st = false) /\
  (forall (fr : frame) (c : string) (p : Z) (err : jserror) (st : state),
      isCFError err = true ->
      candidates cfg (fr_host fr) !! S (fr_i fr) = Some c ->
      fr_port fr = Some p -> valid_port p = true ->
      resume_failed cfg fr err st
      = (Fulfilled Pending,
         if resolves cfg c
         then asked (next_frame fr) c (release_remote st).2
         else opened (next_frame fr) c p (release_remote st).2)) /\
  (forall (fr : frame) (st : state),
      (resume_connected cfg fr st).1 <> Fulfilled Pending /\
      dials (log (resume_connected cfg fr st).2) = dials (log st) /\
      length (sockets (resume_connected cfg fr st).2) = length (sockets st) /\
      resolving (resume_connected cfg fr st).2 = resolving st).
Proof.
  intros Hopen Hready Hd Hbar Hparse Hv n0 fr0.
  assert (Hnc : readyState st0 <> CLOSED) by (rewrite Hready; discriminate).
  assert (Hall : forall (fails : list outcome) (r : settled string),
    Forall (fun o => exists e, o.2 = Some e /\ isCFError e = true) fails ->
    length fails <= length (CF_FALLBACK_IPS cfg) ->
    exists st,
      run cfg (WsMessage d ::
               script cfg fr0 (length (resolving st0)) n0
                 (fails ++ [(r, None)])) st0
      = Some st /\
      dials (log st)
      = dials (log st0) ++
        zip_with (fun c o => (dialled cfg c o.1, P))
          (candidates cfg H) (fails ++ [(r, None)]) /\
      length (sockets st) = n0 + S (length fails) /\
      remoteSocket st = Some (n0 + length fails) /\
      sockets st !! (n0 + length fails)
      = Some {| sk_phase := Connected; sk_ended := false;
                sk_waiter := None; sk_pumps := 1 |} /\
      (forall c, candidates cfg H !! length fails = Some c ->
                 NetConnect (n0 + length fails) (dialled cfg c r) P ∈ log st) /\
      (forall j, j < length fails -> destroyed (n0 + j) st = true) /\
      isClosed st = false).
  { intros fails r Hfails Hlen.
    rewrite (run_request d addr payload) by assumption.
    destruct (dial_in_order cfg addr payload H P fails r st0 Hparse Hv Hready
                Hfails Hlen)
      as (st & Hrun & Hdials & Hn & Hrem & Hsock & Hin & Hdead & _ & _ & Hc).
    exists st. repeat split; try assumption. congruence. }
  split; [exact Hall|]. split; [|split; [apply failure_goes_on | apply success_stops]].
  intros F1 F2 e0 e1 Hdoh HF He0 He1 F1' F2'.
  destruct (Hall [(Rejected e0, Some e0); (Rejected e1, Some e1)] (Rejected e1))
    as (st & Hrun & Hdials & Hn & Hrem & Hsock & Hin & Hdead & _).
  { repeat constructor; eexists; split; eauto. }
  { rewrite HF. cbn. lia. }
  assert (Hres : forall c, resolves cfg c = false).
  { intros c. unfold resolves. now rewrite Hdoh. }
  assert (Hcand : candidates cfg H = [H; F1'; F2']).
  { unfold candidates. now rewrite HF. }
  cbn [length] in *.
  replace (n0 + 2) with (S (S n0)) in * by lia.
  exists st. split.
  { cbn [script app] in Hrun. unfold attempt_events in Hrun.
    rewrite !Hres in Hrun. exact Hrun. }
  split.
  { rewrite Hdials, Hcand. unfold dialled. cbn. now rewrite !Hres. }
  split; [exact Hrem|]. split.
  { specialize (Hin F2'). rewrite Hcand in Hin. unfold dialled in Hin.
    rewrite Hres in Hin. now apply Hin. }
  split; [replace n0 with (n0 + 0) at 1 by lia; apply Hdead; lia|].
  split; [replace (S n0) with (n0 + 1) by lia; apply Hdead; lia|].
  unfold destroyed. now rewrite Hsock.
Qed.

(** *** A Connect-request in any state *)

(** The listener starts the loop of [connectToRemote] on the address
    and the first frame it cuts out of the message. *)
Lemma request_loops (d : payload) (st : state) :
  isClosed st = false ->
  JS.startsWith (toString d) "CONNECT:" = true ->
  let message := toString d in
  let sep := JS.indexOf message "|" 8 in
  let addr := JS.substring message 8 sep in
  let fr := first_frame (parseAddress addr)
              (JS.substring_from message (sep + 1)) in
  exec (onMessage cfg d) st
  = exec (guarded cfg (loop cfg (S (length (CF_FALLBACK_IPS cfg))) fr)) st.
Proof.
  intros Hopen Hcmd message sep addr fr.
  unfold onMessage. unfold exec, mbind, code_bind at 1. unfold get at 1.
  cbn beta iota. rewrite Hopen. cbv zeta. rewrite Hcmd.
  fold message. fold sep. fold addr. unfold connectToRemote.
  fold (first_frame (parseAddress addr) (JS.substring_from message (sep + 1))).
  fold fr. now rewrite StreamFacts.attempts_length.
Qed.

(** An attempt that cannot dial throws out of the loop at once, after
    the socket the session holds has been destroyed and dropped. *)
Lemma loop_refused (n : nat) (fr : frame) (st : state) :
  (forall p, fr_port fr = Some p -> valid_port p = false) ->
  resolves cfg (targetHost cfg fr) = false ->
  loop cfg (S n) fr st = (Rejected bad_port, (release_remote st).2).
Proof.
  intros Hbad Hres. cbn [loop]. unfold try_catch, attempt.
  fold (resolves cfg (targetHost cfg fr)). rewrite Hres.
  rewrite StreamFacts.dial_bad_port by assumption.
  unfold catch_block. rewrite StreamFacts.bad_port_not_retried. cbn [negb orb].
  unfold mbind, code_bind. now rewrite release_returns.
Qed.

(** What the listener's catch block leaves after [err] was thrown with
    no socket held. *)
Lemma caught_any (m : code wait) (err : jserror) (st st1 : state) :
  m st = (Rejected err, st1) ->
  isClosed st1 = false -> readyState st1 <> CLOSED -> remoteSocket st1 = None ->
  let st' := exec (guarded cfg m) st in
  isClosed st' = true /\ remoteSocket st' = None /\ readyState st' = CLOSING /\
  sockets st' = sockets st1 /\ resolving st' = resolving st1 /\
  dials (log st') = dials (log st1) /\
  destroys (log st') = destroys (log st1) /\
  sends (log st')
  = sends (log st1) ++
    match readyState st1 with OPEN => [Str (error_notice err)] | _ => [] end /\
  closes (log st') = S (closes (log st1)).
Proof.
  intros Hm Hopen Hready Hs st'. subst st'.
  assert (Hx : exec (guarded cfg m) st
               = exec (swallow (ws_send cfg (Str (error_notice err)));; cleanup)
                   st1).
  { unfold guarded, exec, try_catch.
    unfold mbind at 1. unfold code_bind at 1. now rewrite Hm. }
  rewrite Hx. clear Hx Hm.
  unfold cleanup, release_remote, safeCloseWebSocket, ws_send.
  destruct st1 as [r cl rs sk rsv l]. cbn in Hopen, Hready, Hs. subst r cl.
  destruct rs; [| |contradiction]; destruct (send_throws cfg); code;
    rewrite ?dials_app, ?sends_app, ?destroys_app, ?Invariants.closes_app;
    cbn; rewrite ?app_nil_r; repeat split; try reflexivity;
    rewrite ?flat_map_app, ?length_app; cbn; lia.
Qed.

(** C4 as amended: a Connect-request that arrives while the session
    is connecting or streaming is not treated as a protocol violation.
    The listener tests the closed flag only and handles the request as
    it handles a first one, in every state of an open session.  When the
    requested host is a name that the variant with the resolver resolves,
    the request starts a resolution; otherwise, with a valid port, it
    opens a new connection, which takes the place of the socket the
    session held.  In both cases the sockets opened before are left as
    they are (none is destroyed), nothing is sent to the client and the
    session stays open.  Otherwise (the port is not a number from 0 to
    65535) [net.connect] throws: no connection is opened, the socket
    the session held is destroyed, the client is sent an ERROR: notice
    when its WebSocket is open, and the session is closed.  In a session
    that gets one Connect-request, whose dial runs alone with failures on
    the first candidates and a candidate that connects, one socket is kept
    and every other one has been destroyed. *)
Theorem connect_request_any_state (st : state) (d : payload) :
  isClosed st = false -> readyState st <> CLOSED ->
  JS.startsWith (toString d) "CONNECT:" = true ->
  let message := toString d in
  let sep := JS.indexOf message "|" 8 in
  let addr := JS.substring message 8 sep in
  let fr := first_frame (parseAddress addr)
              (JS.substring_from message (sep + 1)) in
  let target := host (parseAddress addr) in
  (resolves cfg target = true \/
   (exists p, port (parseAddress addr) = Some p /\ valid_port p = true) ->
   exists st',
     step cfg (WsMessage d) st = Some st' /\
     (resolves cfg target = true -> st' = asked fr target st) /\
     (forall p, resolves cfg target = false ->
                port (parseAddress addr) = Some p ->
                st' = opened fr target p st /\
                remoteSocket st' = Some (length (sockets st)) /\
                dials (log st') = dials (log st) ++ [(target, p)]) /\
     (forall s k, sockets st !! s = Some k -> sockets st' !! s = Some k) /\
     destroys (log st') = destroys (log st) /\
     sends (log st') = sends (log st) /\
     isClosed st' = false) /\
  (resolves cfg target = false ->
   (forall p, port (parseAddress addr) = Some p -> valid_port p = false) ->
   exists st' m,
     step cfg (WsMessage d) st = Some st' /\
     isClosed st' = true /\ remoteSocket st' = None /\
     dials (log st') = dials (log st) /\
     length (sockets st') = length (sockets st) /\
     resolving st' = resolving st /\
     destroys (log st')
     = destroys (log st) ++
       match remoteSocket st with Some s => [s] | None => [] end /\
     sends (log st')
     = sends (log st) ++
       match readyState st with OPEN => [Str ("ERROR:" +:+ m)] | _ => [] end /\
     closes (log st') = S (closes (log st))) /\
  (forall (d' : payload) (addr' payload H : string) (p : Z)
          (fails : list outcome) (r : settled string),
      toString d' = "CONNECT:" +:+ addr' +:+ "|" +:+ payload ->
      JS.occurs "|" addr' = false ->
      parseAddress addr' = {| host := H; port := Some p |} ->
      valid_port p = true ->
      Forall (fun o => exists e, o.2 = Some e /\ isCFError e = true) fails ->
      length fails <= length (CF_FALLBACK_IPS cfg) ->
      exists st',
        run cfg (WsMessage d' ::
                 script cfg (first_frame (parseAddress addr') payload) 0 0
                   (fails ++ [(r, None)])) init
        = Some st' /\
        length (sockets st') = S (length fails) /\
        remoteSocket st' = Some (length fails) /\
        destroyed (length fails) st' = false /\
        (forall j, j < length fails -> destroyed j st' = true)).
Proof.
  intros Hopen Hready Hcmd message sep addr fr target.
  assert (Hth : targetHost cfg fr = target) by reflexivity.
  assert (Hstep : step cfg (WsMessage d) st
                  = Some (exec (guarded cfg
                            (loop cfg (S (length (CF_FALLBACK_IPS cfg))) fr)) st)).
  { rewrite step_message by assumption. f_equal.
    now apply request_loops. }
  rewrite Hstep. split; [|split].
  - intros Hcase.
    assert (Hst : exists st',
      exec (guarded cfg (loop cfg (S (length (CF_FALLBACK_IPS cfg))) fr)) st = st' /\
      (resolves cfg target = true -> st' = asked fr target st) /\
      (forall p, resolves cfg target = false ->
                 port (parseAddress addr) = Some p ->
                 st' = opened fr target p st)).
    { destruct (resolves cfg target) eqn:Hres.
      - exists (asked fr target st). split; [|split; [reflexivity | discriminate]].
        cbn [loop]. unfold guarded, exec, try_catch.
        unfold mbind at 1. unfold code_bind at 1.
        rewrite attempt_asks by (now rewrite Hth). now rewrite Hth.
      - destruct Hcase as [Hcase | (p & Hp & Hv)]; [discriminate|].
        exists (opened fr target p st). split; [|split; [discriminate|]].
        + rewrite (loop_starts cfg _ fr p) by assumption.
          now rewrite Hth, Hres.
        + intros p' _ Hp'. congruence. }
    destruct Hst as (st' & -> & Hask & Hopened).
    eexists. split; [reflexivity|]. split; [exact Hask|].
    destruct (resolves cfg target) eqn:Hres.
    + rewrite (Hask eq_refl). cbn [asked sockets log isClosed].
      split; [discriminate|]. split; [tauto|].
      unfold destroys, sends. rewrite !flat_map_app. cbn.
      rewrite !app_nil_r. repeat split; assumption.
    + destruct Hcase as [Hcase | (p & Hp & Hv)]; [discriminate|].
      rewrite (Hopened p eq_refl Hp).
      cbn [opened sockets log isClosed remoteSocket]. split.
      { intros p' _ Hp'. replace p' with p by congruence.
        repeat split. rewrite dials_app. reflexivity. }
      split.
      { intros s k Hk. rewrite lookup_app_l; [exact Hk|].
        eapply lookup_lt_Some, Hk. }
      unfold destroys, sends. rewrite !flat_map_app. cbn.
      rewrite !app_nil_r. repeat split; assumption.
  - intros Hres Hbad.
    pose proof (loop_refused (length (CF_FALLBACK_IPS cfg)) fr st Hbad Hres)
      as Hloop.
    assert (Hrel : isClosed (release_remote st).2 = false /\
                   readyState (release_remote st).2 = readyState st /\
                   remoteSocket (release_remote st).2 = None /\
                   length (sockets (release_remote st).2) = length (sockets st) /\
                   resolving (release_remote st).2 = resolving st /\
                   sends (log (release_remote st).2) = sends (log st) /\
                   closes (log (release_remote st).2) = closes (log st) /\
                   destroys (log (release_remote st).2)
                   = destroys (log st) ++
                     match remoteSocket st with Some s => [s] | None => [] end).
    { unfold release_remote, sock_destroy.
      destruct st as [[s|] cl rs sk rsv l]; cbn in Hopen; subst cl; code;
        rewrite ?length_alter, ?sends_app, ?destroys_app; cbn;
        rewrite ?app_nil_r; repeat split; try reflexivity;
        rewrite ?flat_map_app, ?length_app; cbn; lia. }
    destruct Hrel as (R1 & R2 & R3 & R4 & R5 & R6 & R7 & R8).
    destruct (caught_any _ bad_port st _ Hloop R1)
      as (K1 & K2 & K3 & K4 & K5 & K6 & K7 & K8 & K9); [congruence | exact R3 |].
    eexists _, _. split; [reflexivity|].
    split; [exact K1|]. split; [exact K2|].
    split; [now rewrite K6, dials_release|].
    split; [now rewrite K4|]. split; [congruence|].
    split; [congruence|]. split; [|congruence].
    rewrite K8, R6, R2. reflexivity.
  - intros d' addr' payload H p fails r Hd Hbar Hparse Hv Hfails Hlen.
    rewrite (run_request d' addr' payload)
      by first [assumption | reflexivity | discriminate].
    destruct (dial_in_order cfg addr' payload H p fails r init Hparse Hv
                eq_refl Hfails Hlen)
      as (st' & Hrun & _ & Hn & Hrem & Hsock & _ & Hdead & _).
    cbn [init sockets resolving length Nat.add] in *.
    exists st'. repeat split; try assumption.
    unfold destroyed. now rewrite Hsock.
Qed.

End Dial.
End DialFacts.

(** ** The properties above, on the scenarios *)
Module ScenarioChecks.
Import Scenario Trace.

Local Open Scope nat_scope.

Lemma destroy_once_witness :
  NoDup (destroys (log (after plain overlapping))) /\
  Forall (fun s => s < length (sockets (after plain overlapping)))
    (destroys (log (after plain overlapping))).
Proof.
  apply (SessionFacts.destroy_once plain overlapping). vm_compute. reflexivity.
Defined.

Lemma close_called_once_witness :
  closes (log (after plain overlapping)) <= 1 /\
  (isClosed (after plain overlapping) = false ->
   closes (log (after plain overlapping)) = 0).
Proof.
  apply (Invariants.close_called_once plain overlapping). vm_compute. reflexivity.
Defined.

Lemma nothing_sent_once_closed_witness :
  isClosed (after resolving_names late_connect) = true /\
  readyState (after resolving_names late_connect) <> OPEN /\
  sends (log (after resolving_names late_connect))
  = sends (log (after resolving_names (take 2 late_connect))).
Proof.
  apply (Invariants.nothing_sent_once_closed resolving_names
           (take 2 late_connect) (drop 2 late_connect));
    vm_compute; reflexivity.
Defined.

Lemma frames_to_client_witness :
  Forall notice (sends (log (after plain second_connect))).
Proof.
  apply (Invariants.frames_to_client plain second_connect). vm_compute.
  reflexivity.
Defined.

Lemma no_write_after_destroy_witness :
  writes_before_destroy (log (after plain early_data_plain)).
Proof.
  apply (Invariants.no_write_after_destroy plain early_data_plain). vm_compute.
  reflexivity.
Defined.

Lemma remote_chunks_in_order_witness :
  run plain (SockData 0 <$> ["HTTP/1.0 200 OK"; "hello"]) streaming_session
  = Some (emit_all [WsSend (Buf "HTTP/1.0 200 OK"); WsSend (Buf "hello")]
            streaming_session).
Proof.
  apply (StreamFacts.remote_chunks_in_order plain 0
           {| sk_phase := Connected; sk_ended := false; sk_waiter := None;
              sk_pumps := 1 |});
    reflexivity.
Defined.

Lemma client_frames_in_order_witness :
  run plain (WsMessage <$> [Str "DATA:abc"; Buf "xyz"; Str "DATA:"])
    streaming_session
  = Some (emit_all (SockWrite 0 <$> [Str "abc"; Buf "xyz"; Str ""])
            streaming_session).
Proof.
  apply (StreamFacts.client_frames_in_order plain 0).
  - repeat constructor.
  - reflexivity.
  - discriminate.
  - reflexivity.
  - reflexivity.
Defined.

Lemma remote_end_closes_witness :
  exists st',
    step plain (SockEnd 0) streaming_session = Some st' /\
    log st' = log streaming_session
              ++ [WsSend (Str "CLOSE"); SockDestroy 0; WsClose] /\
    isClosed st' = true /\ remoteSocket st' = None /\
    destroyed 0 st' = true /\ readyState st' = CLOSING.
Proof.
  apply (StreamFacts.remote_end_closes plain streaming_session 0
           {| sk_phase := Connected; sk_ended := false; sk_waiter := None;
              sk_pumps := 1 |});
    reflexivity.
Defined.

Lemma remote_error_closes_silently_witness :
  exists st',
    step plain (SockError 0 refused) streaming_session = Some st' /\
    log st' = log streaming_session ++ [SockDestroy 0; WsClose] /\
    sends (log st') = sends (log streaming_session) /\
    isClosed st' = true /\ remoteSocket st' = None /\ readyState st' = CLOSING.
Proof.
  apply (StreamFacts.remote_error_closes_silently plain streaming_session 0
           {| sk_phase := Connected; sk_ended := false; sk_waiter := None;
              sk_pumps := 1 |});
    reflexivity.
Defined.

Lemma unknown_frame_by_type_witness :
  step plain (WsMessage (Str "close")) streaming_session
  = Some streaming_session /\
  step plain (WsMessage (Buf "close")) streaming_session
  = Some (emit (SockWrite 0 (Buf "close")) streaming_session).
Proof.
  destruct (StreamFacts.unknown_frame_by_type plain streaming_session "close")
    as (Hstr & Hbuf & _); try reflexivity; try discriminate.
  split; [exact Hstr|]. apply Hbuf; reflexivity.
Defined.

Lemma bad_port_closes_witness :
  exists st' m,
    run plain [WsMessage (Str ("CONNECT:" +:+ "h.example:99999" +:+ "|" +:+ "hello"))]
      init = Some st' /\
    log st' = [WsSend (Str ("ERROR:" +:+ m)); WsClose] /\
    isClosed st' = true /\ sockets st' = [].
Proof.
  apply (proj1 (StreamFacts.bad_port_closes plain "h.example:99999" "hello"
                  eq_refl
                  (fun p H => match H in _ = o
                                    return match o with
                                           | Some q => valid_port q = false
                                           | None => True
                                           end
                              with eq_refl => eq_refl end))).
  reflexivity.
Defined.

Lemma connect_without_separator_witness :
  exists st' m,
    step plain (WsMessage (Str ("CONNECT:" +:+ "h.example:80"))) init = Some st' /\
    log st' = [WsSend (Str ("ERROR:" +:+ m)); WsClose] /\
    isClosed st' = true /\ sockets st' = [].
Proof.
  apply (proj1 (StreamFacts.connect_without_separator plain "h.example:80"
                  eq_refl)).
  reflexivity.
Defined.

Lemma idle_once_closed_witness :
  let st := after plain [WsMessage connect_frame; SockError 0 not_found] in
  exists st',
    run plain [WsMessage (Str "DATA:abc"); WsClosed] st = Some st' /\
    log st' = log st /\ remoteSocket st' = remoteSocket st.
Proof.
  intros st. eexists.
  split; [vm_compute; reflexivity|].
  refine (let H := StreamFacts.idle_once_closed plain
                     [WsMessage (Str "DATA:abc"); WsClosed] st _ _ _ _ _ in
          conj (proj1 H) (proj1 (proj2 H))).
  - reflexivity.
  - vm_compute. repeat constructor.
  - vm_compute. repeat constructor.
  - vm_compute. reflexivity.
Defined.

Lemma first_frame_then_connected_witness :
  exists st',
    step plain (SockConnect 0)
      (opened (first_frame (parseAddress "h.example:80") "hello")
         "h.example" 80%Z init) = Some st' /\
    log st' = [] ++ [NetConnect 0 "h.example" 80%Z]
                 ++ [SockWrite 0 (Str "hello")] ++ [WsSend (Str "CONNECTED")] /\
    remoteSocket st' = Some 0 /\
    sockets st' !! 0
    = Some {| sk_phase := Connected; sk_ended := false; sk_waiter := None;
              sk_pumps := 1 |}.
Proof.
  apply (StreamFacts.first_frame_then_connected plain
           (first_frame (parseAddress "h.example:80") "hello")
           "h.example" 80%Z init eq_refl).
Defined.

Lemma trailing_comma_retries_host_witness :
  let e : Server.env :=
    fun name => if String.eqb name "PRIP" then Some ("f1.example" +:+ ",") else None in
  let cfg := {| CF_FALLBACK_IPS := Server.CF_FALLBACK_IPS e; with_doh := false;
                isIP := Net.isIP_v4; send_throws := false |} in
  let fr := {| fr_i := 2; fr_host := "h.example"; fr_port := Some 80%Z;
               fr_first := "hello" |} in
  last (CF_FALLBACK_IPS cfg) = Some "" /\
  attempts cfg !! fr_i fr = Some (Some "") /\
  targetHost cfg fr = fr_host fr.
Proof.
  intros e cfg fr.
  apply (StreamFacts.trailing_comma_retries_host cfg e "f1.example" fr);
    reflexivity.
Defined.

Lemma port_alone_dials_empty_host_witness :
  exists st',
    step plain (WsMessage (Str ("CONNECT:" +:+ "8080" +:+ "|" +:+ "hello"))) init
    = Some st' /\
    log st' = [NetConnect 0 "" 8080%Z] /\ remoteSocket st' = Some 0.
Proof.
  apply (StreamFacts.port_alone_dials_empty_host plain "8080" "hello" 8080%Z);
    reflexivity.
Defined.

Lemma connections_bounded_witness :
  length (dials (log (after plain overlapping)))
  <= connects overlapping * S (length (CF_FALLBACK_IPS plain)).
Proof.
  apply (BoundFacts.connections_bounded plain overlapping). vm_compute.
  reflexivity.
Defined.

Lemma live_sockets_bounded_witness :
  live (after plain second_connect) + waiting (after plain second_connect)
  <= connects second_connect.
Proof.
  apply (proj1 (BoundFacts.live_sockets_bounded plain second_connect
                  (after plain second_connect) eq_refl)).
Defined.

Lemma fallback_order_witness :
  exists st,
    run trailing_comma
      [WsMessage connect_frame; SockError 0 refused; SockError 1 timed_out;
       SockConnect 2] init
    = Some st /\
    dials (log st)
    = [] ++ [("h.example", 80%Z); ("f1.example", 80%Z); ("h.example", 80%Z)] /\
    remoteSocket st = Some 2 /\
    NetConnect 2 "h.example" 80%Z ∈ log st /\
    destroyed 0 st = true /\ destroyed 1 st = true /\ destroyed 2 st = false.
Proof.
  refine (proj1 (proj2 (DialFacts.fallback_order trailing_comma init
                          connect_frame "h.example:80" "hello" "h.example"
                          80%Z _ _ _ _ _ _))
            "f1.example" "" refused timed_out _ _ _ _);
    reflexivity.
Defined.

Lemma connect_request_any_state_witness :
  (exists st',
      step plain (WsMessage (Str "CONNECT:g.example:81|world")) streaming_session
      = Some st' /\
      remoteSocket st' = Some 1 /\
      destroys (log st') = [] /\
      isClosed st' = false) /\
  (exists st' m,
      step plain (WsMessage (Str "CONNECT:g.example:99999|world"))
        streaming_session
      = Some st' /\
      isClosed st' = true /\
      destroys (log st') = [0] /\
      sends (log st') = [Str "CONNECTED"; Str ("ERROR:" +:+ m)]).
Proof.
  split.
  - destruct (DialFacts.connect_request_any_state plain streaming_session
                (Str "CONNECT:g.example:81|world"))
      as [Haccepted _]; try reflexivity; try discriminate.
    destruct Haccepted as (st' & Hstep & _ & Hopened & _ & Hd & _ & Hc).
    { right. exists 81%Z. split; reflexivity. }
    exists st'. split; [exact Hstep|]. split.
    { apply (Hopened 81%Z); reflexivity. }
    split; [exact Hd | exact Hc].
  - destruct (DialFacts.connect_request_any_state plain streaming_session
                (Str "CONNECT:g.example:99999|world"))
      as (_ & Hrefused & _); try reflexivity; try discriminate.
    destruct Hrefused as (st' & m & Hstep & Hc & _ & _ & _ & _ & Hd & Hs & _).
    { reflexivity. }
    { intros p [= <-]. reflexivity. }
    exists st', m. split; [exact Hstep|]. split; [exact Hc|].
    split; [exact Hd | exact Hs].
Defined.

End ScenarioChecks.
